(** * dothuntcli: domain normalisation, WHOIS/RDAP evidence, availability
      checking and label generation

    A shallow embedding of the Go packages [internal/domain],
    [internal/whois], [internal/rdap], [internal/availability] and
    [internal/generate], with the properties their specification states.

    Go strings are byte strings: they are modelled as [string], whose
    characters are the 256 byte values.  Go [int], [int64] and
    [time.Duration] values are modelled as [Z], and instants of time as
    [Z] too: the arithmetic is exact, as it is in the source as long as
    nothing leaves the 64-bit range.  A Go [error] is modelled by its
    message, [option string] standing for a possibly-nil error. *)

From Stdlib Require Import ZArith Ascii String List Sorting.Sorted Sorting.Permutation.
From Stdlib Require DecimalString.
From stdpp Require Import base gmap strings list sorting fin_maps.

(** ** Library routines outside the repository

    The packages call a few routines of the Go standard library and of
    [golang.org/x/net/idna] whose behaviour rests on tables that are not
    part of the repository.  They are the fields of [GoLib]; every
    definition and theorem below is stated for an arbitrary implementation
    of them. *)
Class GoLib := {
  (** [strings.Map(unicode.ToLower, s)]: the slow path of
      [strings.ToLower], taken when [s] holds a byte above 0x7F. *)
  unicode_lower : string → string;
  (** [url.Parse(s)]: [None] when parsing fails, else [Some u.Host]. *)
  url_parse_host : string → option string;
  (** [idna.Lookup.ToASCII(s)]: the ASCII form, or the error message. *)
  idna_lookup_to_ascii : string → string + string;
  (** [strconv.Quote], the rendering of the verb [%q]. *)
  strconv_quote : string → string;
  (** [regexp.MustCompile(pattern).FindStringIndex(body) != nil]. *)
  regexp_match : string → string → bool
}.

(** ** Package [strings] (byte-level routines) *)
Module Strings.

Definition code (c : ascii) : N := N_of_ascii c.

Definition isUpper (c : ascii) : bool := (65 <=? code c)%N && (code c <=? 90)%N.
Definition isLowerAlpha (c : ascii) : bool := (97 <=? code c)%N && (code c <=? 122)%N.
Definition isDigit (c : ascii) : bool := (48 <=? code c)%N && (code c <=? 57)%N.
Definition isASCII (c : ascii) : bool := (code c <? 128)%N.

Definition lowerByte (c : ascii) : ascii :=
  if isUpper c then ascii_of_N (code c + 32) else c.

Fixpoint allBytes (p : ascii → bool) (s : string) : bool :=
  match s with
  | EmptyString => true
  | String c s' => p c && allBytes p s'
  end.

Fixpoint mapBytes (f : ascii → ascii) (s : string) : string :=
  match s with
  | EmptyString => EmptyString
  | String c s' => String (f c) (mapBytes f s')
  end.

Fixpoint hasByte (c : ascii) (s : string) : bool :=
  match s with
  | EmptyString => false
  | String x s' => if decide (x = c) then true else hasByte c s'
  end.

Definition len (s : string) : nat := String.length s.

(** An index was found ([>= 0] in the source). *)
Definition found {A} (o : option A) : bool :=
  match o with Some _ => true | None => false end.

(** [s[:n]] and [s[n:]] for [n <= len(s)]. *)
Fixpoint takeS (n : nat) (s : string) : string :=
  match n, s with
  | S n', String c s' => String c (takeS n' s')
  | _, _ => EmptyString
  end.

Fixpoint dropS (n : nat) (s : string) : string :=
  match n, s with
  | S n', String _ s' => dropS n' s'
  | _, _ => s
  end.

Fixpoint HasPrefix (s prefix : string) {struct prefix} : bool :=
  match prefix, s with
  | EmptyString, _ => true
  | String p prefix', String c s' =>
      if decide (c = p) then HasPrefix s' prefix' else false
  | String _ _, EmptyString => false
  end.

Definition HasSuffix (s suffix : string) : bool :=
  HasPrefix (String.rev s) (String.rev suffix).

Fixpoint Contains (s substr : string) : bool :=
  HasPrefix s substr ||
  match s with
  | EmptyString => false
  | String _ s' => Contains s' substr
  end.

Definition TrimSuffix (s suffix : string) : string :=
  if HasSuffix s suffix then takeS (len s - len suffix) s else s.

(** [strings.IndexByte]: [None] stands for [-1]. *)
Fixpoint IndexByte (s : string) (c : ascii) : option nat :=
  match s with
  | EmptyString => None
  | String x s' => if decide (x = c) then Some 0 else S <$> IndexByte s' c
  end.

Fixpoint LastIndexByte (s : string) (c : ascii) : option nat :=
  match s with
  | EmptyString => None
  | String x s' =>
      match LastIndexByte s' c with
      | Some i => Some (S i)
      | None => if decide (x = c) then Some 0 else None
      end
  end.

(** [strings.IndexAny(s, chars)] for a set [chars] of ASCII bytes. *)
Fixpoint IndexAny (s chars : string) : option nat :=
  match s with
  | EmptyString => None
  | String x s' => if hasByte x chars then Some 0 else S <$> IndexAny s' chars
  end.

(** [strings.Split(s, sep)] for a one-byte separator. *)
Fixpoint SplitByte (s : string) (sep : ascii) : list string :=
  match s with
  | EmptyString => [EmptyString]
  | String x s' =>
      if decide (x = sep) then EmptyString :: SplitByte s' sep
      else match SplitByte s' sep with
           | h :: t => String x h :: t
           | [] => [String x EmptyString]
           end
  end.

Fixpoint Join (elems : list string) (sep : string) : string :=
  match elems with
  | [] => EmptyString
  | [e] => e
  | e :: rest => e +:+ sep +:+ Join rest sep
  end.

(** [strings.Count(s, sep)] for a one-byte [sep]. *)
Fixpoint CountByte (s : string) (c : ascii) : Z :=
  match s with
  | EmptyString => 0%Z
  | String x s' => ((if decide (x = c) then 1 else 0) + CountByte s' c)%Z
  end.

Fixpoint TrimLeftByte (s : string) (c : ascii) : string :=
  match s with
  | String x s' => if decide (x = c) then TrimLeftByte s' c else s
  | EmptyString => EmptyString
  end.

Definition TrimRightByte (s : string) (c : ascii) : string :=
  String.rev (TrimLeftByte (String.rev s) c).

(** [strings.Trim(s, cutset)] for a one-byte cutset. *)
Definition TrimByte (s : string) (c : ascii) : string :=
  TrimRightByte (TrimLeftByte s c) c.

(** *** White space

    [unicode.IsSpace] holds for the runes U+0009..U+000D, U+0020, U+0085,
    U+00A0, U+1680, U+2000..U+200A, U+2028, U+2029, U+202F, U+205F and
    U+3000.  Their UTF-8 encodings start with an ASCII byte or a leading
    byte, never with a continuation byte, so that decoding runes forwards
    or backwards, as [strings.TrimSpace] and [strings.Fields] do, finds the
    same white-space runes as matching these encodings on the bytes. *)
Definition asciiSpace (c : N) : bool :=
  ((9 <=? c) && (c <=? 13) || (c =? 32))%N.

Definition space2 (a b : N) : bool :=
  ((a =? 194) && ((b =? 133) || (b =? 160)))%N.

Definition space3 (a b c : N) : bool :=
  ((a =? 225) && (b =? 154) && (c =? 128)
   || (a =? 226) && (b =? 128)
      && ((128 <=? c) && (c <=? 138) || (c =? 168) || (c =? 169) || (c =? 175))
   || (a =? 226) && (b =? 129) && (c =? 159)
   || (a =? 227) && (b =? 128) && (c =? 128))%N.

(** An ASCII byte that is not white space: it is part of no white-space
    rune. *)
Definition plain (c : ascii) : bool :=
  isASCII c && negb (asciiSpace (code c)).

(** Number of bytes of the white-space rune that [s] starts with, [0] when
    it starts with none. *)
Definition spaceRuneLen (s : string) : nat :=
  match s with
  | String a (String b (String c _)) =>
      if asciiSpace (code a) then 1
      else if space2 (code a) (code b) then 2
      else if space3 (code a) (code b) (code c) then 3 else 0
  | String a (String b EmptyString) =>
      if asciiSpace (code a) then 1
      else if space2 (code a) (code b) then 2 else 0
  | String a EmptyString => if asciiSpace (code a) then 1 else 0
  | EmptyString => 0
  end.

(** [strings.TrimLeftFunc(s, unicode.IsSpace)]. *)
Fixpoint TrimLeftSpace (s : string) : string :=
  match s with
  | EmptyString => EmptyString
  | String a r =>
      if asciiSpace (code a) then TrimLeftSpace r
      else match r with
           | String b r2 =>
               if space2 (code a) (code b) then TrimLeftSpace r2
               else match r2 with
                    | String c r3 =>
                        if space3 (code a) (code b) (code c)
                        then TrimLeftSpace r3 else s
                    | EmptyString => s
                    end
           | EmptyString => s
           end
  end.

(** The same on the reversed string: [strings.TrimRightFunc] decodes the
    last rune, whose bytes come in the order [c], [b], [a] here. *)
Fixpoint trimLeftSpaceRev (s : string) : string :=
  match s with
  | EmptyString => EmptyString
  | String c r =>
      if asciiSpace (code c) then trimLeftSpaceRev r
      else match r with
           | String b r2 =>
               if space2 (code b) (code c) then trimLeftSpaceRev r2
               else match r2 with
                    | String a r3 =>
                        if space3 (code a) (code b) (code c)
                        then trimLeftSpaceRev r3 else s
                    | EmptyString => s
                    end
           | EmptyString => s
           end
  end.

Definition TrimRightSpace (s : string) : string :=
  String.rev (trimLeftSpaceRev (String.rev s)).

Definition TrimSpace (s : string) : string :=
  TrimRightSpace (TrimLeftSpace s).

(** For each byte of [s], whether it belongs to a white-space rune;
    [skip] counts the bytes still owed to the rune found last. *)
Fixpoint spaceMask (skip : nat) (s : string) : list bool :=
  match s with
  | EmptyString => []
  | String _ r =>
      match skip with
      | S k => true :: spaceMask k r
      | O => match spaceRuneLen s with
             | O => false :: spaceMask 0 r
             | S k => true :: spaceMask k r
             end
      end
  end.

(** [strings.Fields]: the maximal runs of bytes outside white space.
    [cur] holds the field being read, reversed. *)
Fixpoint fieldsGo (cur : string) (mask : list bool) (s : string) : list string :=
  let flush := if decide (cur = EmptyString) then [] else [String.rev cur] in
  match s, mask with
  | String c r, true :: m => flush ++ fieldsGo EmptyString m r
  | String c r, false :: m => fieldsGo (String c cur) m r
  | _, _ => flush
  end.

Definition Fields (s : string) : list string :=
  fieldsGo EmptyString (spaceMask 0 s) s.

(** [strings.ToLower]: ASCII-only strings are mapped byte by byte, any
    other string goes through [unicode.ToLower] rune by rune. *)
Definition ToLower `{GoLib} (s : string) : string :=
  if allBytes isASCII s then mapBytes lowerByte s else unicode_lower s.

(** [strings.TrimRight(s, cutset)] for a one-byte cutset is
    [TrimRightByte]. *)

End Strings.

(** ** Package [net]: [SplitHostPort] *)
Module Net.
Import Strings.

Definition missingPort : string := "missing port in address".
Definition tooManyColons : string := "too many colons in address".

(** The result is [(host, port)], or the reason of the [AddrError]. *)
Definition SplitHostPort (hostport : string) : (string * string) + string :=
  match LastIndexByte hostport ":" with
  | None => inr missingPort
  | Some i =>
      if HasPrefix hostport "[" then
        match IndexByte hostport "]" with
        | None => inr "missing ']' in address"
        | Some end_ =>
            if decide (end_ + 1 = len hostport) then inr missingPort
            else if decide (end_ + 1 = i) then
              if found (IndexByte (dropS 1 hostport) "[") then inr "unexpected '[' in address"
              else if found (IndexByte (dropS (end_ + 1) hostport) "]")
                   then inr "unexpected ']' in address"
              else inl (takeS (end_ - 1) (dropS 1 hostport), dropS (i + 1) hostport)
            else if HasPrefix (dropS (end_ + 1) hostport) ":" then inr tooManyColons
            else inr missingPort
        end
      else
        let host := takeS i hostport in
        if found (IndexByte host ":") then inr tooManyColons
        else if found (IndexByte hostport "[") then inr "unexpected '[' in address"
        else if found (IndexByte hostport "]") then inr "unexpected ']' in address"
        else inl (host, dropS (i + 1) hostport)
  end.

End Net.

(** ** Package [internal/domain] *)
Module Domain.
Import Strings.
Section WithLib.
Context `{GoLib}.

Definition isAllDigits (s : string) : bool :=
  if decide (s = EmptyString) then false else allBytes isDigit s.

Definition isLDH (c : ascii) : bool :=
  isLowerAlpha c || isDigit c || bool_decide (c = "-"%char).

Definition validLabel (label : string) : bool :=
  if (len label <? 1) || (63 <? len label) then false
  else if HasPrefix label "-" || HasSuffix label "-" then false
  else allBytes isLDH label.

Definition isValidDomainASCII (s : string) : bool :=
  if (len s <? 1) || (253 <? len s) then false
  else if HasPrefix s "." || HasSuffix s "." then false
  else
    let labels := SplitByte s "." in
    if length labels <? 2 then false
    else forallb validLabel labels.

(** The bytes of a valid name: letters, digits, hyphen and dot. *)
Definition isNameByte (c : ascii) : bool :=
  isLDH c || bool_decide (c = "."%char).

(** The block of [Normalize] that replaces a URL by its host. *)
Definition urlHost (s : string) : string :=
  if Contains s "://" then
    match url_parse_host s with
    | Some host => if decide (host = EmptyString) then s else host
    | None => s
    end
  else s.

(** The block of [Normalize] that cuts a path, query or fragment off. *)
Definition stripPath (s : string) : string :=
  match IndexAny s "/?#" with
  | Some i => takeS i s
  | None => s
  end.

(** The block of [Normalize] that strips a port. *)
Definition stripPort (s : string) : string :=
  match Net.SplitHostPort s with
  | inl (host, _) => host
  | inr _ =>
      match LastIndexByte s ":" with
      | Some i =>
          if (0 <? i) && (i <? len s - 1) then
            let maybePort := dropS (i + 1) s in
            if isAllDigits maybePort then takeS i s else s
          else s
      | None => s
      end
  end.

Definition Normalize (input : string) : string + string :=
  let s := TrimSpace input in
  if decide (s = EmptyString) then inr "empty domain"
  else
    let s := urlHost s in
    let s := stripPath s in
    let s := stripPort s in
    let s := TrimSuffix s "." in
    let s := ToLower (TrimSpace s) in
    if decide (s = EmptyString) then inr "empty domain"
    else
      match idna_lookup_to_ascii s with
      | inr err => inr ("idna: " +:+ err)
      | inl ascii =>
          if negb (Contains ascii ".") then
            inr ("domain must contain a dot: " +:+ strconv_quote input)
          else if negb (isValidDomainASCII ascii) then
            inr ("invalid domain: " +:+ strconv_quote input)
          else inl ascii
      end.

End WithLib.
End Domain.

(** ** Package [regexp]: [QuoteMeta] *)
Module Regexp.
Import Strings.

Definition specialBytes : string := "\.+*?()|[]{}^$".

Fixpoint QuoteMeta (s : string) : string :=
  match s with
  | EmptyString => EmptyString
  | String c r =>
      if hasByte c specialBytes then String "\" (String c (QuoteMeta r))
      else String c (QuoteMeta r)
  end.

End Regexp.

(** ** Package [bufio]: a [Scanner] with [ScanLines] over a string

    A token and its newline must fit the 64 KiB buffer; a last line
    without newline must leave one byte of the buffer free.  The result
    holds the lines scanned before the scanner stops, and its error. *)
Module Bufio.
Import Strings.

Definition MaxScanTokenSize : Z := 65536.
Definition ErrTooLong : string := "bufio.Scanner: token too long".

(** [dropCR]: a carriage return that ends the line is dropped. *)
Definition dropCR (line : string) : string :=
  TrimSuffix line (String "013" EmptyString).

Fixpoint scanSegments (segs : list string) : list string * option string :=
  match segs with
  | [] => ([], None)
  | [last] =>
      if decide (last = EmptyString) then ([], None)
      else if (MaxScanTokenSize <=? Z.of_nat (len last))%Z then ([], Some ErrTooLong)
      else ([dropCR last], None)
  | seg :: rest =>
      if (MaxScanTokenSize <? Z.of_nat (len seg) + 1)%Z then ([], Some ErrTooLong)
      else let '(lines, err) := scanSegments rest in (dropCR seg :: lines, err)
  end.

Definition ScanLines (body : string) : list string * option string :=
  scanSegments (SplitByte body "010").

End Bufio.

(** ** Results of calls that may fail or panic *)
Inductive outcome (A : Type) : Type :=
  | Ret (a : A)            (* returned value, nil error *)
  | Fail (err : string)    (* returned error *)
  | Panic (msg : string).  (* run-time panic *)
Arguments Ret {A} a.
Arguments Fail {A} err.
Arguments Panic {A} msg.

(** ** Package [internal/whois] *)
Module Whois.
Import Strings.
Local Open Scope Z_scope.

Definition Millisecond : Z := 1000000.
Definition Second : Z := 1000000000.

Record Options := {
  Timeout : Z;
  Verbose : bool;
  MaxConcurrentPerServer : Z;
  MinDelayPerServer : Z;
  Retries : Z;
  Backoff : Z
}.

Record Evidence := {
  Status : string;
  Confidence : string;
  Reason : string;
  Server : string;
  Pattern : string;
  Err : option string
}.

(** Instants of the clock that [time.Now], [Before] and [Add] read, in
    nanoseconds.  [zeroTime] is the zero [time.Time], 0001-01-01 UTC. *)
Definition zeroTime : Z := -62135596800 * Second.

(** [sem] is kept as its capacity, [next] as an instant. *)
Record perServerState := {
  semCap : Z;
  next : Z
}.

Record Client := {
  opts : Options;
  tldToServer : gmap string string;
  serverState : gmap string perServerState
}.

Definition NewClient (o : Options) : Client :=
  let timeout := if decide (Timeout o = 0) then 8 * Second else Timeout o in
  let maxConc :=
    if decide (MaxConcurrentPerServer o <= 0) then 1 else MaxConcurrentPerServer o in
  let minDelay :=
    if decide (MinDelayPerServer o <= 0) then 250 * Millisecond
    else MinDelayPerServer o in
  let retries := if decide (Retries o = 0) then 2 else Retries o in
  let retries := if decide (retries < 0) then 0 else retries in
  let backoff := if decide (Backoff o <= 0) then 250 * Millisecond else Backoff o in
  {| opts := {| Timeout := timeout; Verbose := Verbose o;
                MaxConcurrentPerServer := maxConc; MinDelayPerServer := minDelay;
                Retries := retries; Backoff := backoff |};
     tldToServer := ∅;
     serverState := ∅ |}.

Definition stateForServer (c : Client) (server : string) : perServerState * Client :=
  match serverState c !! server with
  | Some st => (st, c)
  | None =>
      let st := {| semCap := MaxConcurrentPerServer (opts c); next := zeroTime |} in
      (st, {| opts := opts c; tldToServer := tldToServer c;
              serverState := <[server := st]> (serverState c) |})
  end.

(** The critical section of [queryOnce] under [st.mu]: the slot reserved
    for a request that reads the clock at [now]. *)
Definition reserve (minDelay now : Z) (st : perServerState) : Z * perServerState :=
  let scheduled := if decide (now < next st) then next st else now in
  (scheduled, {| semCap := semCap st; next := scheduled + minDelay |}).

(** What the environment does to one call of [queryOnce]. *)
Record attempt := {
  ctxDoneAtSem : option string;  (* [ctx.Done()] wins the [select] *)
  now : Z;                       (* [time.Now()] under the lock *)
  sleepErr : option string;      (* [sleepUntil] is cancelled *)
  netResult : string + string    (* dial, write and read: body or error *)
}.

(** [queryOnce], with the slot it reserved, if it came to reserve one. *)
Definition queryOnce (c : Client) (server : string) (a : attempt)
  : (string + string) * option Z * Client :=
  let '(st, c) := stateForServer c server in
  match ctxDoneAtSem a with
  | Some err => (inr err, None, c)
  | None =>
      if decide (MinDelayPerServer (opts c) > 0) then
        let '(scheduled, st') := reserve (MinDelayPerServer (opts c)) (now a) st in
        let c' := {| opts := opts c; tldToServer := tldToServer c;
                     serverState := <[server := st']> (serverState c) |} in
        match sleepErr a with
        | Some err => (inr err, Some scheduled, c')
        | None => (netResult a, Some scheduled, c')
        end
      else (netResult a, None, c)
  end.

(** Successive calls of [queryOnce], each for its server, in the order
    in which they take the locks; the result lists each call's server
    and slot. *)
Fixpoint queryMany (c : Client) (calls : list (string * attempt))
  : list (string * option Z) * Client :=
  match calls with
  | [] => ([], c)
  | (server, a) :: rest =>
      let '(_, slot, c1) := queryOnce c server a in
      let '(slots, c2) := queryMany c1 rest in
      ((server, slot) :: slots, c2)
  end.

(** The [next] instant that a call for [server] finds: that of the state
    on record, or of the fresh state that [stateForServer] makes. *)
Definition nextOf (c : Client) (server : string) : Z :=
  next (stateForServer c server).1.

(** The slots that a run of calls reserved for [server], in order. *)
Definition reserved (server : string) (slots : list (string * option Z)) : list Z :=
  omap (λ p, if decide (p.1 = server) then p.2 else None) slots.

Definition notFoundPatterns : list (string * string) :=
  [ ("no match for", "no_match_for");
    ("no data found", "no_data_found");
    ("no entries found", "no_entries_found");
    ("domain not found", "domain_not_found");
    ("no such domain", "no_such_domain");
    ("status: free", "status_free");
    ("not found", "not_found") ].

Section WithLib.
Context `{GoLib}.

(** The sources of the three expressions that [classify] compiles. *)
Definition recordPatterns (domain : string) : list string :=
  let escaped := Regexp.QuoteMeta domain in
  [ "(?im)^domain name:\s*" +:+ escaped +:+ "\s*$";
    "(?im)^domain:\s*" +:+ escaped +:+ "\s*$";
    "(?im)^domain\s*:\s*" +:+ escaped +:+ "\s*$" ].

Fixpoint firstNeedle (l : string) (ps : list (string * string)) : option string :=
  match ps with
  | [] => None
  | (needle, pattern) :: rest =>
      if Contains l needle then Some pattern else firstNeedle l rest
  end.

Fixpoint firstMatch (body : string) (res : list string) : option string :=
  match res with
  | [] => None
  | re :: rest => if regexp_match re body then Some re else firstMatch body rest
  end.

Definition classify (domain body : string) : string * string :=
  let l := ToLower body in
  match firstNeedle l notFoundPatterns with
  | Some pattern => ("available", pattern)
  | None =>
      match firstMatch body (recordPatterns domain) with
      | Some re => ("taken", re)
      | None =>
          if Contains l "domain name:" || Contains l "registrar:"
          then ("taken", "heuristic_record_fields")
          else ("unknown", EmptyString)
      end
  end.

Definition lastLabel (domain : string) : string :=
  match LastIndexByte domain "." with
  | None => EmptyString
  | Some i => if decide (i = (len domain - 1)%nat) then EmptyString
              else dropS (i + 1) domain
  end.

(** The loop of [serverForTLD] over the scanned lines; [None] when the
    loop ends without returning. *)
Fixpoint scanServer (lines : list string) : option (outcome string) :=
  match lines with
  | [] => None
  | text :: rest =>
      let line := TrimSpace text in
      if decide (line = EmptyString) then scanServer rest
      else if HasPrefix (ToLower line) "whois:" then
        if (len line <? 6)%nat then Some (Panic "slice bounds out of range")
        else
          let server := TrimSpace (dropS 6 line) in
          match Fields server with
          | [] => Some (Panic "index out of range [0] with length 0")
          | server :: _ =>
              if decide (server = EmptyString) then scanServer rest
              else Some (Ret server)
          end
      else scanServer rest
  end.

(** [serverForTLD]; [query] is the outcome of [c.query] for a server and
    a query string. *)
Definition serverForTLD (query : string → string → string + string)
    (c : Client) (tld : string) : outcome string * Client :=
  let tld := ToLower (TrimSpace tld) in
  if decide (tld = EmptyString) then (Fail "empty tld", c)
  else
    let cached :=
      match tldToServer c !! tld with
      | Some s => if decide (s = EmptyString) then None else Some s
      | None => None
      end in
    match cached with
    | Some s => (Ret s, c)
    | None =>
        match query "whois.iana.org" tld with
        | inr err => (Fail err, c)
        | inl body =>
            let '(lines, scanErr) := Bufio.ScanLines body in
            match scanServer lines with
            | Some (Ret server) =>
                (Ret server,
                 {| opts := opts c; tldToServer := <[tld := server]> (tldToServer c);
                    serverState := serverState c |})
            | Some other => (other, c)
            | None =>
                match scanErr with
                | Some err => (Fail err, c)
                | None =>
                    (Fail ("whois server not found for tld " +:+ strconv_quote tld), c)
                end
            end
        end
    end.

Definition unknownEvidence (reason server : string) (err : option string) : Evidence :=
  {| Status := "unknown"; Confidence := "low"; Reason := reason;
     Server := server; Pattern := EmptyString; Err := err |}.

Definition LookupDomain (query : string → string → string + string)
    (c : Client) (domain : string) : outcome Evidence * Client :=
  let tld := lastLabel domain in
  if decide (tld = EmptyString) then
    (Ret (unknownEvidence "invalid domain" EmptyString (Some "invalid domain")), c)
  else
    match serverForTLD query c tld with
    | (Panic msg, c) => (Panic msg, c)
    | (Fail err, c) => (Ret (unknownEvidence "no whois server" EmptyString (Some err)), c)
    | (Ret server, c) =>
        match query server domain with
        | inr err => (Ret (unknownEvidence "whois query failed" server (Some err)), c)
        | inl body =>
            let '(status, pattern) := classify domain body in
            if decide (status = "available") then
              (Ret {| Status := "available"; Confidence := "medium";
                      Reason := "whois not-found pattern"; Server := server;
                      Pattern := pattern; Err := None |}, c)
            else if decide (status = "taken") then
              (Ret {| Status := "taken"; Confidence := "medium";
                      Reason := "whois record found"; Server := server;
                      Pattern := pattern; Err := None |}, c)
            else (Ret (unknownEvidence "whois ambiguous" server None), c)
        end
    end.

End WithLib.
End Whois.

(** ** Package [net/url]: [PathEscape]; package [fmt]: the verb [%d] *)
Module Fmt.
Import Strings.

(** [fmt.Sprintf("%d", n)]. *)
Definition itoa (n : Z) : string :=
  DecimalString.NilZero.string_of_int (Z.to_int n).

Definition hexDigit (n : N) : ascii :=
  if (n <? 10)%N then ascii_of_N (48 + n) else ascii_of_N (55 + n).

(** [shouldEscape(c, encodePathSegment)]. *)
Definition shouldEscape (c : ascii) : bool :=
  if isLowerAlpha c || isUpper c || isDigit c then false
  else if hasByte c "-_.~" then false
  else if hasByte c "$&+:=@" then false
  else true.

Fixpoint PathEscape (s : string) : string :=
  match s with
  | EmptyString => EmptyString
  | String c r =>
      if shouldEscape c then
        String "%" (String (hexDigit (code c / 16)) (String (hexDigit (code c mod 16))
          (PathEscape r)))
      else String c (PathEscape r)
  end.

End Fmt.

(** ** Package [internal/rdap] *)
Module Rdap.
Import Strings.
Local Open Scope Z_scope.

Record Evidence := {
  Status : string;
  Confidence : string;
  Reason : string;
  URL : string;
  HTTPStatus : Z;
  Err : option string
}.

(** The bootstrap registry: lowercase TLD to candidate base URLs. *)
Record bootstrap := { tldToURLs : gmap string (list string) }.

(** What one HTTP exchange of [lookupOne] comes to. *)
Inductive exchange :=
  | RequestError (err : string)    (* [http.NewRequestWithContext] fails *)
  | TransportError (err : string)  (* [c.http.Do] fails *)
  | Response (statusCode : Z).     (* a response with this status code *)

Definition lastLabel (domain : string) : string :=
  match LastIndexByte domain "." with
  | None => EmptyString
  | Some i => if decide (i = (len domain - 1)%nat) then EmptyString
              else dropS (i + 1) domain
  end.

(** The URL that [lookupOne] requests. *)
Definition requestURL (base domain : string) : string :=
  TrimRightByte base "/" +:+ "/domain/" +:+ Fmt.PathEscape domain.

Section WithWorld.
Context `{GoLib}.
(** The state of the world outside the process, and the two effects of
    the client on it: an HTTP GET of a URL, and [getBootstrap]. *)
Context {World : Type}.
Context (httpGet : string → World → exchange * World).
Context (getBootstrap : World → (bootstrap + string) * World).

Definition urlsForTLD (b : bootstrap) (tld : string) : list string :=
  default [] (tldToURLs b !! ToLower tld).

Definition lookupOne (base domain : string) (w : World) : Evidence * World :=
  let rdapURL := requestURL base domain in
  match httpGet rdapURL w with
  | (RequestError err, w) =>
      ({| Status := "unknown"; Confidence := "low"; Reason := "bad request";
          URL := rdapURL; HTTPStatus := 0; Err := Some err |}, w)
  | (TransportError err, w) =>
      ({| Status := "unknown"; Confidence := "low"; Reason := "network error";
          URL := rdapURL; HTTPStatus := 0; Err := Some err |}, w)
  | (Response code, w) =>
      if decide (code = 200) then
        ({| Status := "taken"; Confidence := "high"; Reason := "rdap 200";
            URL := rdapURL; HTTPStatus := code; Err := None |}, w)
      else if decide (code = 404) then
        ({| Status := "available"; Confidence := "high"; Reason := "rdap 404";
            URL := rdapURL; HTTPStatus := code; Err := None |}, w)
      else
        ({| Status := "unknown"; Confidence := "low";
            Reason := "rdap http " +:+ Fmt.itoa code;
            URL := rdapURL; HTTPStatus := code;
            Err := Some ("rdap http " +:+ Fmt.itoa code) |}, w)
  end.

(** The loop of [LookupDomain] over the candidate base URLs. *)
Fixpoint tryURLs (urls : list string) (domain : string) (lastErr : option string)
    (w : World) : Evidence * World :=
  match urls with
  | [] =>
      ({| Status := "unknown"; Confidence := "low"; Reason := "rdap lookup failed";
          URL := EmptyString; HTTPStatus := 0; Err := lastErr |}, w)
  | base :: rest =>
      let '(ev, w) := lookupOne base domain w in
      if decide (Status ev ≠ "unknown") then (ev, w)
      else
        let lastErr := match Err ev with Some e => Some e | None => lastErr end in
        tryURLs rest domain lastErr w
  end.

(** The evidence of every candidate and the world after it, were all of
    them tried in order. *)
Fixpoint lookupAll (urls : list string) (domain : string) (w : World)
  : list (Evidence * World) :=
  match urls with
  | [] => []
  | base :: rest =>
      let '(ev, w1) := lookupOne base domain w in
      (ev, w1) :: lookupAll rest domain w1
  end.

Definition LookupDomain (domain : string) (w : World) : Evidence * World :=
  let tld := lastLabel domain in
  if decide (tld = EmptyString) then
    ({| Status := "unknown"; Confidence := "low"; Reason := "invalid domain";
        URL := EmptyString; HTTPStatus := 0; Err := Some "invalid domain" |}, w)
  else
    match getBootstrap w with
    | (inr err, w) =>
        ({| Status := "unknown"; Confidence := "low";
            Reason := "rdap bootstrap unavailable";
            URL := EmptyString; HTTPStatus := 0; Err := Some err |}, w)
    | (inl bs, w) =>
        let urls := urlsForTLD bs tld in
        if decide (length urls = 0%nat) then
          ({| Status := "unknown"; Confidence := "low";
              Reason := "no rdap service for tld";
              URL := EmptyString; HTTPStatus := 0; Err := None |}, w)
        else tryURLs urls domain None w
    end.

End WithWorld.
End Rdap.

(** ** Package [time]: instants, [Since] and the layout [RFC3339Nano] *)
Module GoTime.
Import Strings.
Local Open Scope Z_scope.

(** A [time.Time] as [time.Now] returns it: the wall clock, in seconds
    since 1970-01-01 UTC and nanoseconds within the second, and the
    reading of the monotonic clock in nanoseconds. *)
Record Time := {
  unixSec : Z;
  nsec : Z;
  mono : Z
}.

(** [time.Since(start)], the monotonic clock reading [nowMono] when it is
    called, and [Duration.Milliseconds]. *)
Definition Since (start : Time) (nowMono : Z) : Z := nowMono - mono start.
Definition Milliseconds (d : Z) : Z := d ÷ 1000000.

Definition isLeap (year : Z) : bool :=
  (year mod 4 =? 0) && (negb (year mod 100 =? 0) || (year mod 400 =? 0)).

Definition daysBefore : list Z :=
  [0; 31; 59; 90; 120; 151; 181; 212; 243; 273; 304; 334; 365].

Definition daysBeforeAt (m : Z) : Z := nth (Z.to_nat m) daysBefore 0.

(** Month and day of the month of the day [yday] (from 0) of [year]. *)
Definition monthDay (year yday : Z) : Z * Z :=
  let leap := isLeap year in
  if leap && (yday =? 31 + 29 - 1) then (2, 29)
  else
    let day := if leap && (31 + 29 - 1 <? yday) then yday - 1 else yday in
    let month := day / 31 in
    let end_ := daysBeforeAt (month + 1) in
    if end_ <=? day then (month + 2, day - end_ + 1)
    else (month + 1, day - daysBeforeAt month + 1).

(** Year and day of the year of the day [days] after 0001-01-01, by
    cutting off cycles of 400, 100, 4 and 1 years. *)
Definition yearDay (days : Z) : Z * Z :=
  let n := days / 146097 in
  let y := 400 * n in
  let d := days - 146097 * n in
  let n := d / 36524 in
  let n := n - n / 4 in
  let y := y + 100 * n in
  let d := d - 36524 * n in
  let n := d / 1461 in
  let y := y + 4 * n in
  let d := d - 1461 * n in
  let n := d / 365 in
  let n := n - n / 4 in
  let y := y + n in
  let d := d - 365 * n in
  (y + 1, d).

(** Days from 0001-01-01 to 1970-01-01. *)
Definition unixEpochDay : Z := 719162.

Definition Date (t : Time) : Z * Z * Z :=
  let '(year, yday) := yearDay (unixSec t / 86400 + unixEpochDay) in
  let '(month, day) := monthDay year yday in
  (year, month, day).

Definition Year (t : Time) : Z := fst (fst (Date t)).

Definition Clock (t : Time) : Z * Z * Z :=
  let s := unixSec t mod 86400 in
  (s / 3600, s mod 3600 / 60, s mod 60).

Definition digit (d : Z) : ascii := ascii_of_N (48 + Z.to_N d).

(** The last [width] decimal digits of [x]. *)
Fixpoint fixedDigits (width : nat) (x : Z) : string :=
  match width with
  | O => EmptyString
  | S w => fixedDigits w (x / 10) +:+ String (digit (x mod 10)) EmptyString
  end.

(** [appendInt(b, x, width)]: zero-padded to [width] digits. *)
Definition appendInt (x : Z) (width : nat) : string :=
  let u := Z.abs x in
  let digits :=
    if u <? 10 ^ Z.of_nat width then fixedDigits width u else Fmt.itoa u in
  if x <? 0 then String "-" digits else digits.

(** [appendNano] for [.999999999]: nothing for zero, else the dot and
    nine digits, trailing zeros cut, then a trailing dot cut. *)
Definition appendNano (nanosec : Z) : string :=
  if nanosec =? 0 then EmptyString
  else TrimSuffix (TrimRightByte (String "." (appendInt nanosec 9)) "0") ".".

(** [t.UTC().Format(time.RFC3339Nano)]. *)
Definition FormatRFC3339NanoUTC (t : Time) : string :=
  let '(year, month, day) := Date t in
  let '(hour, min, sec) := Clock t in
  appendInt year 4 +:+ "-" +:+ appendInt month 2 +:+ "-" +:+ appendInt day 2
  +:+ "T" +:+ appendInt hour 2 +:+ ":" +:+ appendInt min 2 +:+ ":"
  +:+ appendInt sec 2 +:+ appendNano (nsec t) +:+ "Z".

(** *** Timestamps of RFC 3339 in UTC with up to nine fraction digits *)

Definition digitValue (c : ascii) : Z := Z.of_N (code c) - 48.

Fixpoint digitsValue (acc : Z) (s : string) : Z :=
  match s with
  | EmptyString => acc
  | String c r => digitsValue (10 * acc + digitValue c) r
  end.

(** The number that [s] spells with exactly [width] digits. *)
Definition fixedNum (width : nat) (s : string) : option Z :=
  if decide (len s = width) then
    if allBytes isDigit s then Some (digitsValue 0 s) else None
  else None.

Definition daysIn (year month : Z) : Z :=
  if month =? 2 then (if isLeap year then 29 else 28)
  else daysBeforeAt month - daysBeforeAt (month - 1).

(** Month and day of the month are those of a calendar day. *)
Definition validMonthDay (year yday : Z) : bool :=
  let '(m, d) := monthDay year yday in
  (1 <=? m) && (m <=? 12) && (1 <=? d) && (d <=? daysIn year m).

Definition isFractionZ (rest : string) : bool :=
  if decide (rest = "Z") then true
  else
    HasPrefix rest "." && HasSuffix rest "Z" &&
    (let ds := takeS (len rest - 2) (dropS 1 rest) in
     (1 <=? len ds)%nat && (len ds <=? 9)%nat && allBytes isDigit ds).

Definition isRFC3339NanoUTC (s : string) : bool :=
  match fixedNum 4 (takeS 4 s), fixedNum 2 (takeS 2 (dropS 5 s)),
        fixedNum 2 (takeS 2 (dropS 8 s)), fixedNum 2 (takeS 2 (dropS 11 s)),
        fixedNum 2 (takeS 2 (dropS 14 s)), fixedNum 2 (takeS 2 (dropS 17 s)) with
  | Some year, Some month, Some day, Some hour, Some min, Some sec =>
      bool_decide (takeS 1 (dropS 4 s) = "-") &&
      bool_decide (takeS 1 (dropS 7 s) = "-") &&
      bool_decide (takeS 1 (dropS 10 s) = "T") &&
      bool_decide (takeS 1 (dropS 13 s) = ":") &&
      bool_decide (takeS 1 (dropS 16 s) = ":") &&
      (1 <=? month) && (month <=? 12) &&
      (1 <=? day) && (day <=? daysIn year month) &&
      (hour <=? 23) && (min <=? 59) && (sec <=? 59) &&
      isFractionZ (dropS 19 s)
  | _, _, _, _, _, _ => false
  end.

End GoTime.

(** ** Package [internal/registrar]: rate-limit report *)
Module Registrar.
Record Limits := {
  TTLSeconds : Z;
  Limit : Z;
  Used : Z;
  NaturalLanguage : string
}.
End Registrar.

(** ** Package [internal/availability] *)
Module Availability.
Import Strings.
Local Open Scope Z_scope.

Definition StatusAvailable : string := "available".
Definition StatusTaken : string := "taken".
Definition StatusUnknown : string := "unknown".

Definition MethodRDAP : string := "rdap".
Definition MethodWHOIS : string := "whois".
Definition MethodNone : string := "none".

(** [Registered], [Buyable], [Premium] and [FirstYearPromo] are [*bool]
    in the source: [None] is the nil pointer. *)
Record Result := {
  Input : string;
  Phrase : string;
  Score : Z;
  Domain : string;
  Label : string;
  TLD : string;
  Status : string;
  Registered : option bool;
  Method : string;
  Confidence : string;
  Detail : string;
  Error : string;
  CheckedAt : string;
  DurationMs : Z;
  RDAPStatus : string;
  RDAPReason : string;
  RDAPError : string;
  RDAPURL : string;
  RDAPCode : Z;
  WHOISStatus : string;
  WHOISReason : string;
  WHOISError : string;
  WHOISServer : string;
  WHOISPattern : string;
  Registrar : string;
  Buyable : option bool;
  Premium : option bool;
  Price : string;
  RegularPrice : string;
  Currency : string;
  MinDuration : Z;
  FirstYearPromo : option bool;
  RegistrarLimits : option Registrar.Limits;
  RegistrarError : string
}.

(** The zero value of the struct. *)
Definition zeroResult : Result :=
  {|Input := EmptyString; Phrase := EmptyString; Score := 0;
     Domain := EmptyString; Label := EmptyString; TLD := EmptyString;
     Status := EmptyString; Registered := None; Method := EmptyString;
     Confidence := EmptyString; Detail := EmptyString; Error := EmptyString;
     CheckedAt := EmptyString; DurationMs := 0; RDAPStatus := EmptyString;
     RDAPReason := EmptyString; RDAPError := EmptyString;
     RDAPURL := EmptyString; RDAPCode := 0; WHOISStatus := EmptyString;
     WHOISReason := EmptyString; WHOISError := EmptyString;
     WHOISServer := EmptyString; WHOISPattern := EmptyString;
     Registrar := EmptyString; Buyable := None; Premium := None;
     Price := EmptyString; RegularPrice := EmptyString;
     Currency := EmptyString; MinDuration := 0; FirstYearPromo := None;
     RegistrarLimits := None; RegistrarError := EmptyString |}.

(** Assignments to one field, [r.F = v]. *)
Definition setInput (v : string) (r : Result) : Result :=
  {| Input := v; Phrase := Phrase r; Score := Score r; Domain := Domain r;
     Label := Label r; TLD := TLD r; Status := Status r;
     Registered := Registered r; Method := Method r;
     Confidence := Confidence r; Detail := Detail r; Error := Error r;
     CheckedAt := CheckedAt r; DurationMs := DurationMs r;
     RDAPStatus := RDAPStatus r; RDAPReason := RDAPReason r;
     RDAPError := RDAPError r; RDAPURL := RDAPURL r; RDAPCode := RDAPCode r;
     WHOISStatus := WHOISStatus r; WHOISReason := WHOISReason r;
     WHOISError := WHOISError r; WHOISServer := WHOISServer r;
     WHOISPattern := WHOISPattern r; Registrar := Registrar r;
     Buyable := Buyable r; Premium := Premium r; Price := Price r;
     RegularPrice := RegularPrice r; Currency := Currency r;
     MinDuration := MinDuration r; FirstYearPromo := FirstYearPromo r;
     RegistrarLimits := RegistrarLimits r;
     RegistrarError := RegistrarError r |}.
Definition setDomain (v : string) (r : Result) : Result :=
  {| Input := Input r; Phrase := Phrase r; Score := Score r; Domain := v;
     Label := Label r; TLD := TLD r; Status := Status r;
     Registered := Registered r; Method := Method r;
     Confidence := Confidence r; Detail := Detail r; Error := Error r;
     CheckedAt := CheckedAt r; DurationMs := DurationMs r;
     RDAPStatus := RDAPStatus r; RDAPReason := RDAPReason r;
     RDAPError := RDAPError r; RDAPURL := RDAPURL r; RDAPCode := RDAPCode r;
     WHOISStatus := WHOISStatus r; WHOISReason := WHOISReason r;
     WHOISError := WHOISError r; WHOISServer := WHOISServer r;
     WHOISPattern := WHOISPattern r; Registrar := Registrar r;
     Buyable := Buyable r; Premium := Premium r; Price := Price r;
     RegularPrice := RegularPrice r; Currency := Currency r;
     MinDuration := MinDuration r; FirstYearPromo := FirstYearPromo r;
     RegistrarLimits := RegistrarLimits r;
     RegistrarError := RegistrarError r |}.
Definition setLabel (v : string) (r : Result) : Result :=
  {| Input := Input r; Phrase := Phrase r; Score := Score r;
     Domain := Domain r; Label := v; TLD := TLD r; Status := Status r;
     Registered := Registered r; Method := Method r;
     Confidence := Confidence r; Detail := Detail r; Error := Error r;
     CheckedAt := CheckedAt r; DurationMs := DurationMs r;
     RDAPStatus := RDAPStatus r; RDAPReason := RDAPReason r;
     RDAPError := RDAPError r; RDAPURL := RDAPURL r; RDAPCode := RDAPCode r;
     WHOISStatus := WHOISStatus r; WHOISReason := WHOISReason r;
     WHOISError := WHOISError r; WHOISServer := WHOISServer r;
     WHOISPattern := WHOISPattern r; Registrar := Registrar r;
     Buyable := Buyable r; Premium := Premium r; Price := Price r;
     RegularPrice := RegularPrice r; Currency := Currency r;
     MinDuration := MinDuration r; FirstYearPromo := FirstYearPromo r;
     RegistrarLimits := RegistrarLimits r;
     RegistrarError := RegistrarError r |}.
Definition setTLD (v : string) (r : Result) : Result :=
  {| Input := Input r; Phrase := Phrase r; Score := Score r;
     Domain := Domain r; Label := Label r; TLD := v; Status := Status r;
     Registered := Registered r; Method := Method r;
     Confidence := Confidence r; Detail := Detail r; Error := Error r;
     CheckedAt := CheckedAt r; DurationMs := DurationMs r;
     RDAPStatus := RDAPStatus r; RDAPReason := RDAPReason r;
     RDAPError := RDAPError r; RDAPURL := RDAPURL r; RDAPCode := RDAPCode r;
     WHOISStatus := WHOISStatus r; WHOISReason := WHOISReason r;
     WHOISError := WHOISError r; WHOISServer := WHOISServer r;
     WHOISPattern := WHOISPattern r; Registrar := Registrar r;
     Buyable := Buyable r; Premium := Premium r; Price := Price r;
     RegularPrice := RegularPrice r; Currency := Currency r;
     MinDuration := MinDuration r; FirstYearPromo := FirstYearPromo r;
     RegistrarLimits := RegistrarLimits r;
     RegistrarError := RegistrarError r |}.
Definition setStatus (v : string) (r : Result) : Result :=
  {| Input := Input r; Phrase := Phrase r; Score := Score r;
     Domain := Domain r; Label := Label r; TLD := TLD r; Status := v;
     Registered := Registered r; Method := Method r;
     Confidence := Confidence r; Detail := Detail r; Error := Error r;
     CheckedAt := CheckedAt r; DurationMs := DurationMs r;
     RDAPStatus := RDAPStatus r; RDAPReason := RDAPReason r;
     RDAPError := RDAPError r; RDAPURL := RDAPURL r; RDAPCode := RDAPCode r;
     WHOISStatus := WHOISStatus r; WHOISReason := WHOISReason r;
     WHOISError := WHOISError r; WHOISServer := WHOISServer r;
     WHOISPattern := WHOISPattern r; Registrar := Registrar r;
     Buyable := Buyable r; Premium := Premium r; Price := Price r;
     RegularPrice := RegularPrice r; Currency := Currency r;
     MinDuration := MinDuration r; FirstYearPromo := FirstYearPromo r;
     RegistrarLimits := RegistrarLimits r;
     RegistrarError := RegistrarError r |}.
Definition setRegistered (v : option bool) (r : Result) : Result :=
  {| Input := Input r; Phrase := Phrase r; Score := Score r;
     Domain := Domain r; Label := Label r; TLD := TLD r; Status := Status r;
     Registered := v; Method := Method r; Confidence := Confidence r;
     Detail := Detail r; Error := Error r; CheckedAt := CheckedAt r;
     DurationMs := DurationMs r; RDAPStatus := RDAPStatus r;
     RDAPReason := RDAPReason r; RDAPError := RDAPError r;
     RDAPURL := RDAPURL r; RDAPCode := RDAPCode r;
     WHOISStatus := WHOISStatus r; WHOISReason := WHOISReason r;
     WHOISError := WHOISError r; WHOISServer := WHOISServer r;
     WHOISPattern := WHOISPattern r; Registrar := Registrar r;
     Buyable := Buyable r; Premium := Premium r; Price := Price r;
     RegularPrice := RegularPrice r; Currency := Currency r;
     MinDuration := MinDuration r; FirstYearPromo := FirstYearPromo r;
     RegistrarLimits := RegistrarLimits r;
     RegistrarError := RegistrarError r |}.
Definition setMethod (v : string) (r : Result) : Result :=
  {| Input := Input r; Phrase := Phrase r; Score := Score r;
     Domain := Domain r; Label := Label r; TLD := TLD r; Status := Status r;
     Registered := Registered r; Method := v; Confidence := Confidence r;
     Detail := Detail r; Error := Error r; CheckedAt := CheckedAt r;
     DurationMs := DurationMs r; RDAPStatus := RDAPStatus r;
     RDAPReason := RDAPReason r; RDAPError := RDAPError r;
     RDAPURL := RDAPURL r; RDAPCode := RDAPCode r;
     WHOISStatus := WHOISStatus r; WHOISReason := WHOISReason r;
     WHOISError := WHOISError r; WHOISServer := WHOISServer r;
     WHOISPattern := WHOISPattern r; Registrar := Registrar r;
     Buyable := Buyable r; Premium := Premium r; Price := Price r;
     RegularPrice := RegularPrice r; Currency := Currency r;
     MinDuration := MinDuration r; FirstYearPromo := FirstYearPromo r;
     RegistrarLimits := RegistrarLimits r;
     RegistrarError := RegistrarError r |}.
Definition setConfidence (v : string) (r : Result) : Result :=
  {| Input := Input r; Phrase := Phrase r; Score := Score r;
     Domain := Domain r; Label := Label r; TLD := TLD r; Status := Status r;
     Registered := Registered r; Method := Method r; Confidence := v;
     Detail := Detail r; Error := Error r; CheckedAt := CheckedAt r;
     DurationMs := DurationMs r; RDAPStatus := RDAPStatus r;
     RDAPReason := RDAPReason r; RDAPError := RDAPError r;
     RDAPURL := RDAPURL r; RDAPCode := RDAPCode r;
     WHOISStatus := WHOISStatus r; WHOISReason := WHOISReason r;
     WHOISError := WHOISError r; WHOISServer := WHOISServer r;
     WHOISPattern := WHOISPattern r; Registrar := Registrar r;
     Buyable := Buyable r; Premium := Premium r; Price := Price r;
     RegularPrice := RegularPrice r; Currency := Currency r;
     MinDuration := MinDuration r; FirstYearPromo := FirstYearPromo r;
     RegistrarLimits := RegistrarLimits r;
     RegistrarError := RegistrarError r |}.
Definition setDetail (v : string) (r : Result) : Result :=
  {| Input := Input r; Phrase := Phrase r; Score := Score r;
     Domain := Domain r; Label := Label r; TLD := TLD r; Status := Status r;
     Registered := Registered r; Method := Method r;
     Confidence := Confidence r; Detail := v; Error := Error r;
     CheckedAt := CheckedAt r; DurationMs := DurationMs r;
     RDAPStatus := RDAPStatus r; RDAPReason := RDAPReason r;
     RDAPError := RDAPError r; RDAPURL := RDAPURL r; RDAPCode := RDAPCode r;
     WHOISStatus := WHOISStatus r; WHOISReason := WHOISReason r;
     WHOISError := WHOISError r; WHOISServer := WHOISServer r;
     WHOISPattern := WHOISPattern r; Registrar := Registrar r;
     Buyable := Buyable r; Premium := Premium r; Price := Price r;
     RegularPrice := RegularPrice r; Currency := Currency r;
     MinDuration := MinDuration r; FirstYearPromo := FirstYearPromo r;
     RegistrarLimits := RegistrarLimits r;
     RegistrarError := RegistrarError r |}.
Definition setError (v : string) (r : Result) : Result :=
  {| Input := Input r; Phrase := Phrase r; Score := Score r;
     Domain := Domain r; Label := Label r; TLD := TLD r; Status := Status r;
     Registered := Registered r; Method := Method r;
     Confidence := Confidence r; Detail := Detail r; Error := v;
     CheckedAt := CheckedAt r; DurationMs := DurationMs r;
     RDAPStatus := RDAPStatus r; RDAPReason := RDAPReason r;
     RDAPError := RDAPError r; RDAPURL := RDAPURL r; RDAPCode := RDAPCode r;
     WHOISStatus := WHOISStatus r; WHOISReason := WHOISReason r;
     WHOISError := WHOISError r; WHOISServer := WHOISServer r;
     WHOISPattern := WHOISPattern r; Registrar := Registrar r;
     Buyable := Buyable r; Premium := Premium r; Price := Price r;
     RegularPrice := RegularPrice r; Currency := Currency r;
     MinDuration := MinDuration r; FirstYearPromo := FirstYearPromo r;
     RegistrarLimits := RegistrarLimits r;
     RegistrarError := RegistrarError r |}.
Definition setCheckedAt (v : string) (r : Result) : Result :=
  {| Input := Input r; Phrase := Phrase r; Score := Score r;
     Domain := Domain r; Label := Label r; TLD := TLD r; Status := Status r;
     Registered := Registered r; Method := Method r;
     Confidence := Confidence r; Detail := Detail r; Error := Error r;
     CheckedAt := v; DurationMs := DurationMs r; RDAPStatus := RDAPStatus r;
     RDAPReason := RDAPReason r; RDAPError := RDAPError r;
     RDAPURL := RDAPURL r; RDAPCode := RDAPCode r;
     WHOISStatus := WHOISStatus r; WHOISReason := WHOISReason r;
     WHOISError := WHOISError r; WHOISServer := WHOISServer r;
     WHOISPattern := WHOISPattern r; Registrar := Registrar r;
     Buyable := Buyable r; Premium := Premium r; Price := Price r;
     RegularPrice := RegularPrice r; Currency := Currency r;
     MinDuration := MinDuration r; FirstYearPromo := FirstYearPromo r;
     RegistrarLimits := RegistrarLimits r;
     RegistrarError := RegistrarError r |}.
Definition setDurationMs (v : Z) (r : Result) : Result :=
  {| Input := Input r; Phrase := Phrase r; Score := Score r;
     Domain := Domain r; Label := Label r; TLD := TLD r; Status := Status r;
     Registered := Registered r; Method := Method r;
     Confidence := Confidence r; Detail := Detail r; Error := Error r;
     CheckedAt := CheckedAt r; DurationMs := v; RDAPStatus := RDAPStatus r;
     RDAPReason := RDAPReason r; RDAPError := RDAPError r;
     RDAPURL := RDAPURL r; RDAPCode := RDAPCode r;
     WHOISStatus := WHOISStatus r; WHOISReason := WHOISReason r;
     WHOISError := WHOISError r; WHOISServer := WHOISServer r;
     WHOISPattern := WHOISPattern r; Registrar := Registrar r;
     Buyable := Buyable r; Premium := Premium r; Price := Price r;
     RegularPrice := RegularPrice r; Currency := Currency r;
     MinDuration := MinDuration r; FirstYearPromo := FirstYearPromo r;
     RegistrarLimits := RegistrarLimits r;
     RegistrarError := RegistrarError r |}.
Definition setRDAPStatus (v : string) (r : Result) : Result :=
  {| Input := Input r; Phrase := Phrase r; Score := Score r;
     Domain := Domain r; Label := Label r; TLD := TLD r; Status := Status r;
     Registered := Registered r; Method := Method r;
     Confidence := Confidence r; Detail := Detail r; Error := Error r;
     CheckedAt := CheckedAt r; DurationMs := DurationMs r; RDAPStatus := v;
     RDAPReason := RDAPReason r; RDAPError := RDAPError r;
     RDAPURL := RDAPURL r; RDAPCode := RDAPCode r;
     WHOISStatus := WHOISStatus r; WHOISReason := WHOISReason r;
     WHOISError := WHOISError r; WHOISServer := WHOISServer r;
     WHOISPattern := WHOISPattern r; Registrar := Registrar r;
     Buyable := Buyable r; Premium := Premium r; Price := Price r;
     RegularPrice := RegularPrice r; Currency := Currency r;
     MinDuration := MinDuration r; FirstYearPromo := FirstYearPromo r;
     RegistrarLimits := RegistrarLimits r;
     RegistrarError := RegistrarError r |}.
Definition setRDAPReason (v : string) (r : Result) : Result :=
  {| Input := Input r; Phrase := Phrase r; Score := Score r;
     Domain := Domain r; Label := Label r; TLD := TLD r; Status := Status r;
     Registered := Registered r; Method := Method r;
     Confidence := Confidence r; Detail := Detail r; Error := Error r;
     CheckedAt := CheckedAt r; DurationMs := DurationMs r;
     RDAPStatus := RDAPStatus r; RDAPReason := v; RDAPError := RDAPError r;
     RDAPURL := RDAPURL r; RDAPCode := RDAPCode r;
     WHOISStatus := WHOISStatus r; WHOISReason := WHOISReason r;
     WHOISError := WHOISError r; WHOISServer := WHOISServer r;
     WHOISPattern := WHOISPattern r; Registrar := Registrar r;
     Buyable := Buyable r; Premium := Premium r; Price := Price r;
     RegularPrice := RegularPrice r; Currency := Currency r;
     MinDuration := MinDuration r; FirstYearPromo := FirstYearPromo r;
     RegistrarLimits := RegistrarLimits r;
     RegistrarError := RegistrarError r |}.
Definition setRDAPError (v : string) (r : Result) : Result :=
  {| Input := Input r; Phrase := Phrase r; Score := Score r;
     Domain := Domain r; Label := Label r; TLD := TLD r; Status := Status r;
     Registered := Registered r; Method := Method r;
     Confidence := Confidence r; Detail := Detail r; Error := Error r;
     CheckedAt := CheckedAt r; DurationMs := DurationMs r;
     RDAPStatus := RDAPStatus r; RDAPReason := RDAPReason r; RDAPError := v;
     RDAPURL := RDAPURL r; RDAPCode := RDAPCode r;
     WHOISStatus := WHOISStatus r; WHOISReason := WHOISReason r;
     WHOISError := WHOISError r; WHOISServer := WHOISServer r;
     WHOISPattern := WHOISPattern r; Registrar := Registrar r;
     Buyable := Buyable r; Premium := Premium r; Price := Price r;
     RegularPrice := RegularPrice r; Currency := Currency r;
     MinDuration := MinDuration r; FirstYearPromo := FirstYearPromo r;
     RegistrarLimits := RegistrarLimits r;
     RegistrarError := RegistrarError r |}.
Definition setRDAPURL (v : string) (r : Result) : Result :=
  {| Input := Input r; Phrase := Phrase r; Score := Score r;
     Domain := Domain r; Label := Label r; TLD := TLD r; Status := Status r;
     Registered := Registered r; Method := Method r;
     Confidence := Confidence r; Detail := Detail r; Error := Error r;
     CheckedAt := CheckedAt r; DurationMs := DurationMs r;
     RDAPStatus := RDAPStatus r; RDAPReason := RDAPReason r;
     RDAPError := RDAPError r; RDAPURL := v; RDAPCode := RDAPCode r;
     WHOISStatus := WHOISStatus r; WHOISReason := WHOISReason r;
     WHOISError := WHOISError r; WHOISServer := WHOISServer r;
     WHOISPattern := WHOISPattern r; Registrar := Registrar r;
     Buyable := Buyable r; Premium := Premium r; Price := Price r;
     RegularPrice := RegularPrice r; Currency := Currency r;
     MinDuration := MinDuration r; FirstYearPromo := FirstYearPromo r;
     RegistrarLimits := RegistrarLimits r;
     RegistrarError := RegistrarError r |}.
Definition setRDAPCode (v : Z) (r : Result) : Result :=
  {| Input := Input r; Phrase := Phrase r; Score := Score r;
     Domain := Domain r; Label := Label r; TLD := TLD r; Status := Status r;
     Registered := Registered r; Method := Method r;
     Confidence := Confidence r; Detail := Detail r; Error := Error r;
     CheckedAt := CheckedAt r; DurationMs := DurationMs r;
     RDAPStatus := RDAPStatus r; RDAPReason := RDAPReason r;
     RDAPError := RDAPError r; RDAPURL := RDAPURL r; RDAPCode := v;
     WHOISStatus := WHOISStatus r; WHOISReason := WHOISReason r;
     WHOISError := WHOISError r; WHOISServer := WHOISServer r;
     WHOISPattern := WHOISPattern r; Registrar := Registrar r;
     Buyable := Buyable r; Premium := Premium r; Price := Price r;
     RegularPrice := RegularPrice r; Currency := Currency r;
     MinDuration := MinDuration r; FirstYearPromo := FirstYearPromo r;
     RegistrarLimits := RegistrarLimits r;
     RegistrarError := RegistrarError r |}.
Definition setWHOISStatus (v : string) (r : Result) : Result :=
  {| Input := Input r; Phrase := Phrase r; Score := Score r;
     Domain := Domain r; Label := Label r; TLD := TLD r; Status := Status r;
     Registered := Registered r; Method := Method r;
     Confidence := Confidence r; Detail := Detail r; Error := Error r;
     CheckedAt := CheckedAt r; DurationMs := DurationMs r;
     RDAPStatus := RDAPStatus r; RDAPReason := RDAPReason r;
     RDAPError := RDAPError r; RDAPURL := RDAPURL r; RDAPCode := RDAPCode r;
     WHOISStatus := v; WHOISReason := WHOISReason r;
     WHOISError := WHOISError r; WHOISServer := WHOISServer r;
     WHOISPattern := WHOISPattern r; Registrar := Registrar r;
     Buyable := Buyable r; Premium := Premium r; Price := Price r;
     RegularPrice := RegularPrice r; Currency := Currency r;
     MinDuration := MinDuration r; FirstYearPromo := FirstYearPromo r;
     RegistrarLimits := RegistrarLimits r;
     RegistrarError := RegistrarError r |}.
Definition setWHOISReason (v : string) (r : Result) : Result :=
  {| Input := Input r; Phrase := Phrase r; Score := Score r;
     Domain := Domain r; Label := Label r; TLD := TLD r; Status := Status r;
     Registered := Registered r; Method := Method r;
     Confidence := Confidence r; Detail := Detail r; Error := Error r;
     CheckedAt := CheckedAt r; DurationMs := DurationMs r;
     RDAPStatus := RDAPStatus r; RDAPReason := RDAPReason r;
     RDAPError := RDAPError r; RDAPURL := RDAPURL r; RDAPCode := RDAPCode r;
     WHOISStatus := WHOISStatus r; WHOISReason := v;
     WHOISError := WHOISError r; WHOISServer := WHOISServer r;
     WHOISPattern := WHOISPattern r; Registrar := Registrar r;
     Buyable := Buyable r; Premium := Premium r; Price := Price r;
     RegularPrice := RegularPrice r; Currency := Currency r;
     MinDuration := MinDuration r; FirstYearPromo := FirstYearPromo r;
     RegistrarLimits := RegistrarLimits r;
     RegistrarError := RegistrarError r |}.
Definition setWHOISError (v : string) (r : Result) : Result :=
  {| Input := Input r; Phrase := Phrase r; Score := Score r;
     Domain := Domain r; Label := Label r; TLD := TLD r; Status := Status r;
     Registered := Registered r; Method := Method r;
     Confidence := Confidence r; Detail := Detail r; Error := Error r;
     CheckedAt := CheckedAt r; DurationMs := DurationMs r;
     RDAPStatus := RDAPStatus r; RDAPReason := RDAPReason r;
     RDAPError := RDAPError r; RDAPURL := RDAPURL r; RDAPCode := RDAPCode r;
     WHOISStatus := WHOISStatus r; WHOISReason := WHOISReason r;
     WHOISError := v; WHOISServer := WHOISServer r;
     WHOISPattern := WHOISPattern r; Registrar := Registrar r;
     Buyable := Buyable r; Premium := Premium r; Price := Price r;
     RegularPrice := RegularPrice r; Currency := Currency r;
     MinDuration := MinDuration r; FirstYearPromo := FirstYearPromo r;
     RegistrarLimits := RegistrarLimits r;
     RegistrarError := RegistrarError r |}.
Definition setWHOISServer (v : string) (r : Result) : Result :=
  {| Input := Input r; Phrase := Phrase r; Score := Score r;
     Domain := Domain r; Label := Label r; TLD := TLD r; Status := Status r;
     Registered := Registered r; Method := Method r;
     Confidence := Confidence r; Detail := Detail r; Error := Error r;
     CheckedAt := CheckedAt r; DurationMs := DurationMs r;
     RDAPStatus := RDAPStatus r; RDAPReason := RDAPReason r;
     RDAPError := RDAPError r; RDAPURL := RDAPURL r; RDAPCode := RDAPCode r;
     WHOISStatus := WHOISStatus r; WHOISReason := WHOISReason r;
     WHOISError := WHOISError r; WHOISServer := v;
     WHOISPattern := WHOISPattern r; Registrar := Registrar r;
     Buyable := Buyable r; Premium := Premium r; Price := Price r;
     RegularPrice := RegularPrice r; Currency := Currency r;
     MinDuration := MinDuration r; FirstYearPromo := FirstYearPromo r;
     RegistrarLimits := RegistrarLimits r;
     RegistrarError := RegistrarError r |}.
Definition setWHOISPattern (v : string) (r : Result) : Result :=
  {| Input := Input r; Phrase := Phrase r; Score := Score r;
     Domain := Domain r; Label := Label r; TLD := TLD r; Status := Status r;
     Registered := Registered r; Method := Method r;
     Confidence := Confidence r; Detail := Detail r; Error := Error r;
     CheckedAt := CheckedAt r; DurationMs := DurationMs r;
     RDAPStatus := RDAPStatus r; RDAPReason := RDAPReason r;
     RDAPError := RDAPError r; RDAPURL := RDAPURL r; RDAPCode := RDAPCode r;
     WHOISStatus := WHOISStatus r; WHOISReason := WHOISReason r;
     WHOISError := WHOISError r; WHOISServer := WHOISServer r;
     WHOISPattern := v; Registrar := Registrar r; Buyable := Buyable r;
     Premium := Premium r; Price := Price r; RegularPrice := RegularPrice r;
     Currency := Currency r; MinDuration := MinDuration r;
     FirstYearPromo := FirstYearPromo r;
     RegistrarLimits := RegistrarLimits r;
     RegistrarError := RegistrarError r |}.

Notation "r <| f := v |>" := (f v r)
  (at level 1, left associativity, f at level 0, only parsing).
Record Options := {
  RDAP : bool;       (* [opts.RDAP != nil] *)
  WHOIS : bool;      (* [opts.WHOIS != nil] *)
  NoWHOIS : bool;
  Timeout : Z;
  Concurrency : Z;
  Verbose : bool;
  Quiet : bool
}.

Definition NewChecker (o : Options) : Options :=
  {| RDAP := RDAP o; WHOIS := WHOIS o; NoWHOIS := NoWHOIS o; Timeout := Timeout o;
     Concurrency := if decide (Concurrency o <= 0) then 16 else Concurrency o;
     Verbose := Verbose o; Quiet := Quiet o |}.

(** What one call of [checkOne] observes of its environment: the clock
    on entry, the evidence that the RDAP and WHOIS clients return for a
    name, the clock read by [time.Now] before returning and the monotonic
    clock read by [time.Since] after it.  The calls of the WHOIS client
    are those that return; a panic in it ends the process. *)
Record Env := {
  startTime : GoTime.Time;
  rdapEvidence : string → Rdap.Evidence;
  whoisEvidence : string → Whois.Evidence;
  endTime : GoTime.Time;
  endMono : Z
}.

#[export] Instance Env_inhabited : Inhabited Env :=
  populate
    {| startTime := {| GoTime.unixSec := 0; GoTime.nsec := 0; GoTime.mono := 0 |};
       rdapEvidence := λ _,
         {| Rdap.Status := "unknown"; Rdap.Confidence := "low";
            Rdap.Reason := EmptyString; Rdap.URL := EmptyString;
            Rdap.HTTPStatus := 0; Rdap.Err := None |};
       whoisEvidence := λ _,
         {| Whois.Status := "unknown"; Whois.Confidence := "low";
            Whois.Reason := EmptyString; Whois.Server := EmptyString;
            Whois.Pattern := EmptyString; Whois.Err := None |};
       endTime := {| GoTime.unixSec := 0; GoTime.nsec := 0; GoTime.mono := 0 |};
       endMono := 0 |}.

Definition splitDomain (d : string) : string * string :=
  match LastIndexByte d "." with
  | None => (EmptyString, EmptyString)
  | Some i =>
      if decide (i = (len d - 1)%nat) then (EmptyString, EmptyString)
      else (takeS i d, dropS (i + 1) d)
  end.

Section WithLib.
Context `{GoLib}.

(** The two assignments before every [return r]. *)
Definition stamp (env : Env) (r : Result) : Result :=
  r <| setCheckedAt := GoTime.FormatRFC3339NanoUTC (endTime env) |>
    <| setDurationMs := GoTime.Milliseconds (GoTime.Since (startTime env) (endMono env)) |>.

(** The six assignments of a conclusive answer. *)
Definition conclude (status : string) (registered : bool)
    (method confidence reason : string) (r : Result) : Result :=
  r <| setStatus := status |> <| setRegistered := Some registered |>
    <| setMethod := method |> <| setConfidence := confidence |>
    <| setDetail := reason |> <| setError := EmptyString |>.

(** The RDAP block: [inl] is a returned result, [inr] the result that
    goes on to the next block. *)
Definition rdapBlock (env : Env) (ascii : string) (r : Result) : Result + Result :=
  let ev := rdapEvidence env ascii in
  let r := r <| setMethod := MethodRDAP |> <| setRDAPStatus := Rdap.Status ev |>
             <| setRDAPReason := Rdap.Reason ev |> in
  let r := match Rdap.Err ev with
           | Some msg =>
               let r := r <| setRDAPError := msg |> in
               if decide (Error r = EmptyString) then r <| setError := RDAPError r |>
               else r
           | None => r
           end in
  let r := r <| setRDAPURL := Rdap.URL ev |> <| setRDAPCode := Rdap.HTTPStatus ev |> in
  if decide (Rdap.Status ev = "available") then
    inl (stamp env (conclude StatusAvailable false MethodRDAP
                      (Rdap.Confidence ev) (Rdap.Reason ev) r))
  else if decide (Rdap.Status ev = "taken") then
    inl (stamp env (conclude StatusTaken true MethodRDAP
                      (Rdap.Confidence ev) (Rdap.Reason ev) r))
  else if decide (Detail r = EmptyString ∧ Rdap.Reason ev ≠ EmptyString) then
    inr (r <| setDetail := Rdap.Reason ev |>)
  else inr r.

Definition whoisBlock (env : Env) (ascii : string) (r : Result) : Result + Result :=
  let ev := whoisEvidence env ascii in
  let r := r <| setMethod := MethodWHOIS |> <| setWHOISStatus := Whois.Status ev |>
             <| setWHOISReason := Whois.Reason ev |> in
  let r := match Whois.Err ev with
           | Some msg =>
               let r := r <| setWHOISError := msg |> in
               r <| setError := WHOISError r |>
           | None => r
           end in
  let r := r <| setWHOISServer := Whois.Server ev |>
             <| setWHOISPattern := Whois.Pattern ev |> in
  if decide (Whois.Status ev = "available") then
    inl (stamp env (conclude StatusAvailable false MethodWHOIS
                      (Whois.Confidence ev) (Whois.Reason ev) r))
  else if decide (Whois.Status ev = "taken") then
    inl (stamp env (conclude StatusTaken true MethodWHOIS
                      (Whois.Confidence ev) (Whois.Reason ev) r))
  else if decide (Detail r = EmptyString ∧ Whois.Reason ev ≠ EmptyString) then
    inr (r <| setDetail := Whois.Reason ev |>)
  else inr r.

(** The summary of the reasons when no detail was set. *)
Definition summarize (r : Result) : Result :=
  if decide (Detail r = EmptyString) then
    if decide (RDAPReason r ≠ EmptyString ∧ WHOISReason r ≠ EmptyString) then
      r <| setDetail := "rdap: " +:+ RDAPReason r +:+ "; whois: " +:+ WHOISReason r |>
    else if decide (RDAPReason r ≠ EmptyString) then
      r <| setDetail := "rdap: " +:+ RDAPReason r |>
    else if decide (WHOISReason r ≠ EmptyString) then
      r <| setDetail := "whois: " +:+ WHOISReason r |>
    else r <| setDetail := "lookup unavailable" |>
  else r.

Definition checkOne (c : Options) (env : Env) (input : string) : Result :=
  let r := zeroResult <| setInput := TrimSpace input |> <| setStatus := StatusUnknown |>
             <| setMethod := MethodNone |> <| setConfidence := "low" |> in
  match Domain.Normalize input with
  | inr err =>
      stamp env (r <| setDomain := TrimSpace input |> <| setError := err |>
                   <| setDetail := "invalid input" |>)
  | inl ascii =>
      let r := r <| setDomain := ascii |> in
      let '(label, tld) := splitDomain ascii in
      let r := r <| setLabel := label |> <| setTLD := tld |> in
      let r := if decide (Input r = ascii) then r <| setInput := EmptyString |> else r in
      match (if RDAP c then rdapBlock env ascii r else inr r) with
      | inl r => r
      | inr r =>
          match (if negb (NoWHOIS c) && WHOIS c then whoisBlock env ascii r
                 else inr r) with
          | inl r => r
          | inr r => stamp env (summarize r)
          end
      end
  end.

(** A result whose status is still open, and one whose [Registered]
    agrees with its status. *)
Definition undecided (r : Result) : Prop :=
  Status r = StatusUnknown ∧ Registered r = None.

Definition consistent (r : Result) : Prop :=
  (Status r = StatusAvailable ∧ Registered r = Some false) ∨
  (Status r = StatusTaken ∧ Registered r = Some true) ∨
  (Status r = StatusUnknown ∧ Registered r = None).

(** *** The worker pool of [CheckDomains]

    The goroutines communicate over two unbuffered channels.  A state of
    the pool holds the jobs that the producer has still to send, what each
    worker is doing, and the slice that the collector fills. *)
Record job := { idx : nat; input : string }.

Inductive worker :=
  | Idle                                   (* waiting in [range jobs] *)
  | Running (j : job)                      (* inside [c.checkOne] *)
  | Sending (i : nat) (res : Result).      (* blocked in [results <- out] *)

Record pool := {
  pending : list job;
  workers : list worker;
  outSlice : list Result
}.

Definition jobsFrom (inputs : list string) : list job :=
  imap (λ i s, {| idx := i; input := s |}) inputs.

Definition poolSize (c : Options) : nat :=
  Z.to_nat (if decide (Concurrency c < 1) then 1 else Concurrency c).

Definition initPool (c : Options) (inputs : list string) : pool :=
  {| pending := jobsFrom inputs;
     workers := replicate (poolSize c) Idle;
     outSlice := replicate (length inputs) zeroResult |}.

(** One communication or one call of [checkOne], by any goroutine that
    can move. *)
Inductive step (c : Options) : pool → pool → Prop :=
  | step_send j q ws o k :
      ws !! k = Some Idle →
      step c {| pending := j :: q; workers := ws; outSlice := o |}
             {| pending := q; workers := <[k := Running j]> ws; outSlice := o |}
  | step_check q ws o k j env :
      ws !! k = Some (Running j) →
      step c {| pending := q; workers := ws; outSlice := o |}
             {| pending := q;
                workers := <[k := Sending (idx j) (checkOne c env (input j))]> ws;
                outSlice := o |}
  | step_collect q ws o k i res :
      ws !! k = Some (Sending i res) →
      (i < length o)%nat →
      step c {| pending := q; workers := ws; outSlice := o |}
             {| pending := q; workers := <[k := Idle]> ws; outSlice := <[i := res]> o |}.

(** The collector writes [outSlice[r.idx]]; an index outside the slice
    would panic instead. *)
Definition indexPanic (p : pool) : Prop :=
  ∃ k i res, workers p !! k = Some (Sending i res) ∧ (length (outSlice p) ≤ i)%nat.

(** All jobs are sent and every worker has left its loop: [jobs] and
    [results] are closed and [CheckDomains] returns [outSlice]. *)
Definition returned (p : pool) : Prop :=
  pending p = [] ∧ Forall (λ w, w = Idle) (workers p).

Definition steps (c : Options) : pool → pool → Prop := rtc (step c).

(** [CheckDomains c inputs out]: a call of [c.CheckDomains(ctx, inputs)]
    can return [out], under some order of the moves of its goroutines. *)
Definition CheckDomains (c : Options) (inputs : list string) (out : list Result) : Prop :=
  ∃ p, steps c (initPool c inputs) p ∧ returned p ∧ out = outSlice p.

(** [res] is a result of checking the input at position [i]. *)
Definition checked (c : Options) (inputs : list string) (i : nat) (res : Result) : Prop :=
  ∃ input env, inputs !! i = Some input ∧ res = checkOne c env input.

(** What a worker holds when the first [sent] jobs have been sent. *)
Definition workerOk (c : Options) (inputs : list string) (sent : nat) (w : worker) : Prop :=
  match w with
  | Idle => True
  | Running j => (idx j < sent)%nat ∧ inputs !! idx j = Some (input j)
  | Sending i res => (i < sent)%nat ∧ checked c inputs i res
  end.

Definition holds (w : worker) (i : nat) : Prop :=
  match w with
  | Idle => False
  | Running j => idx j = i
  | Sending i' _ => i' = i
  end.

(** The invariant of the pool: the producer has sent a prefix of the
    jobs, and each job sent is held by a worker or answered in the
    slice. *)
Definition poolInv (c : Options) (inputs : list string) (p : pool) : Prop :=
  ∃ sent : nat,
    pending p = drop sent (jobsFrom inputs) ∧
    (sent ≤ length inputs)%nat ∧
    length (workers p) = poolSize c ∧
    length (outSlice p) = length inputs ∧
    Forall (workerOk c inputs sent) (workers p) ∧
    ∀ i, (i < sent)%nat →
      (∃ w, w ∈ workers p ∧ holds w i) ∨
      (∃ res, outSlice p !! i = Some res ∧ checked c inputs i res).

(** The work left: three moves for a job to send, two for one being
    checked, one for a result to collect. *)
Definition workLeft (w : worker) : nat :=
  match w with Idle => 0 | Running _ => 2 | Sending _ _ => 1 end.

Definition measure (p : pool) : nat :=
  3 * length (pending p) + sum_list (workLeft <$> workers p).

(** The result of a block, returned or carried on. *)
Definition outcomeOf (x : Result + Result) : Result :=
  match x with inl r => r | inr r => r end.

(** A block returns a stamped, consistent result, or carries on a result
    that is still undecided. *)
Definition blockOk (env : Env) (x : Result + Result) : Prop :=
  match x with
  | inl r => ∃ r', r = stamp env r' ∧ consistent r'
  | inr r => undecided r
  end.

End WithLib.
End Availability.

(** ** Package [internal/generate] *)
Module Generate.
Import Strings.
Local Open Scope Z_scope.

Record Options := {
  MaxLabels : Z;
  ReplaceKI : bool;
  Reverse2 : bool;
  KeepHyphen : bool;
  MinTokenLen : Z
}.

Record Candidate := {
  Label : string;
  Score : Z
}.

#[export] Instance Candidate_eq_dec : EqDecision Candidate.
Proof. solve_decision. Defined.

(** [New]: the options that a [Generator] holds. *)
Definition New (o : Options) : Options :=
  {| MaxLabels := if decide (MaxLabels o <= 0) then 50 else MaxLabels o;
     ReplaceKI := ReplaceKI o; Reverse2 := Reverse2 o; KeepHyphen := KeepHyphen o;
     MinTokenLen := if decide (MinTokenLen o <= 0) then 2 else MinTokenLen o |}.

(** [flush] of [tokenize]; [cur] holds the token being read, reversed. *)
Definition flush (minLen : Z) (cur : string) : list string :=
  if decide (cur = EmptyString) then []
  else if Z.of_nat (len cur) <? minLen then []
  else [String.rev cur].

(** The loop of [tokenize].  It ranges over runes in the source; a rune
    outside ASCII is made of bytes above 0x7F only, each of which flushes
    as the rune does. *)
Fixpoint tokenizeGo (minLen : Z) (cur : string) (s : string) : list string :=
  match s with
  | EmptyString => flush minLen cur
  | String c r =>
      if isLowerAlpha c || isDigit c then tokenizeGo minLen (String c cur) r
      else flush minLen cur ++ tokenizeGo minLen EmptyString r
  end.

Definition tokenize `{GoLib} (s : string) (minLen : Z) : list string :=
  tokenizeGo minLen EmptyString (ToLower s).

(** The closure [rec] of [expandTokens] and [expandKI]: the product of
    the alternatives, cut off at 16 combinations. *)
Fixpoint product (alts : list (list string)) (cur : list string)
    (out : list (list string)) : list (list string) :=
  if (16 <=? length out)%nat then out
  else
    match alts with
    | [] => out ++ [cur]
    | vs :: rest => fold_left (λ out v, product rest (cur ++ [v]) out) vs out
    end.

Definition engAlternatives (t : string) : list string :=
  if decide (t = "engineering") then ["engineering"; "eng"]
  else if decide (t = "engineer") then ["engineer"; "eng"]
  else [t].

Definition expandTokens (tokens : list string) : list (list string) :=
  product (engAlternatives <$> tokens) [] [].

Definition kiAlternatives (t : string) : list string :=
  if decide (t = "ki") then ["ki"; "ai"]
  else if decide (t = "ai") then ["ai"; "ki"]
  else [t].

Definition sameTokens (a b : list string) : bool := bool_decide (a = b).

(** [sort.SliceStable] with "equal to the base tokens" before "not
    equal" keeps each of the two groups in its order. *)
Definition expandKI (tokens : list string) : list (list string) :=
  let out := product (kiAlternatives <$> tokens) [] [] in
  filter (λ c, sameTokens c tokens = true) out
  ++ filter (λ c, sameTokens c tokens ≠ true) out.

Definition ngrams (n : nat) (tokens : list string) : list (list string) :=
  if (length tokens <? n)%nat then []
  else (λ i, take n (drop i tokens)) <$> seq 0 (length tokens - n + 1).

Definition dropOne (tokens : list string) : list (list string) :=
  if (3 <=? length tokens)%nat && (length tokens <=? 6)%nat
  then (λ i, delete i tokens) <$> seq 0 (length tokens)
  else [].

Definition NUL : string := String "000" EmptyString.

Fixpoint dedupe (seen : gset string) (seqs : list (list string)) : list (list string) :=
  match seqs with
  | [] => []
  | s :: rest =>
      let key := Join s NUL in
      if decide (key ∈ seen) then dedupe seen rest
      else s :: dedupe ({[key]} ∪ seen) rest
  end.

Definition sequences (tokens : list string) : list (list string) :=
  if decide (length tokens = 0%nat) then []
  else
    let out := [tokens] ++ ngrams 2 tokens ++ ngrams 3 tokens ++ dropOne tokens in
    dedupe ∅ (filter (λ toks, length toks ≠ 0%nat) out).

Definition tokenBonus (t : string) : Z :=
  if decide (t = "agentic") then 5
  else if decide (t = "agent") then 2
  else if decide (t = "ki" ∨ t = "ai") then 2
  else 0.

Definition scoreLabel (tokens : list string) (label : string) : Z :=
  let n := Z.of_nat (length tokens) in
  let score := 100 in
  let score := if 2 <? n then score - 5 * (n - 2) else score in
  let score := score - 2 * CountByte label "-" in
  let score :=
    if 14 <? Z.of_nat (len label) then score - (Z.of_nat (len label) - 14) ÷ 2
    else score in
  let score := fold_left (λ score t, score + tokenBonus t) tokens score in
  let score := if score <? 1 then 1 else score in
  if 100 <? score then 100 else score.

Definition isLDH (c : ascii) : bool :=
  isLowerAlpha c || isDigit c || bool_decide (c = "-"%char).

Definition isValidLabel (label : string) : bool :=
  if decide (label = EmptyString) then false
  else if (63 <? len label)%nat then false
  else if HasPrefix label "-" || HasSuffix label "-" then false
  else allBytes isLDH label.

(** The closure [add] of [Labels], on the map [seen]. *)
Definition add (seen : gmap string Z) (label : string) (score : Z) : gmap string Z :=
  let label := TrimByte label "-" in
  if negb (isValidLabel label) then seen
  else
    match seen !! label with
    | Some old => if decide (old >= score) then seen else <[label := score]> seen
    | None => <[label := score]> seen
    end.

(** The body of the innermost loop, for one expanded sequence. *)
Definition addExpanded (g : Options) (seen : gmap string Z) (expanded : list string)
  : gmap string Z :=
  let hyphen := Join expanded "-" in
  let seen := add seen hyphen (scoreLabel expanded hyphen) in
  let concat := Join expanded EmptyString in
  let seen := add seen concat (scoreLabel expanded concat - 3) in
  match expanded with
  | [e0; e1] =>
      if Reverse2 g then
        let r := [e1; e0] in
        let rh := Join r "-" in
        let seen := add seen rh (scoreLabel r rh - 10) in
        let rc := Join r EmptyString in
        add seen rc (scoreLabel r rc - 13)
      else seen
  | _ => seen
  end.

(** The three nested loops that fill [seen]. *)
Definition collect (g : Options) (combos : list (list string)) : gmap string Z :=
  fold_left (λ seen toks,
    fold_left (λ seen seq,
      fold_left (addExpanded g) (expandTokens seq) seen)
      (sequences toks) seen)
    combos ∅.

(** The comparison passed to [sort.Slice]. *)
Definition less (a b : Candidate) : bool :=
  if decide (Score a ≠ Score b) then Score b <? Score a
  else if decide (len (Label a) ≠ len (Label b)) then (len (Label a) <? len (Label b))%nat
  else String.ltb (Label a) (Label b).

(** What [sort.Slice] promises of the slice it leaves: the same elements,
    none of them less than the one before it.  The sort is not stable. *)
Definition sortSlice (lt : Candidate → Candidate → bool) (l l' : list Candidate) : Prop :=
  l ≡ₚ l' ∧ Sorted (λ a b, lt b a = false) l'.

(** The order of the ranked list: the higher score first, then the
    shorter label, then the label that compares lower byte by byte. *)
Definition ranksBefore (a b : Candidate) : Prop :=
  Score b < Score a ∨
  (Score a = Score b ∧
   ((len (Label a) < len (Label b))%nat ∨
    (len (Label a) = len (Label b) ∧ String.le (Label a) (Label b)))).

Definition candidate (e : string * Z) : Candidate :=
  {| Label := e.1; Score := e.2 |}.

Definition truncate (g : Options) (out : list Candidate) : list Candidate :=
  if decide (MaxLabels g > 0 ∧ Z.of_nat (length out) > MaxLabels g)
  then take (Z.to_nat (MaxLabels g)) out else out.

Section WithLib.
Context `{GoLib}.

Definition combosOf (g : Options) (baseTokens : list string) : list (list string) :=
  if ReplaceKI g then expandKI baseTokens else [baseTokens].

(** [Labels g phrase out]: a call of [g.Labels(phrase)] can return
    [out].  The loop [for label, score := range seen] visits the entries
    of the map in an order that Go leaves unspecified: [ranged] is any
    arrangement of them. *)
Definition Labels (g : Options) (phrase : string) (out : list Candidate) : Prop :=
  let phrase := TrimSpace phrase in
  if decide (phrase = EmptyString) then out = []
  else
    let baseTokens := tokenize phrase (MinTokenLen g) in
    if decide (length baseTokens = 0%nat) then out = []
    else
      let seen := collect g (combosOf g baseTokens) in
      ∃ ranged sorted,
        ranged ≡ₚ candidate <$> map_to_list seen ∧
        sortSlice less ranged sorted ∧
        out = truncate g sorted.

(** One such run, computed: the entries in the order of [map_to_list],
    sorted by merging. *)
Definition lessEq (a b : Candidate) : Prop := less b a = false.

#[export] Instance lessEq_dec : RelDecision lessEq.
Proof. intros a b. unfold lessEq. apply _. Defined.

Definition LabelsRun (g : Options) (phrase : string) : list Candidate :=
  let phrase := TrimSpace phrase in
  if decide (phrase = EmptyString) then []
  else
    let baseTokens := tokenize phrase (MinTokenLen g) in
    if decide (length baseTokens = 0%nat) then []
    else
      let seen := collect g (combosOf g baseTokens) in
      truncate g (merge_sort lessEq (candidate <$> map_to_list seen)).

End WithLib.
End Generate.

(** ** An implementation of the library routines for running examples

    [StandIn.lib] agrees with the Go libraries on the inputs of the
    examples below: names made of ASCII letters, digits, hyphens and dots,
    URLs of the shape [scheme://host/...], and the three expressions of
    [Whois.classify].  Elsewhere it is a placeholder.  The theorems about
    the program hold for every implementation of [GoLib]; this one serves
    to run the program on concrete inputs. *)
Module StandIn.
Import Strings.

(** [idna.Lookup.ToASCII] on a lowercase ASCII name without [xn--]
    labels: the name itself, when every label is made of letters, digits
    and hyphens, with no hyphen first, last, or third and fourth. *)
Definition ldhLabel (label : string) : bool :=
  allBytes Domain.isLDH label
  && negb (HasPrefix label "-") && negb (HasSuffix label "-")
  && negb (HasPrefix (dropS 2 label) "--").

Definition idnaLDH (s : string) : string + string :=
  if forallb ldhLabel (SplitByte s ".") then inl s
  else inr "disallowed rune or invalid label".

Definition quote (s : string) : string :=
  String "034" (s +:+ String "034" EmptyString).

(** [url.Parse] on [scheme://host...] with a scheme of letters: the host
    is the text between [://] and the first [/], [?] or [#]. *)
Fixpoint afterScheme (s : string) : option string :=
  match s with
  | EmptyString => None
  | String c r =>
      if isLowerAlpha c || isUpper c then
        if HasPrefix r "://" then Some (dropS 3 r) else afterScheme r
      else None
  end.

Definition urlHostLite (s : string) : option string :=
  match afterScheme s with
  | Some rest =>
      Some (match IndexAny rest "/?#" with
            | Some i => takeS i rest
            | None => rest
            end)
  | None => None
  end.

(** The expressions [(?im)...] built from [^], [$], [\s*], escaped
    punctuation and literal bytes. *)
Inductive item := Bol | Eol | SpaceStar | Lit (c : ascii).

Fixpoint parseItems (s : string) : option (list item) :=
  match s with
  | EmptyString => Some []
  | String c r =>
      if decide (c = "^"%char) then cons Bol <$> parseItems r
      else if decide (c = "$"%char) then cons Eol <$> parseItems r
      else if decide (c = "\"%char) then
        match r with
        | String d r2 =>
            if decide (d = "s"%char) then
              match r2 with
              | String e r3 =>
                  if decide (e = "*"%char) then cons SpaceStar <$> parseItems r3
                  else None
              | EmptyString => None
              end
            else if hasByte d Regexp.specialBytes then cons (Lit d) <$> parseItems r2
            else None
        | EmptyString => None
        end
      else if hasByte c Regexp.specialBytes then None
      else cons (Lit c) <$> parseItems r
  end.

Definition parse (pattern : string) : option (list item) :=
  if HasPrefix pattern "(?im)" then parseItems (dropS 5 pattern) else None.

(** The class [\s] of RE2. *)
Definition reSpace (c : ascii) : bool :=
  hasByte c (String "009" (String "010" (String "012" (String "013" " ")))).

Definition atLineStart (prev : option ascii) : bool :=
  match prev with None => true | Some c => bool_decide (c = "010"%char) end.

Definition atLineEnd (s : string) : bool :=
  match s with EmptyString => true | String c _ => bool_decide (c = "010"%char) end.

(** A match of [items] starts at [s], which follows the byte [prev]. *)
Fixpoint matchHere (items : list item) (prev : option ascii) (s : string) : bool :=
  match items with
  | [] => true
  | Bol :: rest => atLineStart prev && matchHere rest prev s
  | Eol :: rest => atLineEnd s && matchHere rest prev s
  | Lit c :: rest =>
      match s with
      | String x s' => bool_decide (lowerByte x = lowerByte c) && matchHere rest (Some x) s'
      | EmptyString => false
      end
  | SpaceStar :: rest =>
      (fix star (prev : option ascii) (s : string) : bool :=
         matchHere rest prev s ||
         match s with
         | String x s' => reSpace x && star (Some x) s'
         | EmptyString => false
         end) prev s
  end.

Fixpoint search (items : list item) (prev : option ascii) (s : string) : bool :=
  matchHere items prev s ||
  match s with
  | String x s' => search items (Some x) s'
  | EmptyString => false
  end.

Definition matches (pattern body : string) : bool :=
  match parse pattern with
  | Some items => search items None body
  | None => false
  end.

#[export] Instance lib : GoLib := {|
  unicode_lower := λ s, s;
  url_parse_host := urlHostLite;
  idna_lookup_to_ascii := idnaLDH;
  strconv_quote := quote;
  regexp_match := matches
|}.

(** A checker without clients, and an environment whose clocks read
    the start of 2024 and whose clients find nothing. *)
Definition noClients : Availability.Options :=
  {| Availability.RDAP := false; Availability.WHOIS := false;
     Availability.NoWHOIS := false; Availability.Timeout := 0;
     Availability.Concurrency := 2; Availability.Verbose := false;
     Availability.Quiet := false |}.

Definition quietEnv : Availability.Env :=
  {| Availability.startTime :=
       {| GoTime.unixSec := 1704067200; GoTime.nsec := 0; GoTime.mono := 1000 |};
     Availability.rdapEvidence := λ _,
       {| Rdap.Status := "unknown"; Rdap.Confidence := "low";
          Rdap.Reason := "no rdap service for tld"; Rdap.URL := EmptyString;
          Rdap.HTTPStatus := 0; Rdap.Err := None |};
     Availability.whoisEvidence := λ _,
       {| Whois.Status := "unknown"; Whois.Confidence := "low";
          Whois.Reason := "whois ambiguous"; Whois.Server := EmptyString;
          Whois.Pattern := EmptyString; Whois.Err := None |};
     Availability.endTime :=
       {| GoTime.unixSec := 1704067201; GoTime.nsec := 250000000;
          GoTime.mono := 1250001000 |};
     Availability.endMono := 1250002000 |}.

End StandIn.

(** ** Package [internal/domain]: [ReadLines]

    The reader hands over [content] and then ends, with [io.EOF] or with
    the error [readErr].  A read error makes the scanner treat what it
    holds as the end of the input, and [sc.Err] then reports the error. *)
Module DomainLines.
Import Strings.

(** The loop [for sc.Scan()] over the tokens of the scanner. *)
Fixpoint keepLines (tokens : list string) : list string :=
  match tokens with
  | [] => []
  | text :: rest =>
      let line := TrimSpace text in
      if decide (line = EmptyString) then keepLines rest
      else line :: keepLines rest
  end.

Definition ReadLines (content : string) (readErr : option string)
  : list string + string :=
  let '(tokens, scanErr) := Bufio.ScanLines content in
  let out := keepLines tokens in
  match scanErr, readErr with
  | Some err, _ => inr err
  | None, Some err => inr err
  | None, None => inl out
  end.

End DomainLines.

(** ** Package [internal/generate]: the entries of the map [seen]

    An entry of the map that [Labels] fills: a valid label, with a score
    that [scoreLabel] gave, lowered by 0, 3, 10 or 13. *)
Module GenerateSeen.
Import Strings Generate.

Definition entryOk (label : string) (score : Z) : Prop :=
  isValidLabel label = true ∧ (-12 ≤ score ≤ 100)%Z.

End GenerateSeen.

(** ** Machine integers

    [int] and [time.Duration] are 64-bit: sums and products wrap. *)
Module Int64.
Local Open Scope Z_scope.

Definition wrap (z : Z) : Z := (z + 2 ^ 63) mod 2 ^ 64 - 2 ^ 63.

Definition MaxInt64 : Z := 2 ^ 63 - 1.

End Int64.

(** ** Package [internal/whois]: [query] and its helpers

    An error is kept as what the code asks of it: its message and the
    answers of [errors.Is] and [errors.As]. *)
Module WhoisRetry.
Import Strings.
Local Open Scope Z_scope.

Record netError := {
  Timeout : bool;     (* [ne.Timeout()] *)
  Temporary : bool    (* [ne.Temporary()] *)
}.

Record error := {
  text : string;                 (* [err.Error()] *)
  isCanceled : bool;             (* [errors.Is(err, context.Canceled)] *)
  isDeadlineExceeded : bool;     (* [errors.Is(err, context.DeadlineExceeded)] *)
  asNetError : option netError   (* [errors.As(err, &ne)] *)
}.

Definition minDuration (a b : Z) : Z := if decide (a < b) then a else b.

Definition isRetryable `{GoLib} (err : error) : bool :=
  if isCanceled err then false
  else if isDeadlineExceeded err then true
  else
    match asNetError err with
    | Some ne => Timeout ne || Temporary ne
    | None =>
        let s := ToLower (text err) in
        if Contains s "connection reset" then true
        else if Contains s "broken pipe" then true
        else if Contains s "unexpected eof" then true
        else false
    end.

Section WithWorld.
Context `{GoLib} {World : Type}.
(** The two effects of [query] on the world outside: a call
    [c.queryOnce(ctx, server, q)], and a timer of [d] nanoseconds raced
    against [ctx.Done()], which gives [ctx.Err()] when the context wins. *)
Context (queryOnce : World → (string + error) * World).
Context (timer : Z → World → option error * World).

Definition sleepWithContext (d : Z) (w : World) : option error * World :=
  if decide (d <= 0) then (None, w) else timer d w.

(** The loop of [query]; [more] is [attempts - 1 - attempt]. *)
Fixpoint queryLoop (more : nat) (backoff : Z) (w : World) : (string + error) * World :=
  match queryOnce w with
  | (inl body, w) => (inl body, w)
  | (inr err, w) =>
      match more with
      | O => (inr err, w)
      | S more =>
          if negb (isRetryable err) then (inr err, w)
          else
            match sleepWithContext backoff w with
            | (Some err, w) => (inr err, w)
            | (None, w) =>
                queryLoop more (minDuration (Int64.wrap (backoff * 2)) (2 * Whois.Second)) w
            end
      end
  end.

Definition query (c : Whois.Client) (w : World) : (string + error) * World :=
  let attempts := Int64.wrap (Whois.Retries (Whois.opts c) + 1) in
  let attempts := if decide (attempts < 1) then 1 else attempts in
  let backoff := Whois.Backoff (Whois.opts c) in
  let backoff := if decide (backoff <= 0) then 250 * Whois.Millisecond else backoff in
  queryLoop (Z.to_nat (attempts - 1)) backoff w.

End WithWorld.

(** The same effects, with a record of each call and its outcome. *)
Inductive event :=
  | Attempt (r : string + error)
  | Sleep (d : Z) (r : option error).

Definition recordAttempts {World} (queryOnce : World → (string + error) * World)
    (wl : World * list event) : (string + error) * (World * list event) :=
  let '(r, w) := queryOnce wl.1 in (r, (w, wl.2 ++ [Attempt r])).

Definition recordSleeps {World} (timer : Z → World → option error * World)
    (d : Z) (wl : World * list event) : option error * (World * list event) :=
  let '(r, w) := timer d wl.1 in (r, (w, wl.2 ++ [Sleep d r])).

Definition attemptsOf (log : list event) : list (string + error) :=
  omap (λ ev, match ev with Attempt r => Some r | Sleep _ _ => None end) log.

Definition sleepsOf (log : list event) : list Z :=
  omap (λ ev, match ev with Sleep d _ => Some d | Attempt _ => None end) log.

(** The records that a call of the loop can leave, with its result: a
    last attempt; or a failed attempt, a sleep that the context cuts
    short; or a failed attempt, a full sleep and the records of the loop
    with one attempt fewer and the next backoff. *)
Inductive retryLog `{GoLib} : nat → Z → list event → string + error → Prop :=
  | retry_last more backoff r :
      (∀ err, r = inr err → more = O ∨ isRetryable err = false) →
      retryLog more backoff [Attempt r] r
  | retry_cut more backoff err err' :
      isRetryable err = true →
      retryLog (S more) backoff [Attempt (inr err); Sleep backoff (Some err')] (inr err')
  | retry_again more backoff err log r :
      isRetryable err = true →
      retryLog more (minDuration (Int64.wrap (backoff * 2)) (2 * Whois.Second)) log r →
      retryLog (S more) backoff (Attempt (inr err) :: Sleep backoff None :: log) r.

End WhoisRetry.

(** ** Package [internal/rdap]: [parseBootstrap]

    [decoded] is what [json.Unmarshal] leaves in [raw.Services], or its
    error. *)
Module RdapBootstrap.
Import Strings.
Section WithLib.
Context `{GoLib}.

(** The inner loop over the TLDs of one service. *)
Definition addTLDs (urls : list string) (m : gmap string (list string))
    (tlds : list string) : gmap string (list string) :=
  fold_left (λ m tld,
               let tld := ToLower (TrimSpace tld) in
               if decide (tld = EmptyString) then m else <[tld := urls]> m)
            tlds m.

(** The body of the loop over the services. *)
Definition addService (m : gmap string (list string)) (svc : list (list string))
  : gmap string (list string) :=
  match svc with
  | [tlds; urls] => addTLDs urls m tlds
  | _ => m
  end.

(** The loop that builds [uniq] for one TLD. *)
Fixpoint uniqURLs (seen : gset string) (urls : list string) : list string :=
  match urls with
  | [] => []
  | u :: rest =>
      let u := TrimSpace u in
      if decide (u = EmptyString) then uniqURLs seen rest
      else if decide (url_parse_host u = None) then uniqURLs seen rest
      else if decide (u ∈ seen) then uniqURLs seen rest
      else u :: uniqURLs ({[u]} ∪ seen) rest
  end.

(** The second loop ranges over the map and replaces the value of each
    key that it visits; it visits each key once, in any order. *)
Definition parseBootstrap (decoded : list (list (list string)) + string)
  : Rdap.bootstrap + string :=
  match decoded with
  | inr err => inr err
  | inl services =>
      let m := fold_left addService services ∅ in
      inl {| Rdap.tldToURLs := uniqURLs ∅ <$> m |}
  end.

End WithLib.
End RdapBootstrap.

(** ** Package [internal/registrar/porkbun]: the pacing of requests

    Instants are nanoseconds of the clock, as for the WHOIS client.  The
    fields that [c.mu] guards change in [throttle] and in
    [updateDynamicDelay] only; a run of the client is a sequence of these
    two critical sections, in the order in which they take the lock. *)
Module Porkbun.
Import Strings.
Local Open Scope Z_scope.

Definition Millisecond : Z := 1000000.
Definition Second : Z := 1000000000.

Definition defaultBaseURL : string := "https://api.porkbun.com/api/json/v3".

Record Options := {
  APIKey : string;
  SecretAPIKey : string;
  BaseURL : string;
  Timeout : Z;
  MinDelay : Z;
  MaxConcurrent : Z;
  UserAgent : string
}.

(** [sem] is kept as its capacity, [opts.MaxConcurrent]. *)
Record Client := {
  opts : Options;
  nextRequestAt : Z;
  dynamicMinDelay : Z
}.

Definition NewClient (o : Options) : Client + string :=
  let apiKey := TrimSpace (APIKey o) in
  let secret := TrimSpace (SecretAPIKey o) in
  if decide (apiKey = EmptyString ∨ secret = EmptyString) then
    inr "porkbun: missing api key (set PORKBUN_API_KEY and PORKBUN_SECRET_API_KEY)"
  else
    inl {| opts :=
             {| APIKey := apiKey; SecretAPIKey := secret;
                BaseURL := if decide (BaseURL o = EmptyString) then defaultBaseURL
                           else BaseURL o;
                Timeout := if decide (Timeout o <= 0) then 8 * Second else Timeout o;
                MinDelay := if decide (MinDelay o <= 0) then 200 * Millisecond
                            else MinDelay o;
                MaxConcurrent := if decide (MaxConcurrent o <= 0) then 2
                                 else MaxConcurrent o;
                UserAgent := if decide (UserAgent o = EmptyString)
                             then "dothuntcli/registrar-porkbun" else UserAgent o |};
           nextRequestAt := Whois.zeroTime;
           dynamicMinDelay := 0 |}.

(** What one call of [throttle] observes. *)
Record waiting := {
  now : Z;                    (* [time.Now()] under the lock *)
  later : Z;                  (* the clock that [time.Until] reads *)
  ctxDone : option string     (* [ctx.Done()] wins the [select] *)
}.

(** [throttle]: the error, the instant [scheduled] and the client.  The
    sign of [wait] is that of the difference, also where [Sub]
    saturates. *)
Definition throttle (c : Client) (e : waiting) : option string * Z * Client :=
  let minDelay := MinDelay (opts c) in
  let minDelay := if decide (dynamicMinDelay c > minDelay) then dynamicMinDelay c
                  else minDelay in
  let scheduled := now e in
  let scheduled := if decide (scheduled < nextRequestAt c) then nextRequestAt c
                   else scheduled in
  let c := {| opts := opts c; nextRequestAt := scheduled + minDelay;
              dynamicMinDelay := dynamicMinDelay c |} in
  let wait := scheduled - later e in
  if decide (wait <= 0) then (None, scheduled, c)
  else (ctxDone e, scheduled, c).

(** [updateDynamicDelay]; the product of the two durations wraps, the
    quotient truncates. *)
Definition updateDynamicDelay (c : Client) (l : Registrar.Limits) : Client :=
  if decide (Registrar.TTLSeconds l <= 0 ∨ Registrar.Limit l <= 0) then c
  else
    let per := Int64.wrap (Registrar.TTLSeconds l * Second) ÷ Registrar.Limit l in
    if decide (per <= 0) then c
    else
      let per := if decide (per > 5 * Second) then 5 * Second else per in
      if decide (per > dynamicMinDelay c) then
        {| opts := opts c; nextRequestAt := nextRequestAt c; dynamicMinDelay := per |}
      else c.

(** The critical sections of a run, and the instants that its calls of
    [throttle] scheduled. *)
Inductive event :=
  | Throttle (e : waiting)
  | Update (l : Registrar.Limits).

Definition step (c : Client) (ev : event) : option Z * Client :=
  match ev with
  | Throttle e => let '(_, scheduled, c) := throttle c e in (Some scheduled, c)
  | Update l => (None, updateDynamicDelay c l)
  end.

Fixpoint run (c : Client) (evs : list event) : list (option Z) * Client :=
  match evs with
  | [] => ([], c)
  | ev :: rest =>
      let '(slot, c1) := step c ev in
      let '(slots, c2) := run c1 rest in
      (slot :: slots, c2)
  end.

Definition scheduledAt (slots : list (option Z)) : list Z := omap id slots.

End Porkbun.

(** ** Command [dothuntcli]: lists of TLDs and of domains *)
Module Cmd.
Import Strings.
Local Open Scope Z_scope.

Section WithLib.
Context `{GoLib}.

(** The body of the loop of [splitCommaList], on [out] and [seen]. *)
Definition addPart (acc : list string * gset string) (p : string)
  : list string * gset string :=
  let p := ToLower (TrimSpace p) in
  if decide (p = EmptyString) then acc
  else if decide (p ∈ acc.2) then acc
  else (acc.1 ++ [p], {[p]} ∪ acc.2).

Definition splitCommaList (s : string) : list string :=
  (fold_left addPart (SplitByte s ",") ([], ∅)).1.

(** The loops of the [search] command that fill [domains], [seen] and
    [meta] from the candidates and the TLDs. *)
Record domainList := {
  domains : list string;
  seen : gset string;
  meta : gmap string Z
}.

Definition full (maxDomains : Z) (st : domainList) : bool :=
  bool_decide (maxDomains > 0 ∧ Z.of_nat (length (domains st)) >= maxDomains).

(** The three variables hold the same domains, each once. *)
Definition agree (st : domainList) : Prop :=
  NoDup (domains st) ∧ (∀ d, d ∈ seen st ↔ d ∈ domains st) ∧
  (∀ d, is_Some (meta st !! d) ↔ d ∈ domains st).

(** The inner loop over [tlds]; it ends at a [break] or with the list. *)
Fixpoint tryTLDs (maxDomains : Z) (cand : Generate.Candidate) (tlds : list string)
    (st : domainList) : domainList :=
  match tlds with
  | [] => st
  | tld :: rest =>
      let d := Generate.Label cand +:+ "." +:+ ToLower tld in
      match Domain.Normalize d with
      | inr _ => tryTLDs maxDomains cand rest st
      | inl ascii =>
          if decide (ascii ∈ seen st) then tryTLDs maxDomains cand rest st
          else
            let st := {| domains := domains st ++ [ascii];
                         seen := {[ascii]} ∪ seen st;
                         meta := <[ascii := Generate.Score cand]> (meta st) |} in
            if full maxDomains st then st
            else tryTLDs maxDomains cand rest st
      end
  end.

(** The outer loop over [labels]. *)
Fixpoint collectDomains (maxDomains : Z) (labels : list Generate.Candidate)
    (tlds : list string) (st : domainList) : domainList :=
  match labels with
  | [] => st
  | cand :: rest =>
      let st := tryTLDs maxDomains cand tlds st in
      if full maxDomains st then st
      else collectDomains maxDomains rest tlds st
  end.

Definition searchDomains (maxDomains : Z) (labels : list Generate.Candidate)
    (tlds : list string) : domainList :=
  collectDomains maxDomains labels tlds {| domains := []; seen := ∅; meta := ∅ |}.

End WithLib.
End Cmd.

(** * Properties *)

(** ** Byte strings *)
Section StringFacts.
Import Strings.

Lemma append_nil_r s : s +:+ EmptyString = s.
Proof.
  induction s as [|c s IH]; [reflexivity|].
  change (String c (s +:+ EmptyString) = String c s). by rewrite IH.
Qed.

Lemma append_cons c s t : String c s +:+ t = String c (s +:+ t).
Proof. reflexivity. Qed.

Lemma append_assoc s t u : (s +:+ t) +:+ u = s +:+ t +:+ u.
Proof.
  induction s as [|c s IH]; [reflexivity|].
  by rewrite !append_cons, IH.
Qed.

Lemma rev_app_append s t : String.rev_app s t = String.rev_app s EmptyString +:+ t.
Proof.
  revert t. induction s as [|c s IH]; intros t; simpl; [reflexivity|].
  rewrite (IH (String c t)), (IH (String c EmptyString)).
  by rewrite append_assoc.
Qed.

Lemma rev_cons c s : String.rev (String c s) = String.rev s +:+ String c EmptyString.
Proof. unfold String.rev. simpl. apply rev_app_append. Qed.

Lemma rev_append s t : String.rev (s +:+ t) = String.rev t +:+ String.rev s.
Proof.
  induction s as [|c s IH].
  - by rewrite append_nil_r.
  - rewrite append_cons, !rev_cons, IH. apply append_assoc.
Qed.

Lemma rev_involutive s : String.rev (String.rev s) = s.
Proof.
  induction s as [|c s IH]; [done|].
  by rewrite rev_cons, rev_append, IH.
Qed.

Lemma len_append s t : len (s +:+ t) = (len s + len t)%nat.
Proof. induction s as [|c s IH]; [done|]. rewrite append_cons. simpl. by rewrite IH. Qed.

Lemma len_rev s : len (String.rev s) = len s.
Proof.
  induction s as [|c s IH]; [done|].
  rewrite rev_cons, len_append, IH. simpl. lia.
Qed.

Lemma allBytes_append p s t : allBytes p (s +:+ t) = allBytes p s && allBytes p t.
Proof.
  induction s as [|c s IH]; [done|]. rewrite append_cons. simpl.
  by rewrite IH, andb_assoc.
Qed.

Lemma allBytes_rev p s : allBytes p (String.rev s) = allBytes p s.
Proof.
  induction s as [|c s IH]; [done|].
  rewrite rev_cons, allBytes_append, IH. simpl.
  rewrite andb_true_r. apply andb_comm.
Qed.

Lemma allBytes_impl (p q : ascii → bool) s :
  (∀ c, p c = true → q c = true) → allBytes p s = true → allBytes q s = true.
Proof.
  intros Hpq. induction s as [|c s IH]; [done|]. simpl.
  intros [Hc Hs]%andb_true_iff. rewrite (Hpq _ Hc). by apply IH.
Qed.

Lemma hasByte_append c s t : hasByte c (s +:+ t) = hasByte c s || hasByte c t.
Proof.
  induction s as [|x s IH]; [done|]. rewrite append_cons. simpl.
  by case_decide.
Qed.

Lemma hasByte_rev c s : hasByte c (String.rev s) = hasByte c s.
Proof.
  induction s as [|x s IH]; [done|].
  rewrite rev_cons, hasByte_append, IH. simpl.
  case_decide; [apply orb_true_r | apply orb_false_r].
Qed.

(** A byte that satisfies no [p] does not occur where all bytes do. *)
Lemma allBytes_hasByte p c s :
  allBytes p s = true → p c = false → hasByte c s = false.
Proof.
  intros Hall Hc. induction s as [|x s IH]; [done|].
  simpl in *. apply andb_true_iff in Hall as [Hx Hs].
  case_decide; [congruence | by apply IH].
Qed.

Lemma HasPrefix_append s p : HasPrefix s p = true ↔ ∃ t, s = p +:+ t.
Proof.
  revert s. induction p as [|c p IH]; intros s; simpl.
  - split; [exists s; reflexivity | done].
  - destruct s as [|x s]; [split; [done | by intros [t ?]] |].
    case_decide as Hx.
    + subst x. rewrite IH. split; intros [t Ht]; exists t.
      * by rewrite append_cons, Ht.
      * rewrite append_cons in Ht. by injection Ht.
    + split; [done|]. intros [t Ht]. rewrite append_cons in Ht.
      injection Ht as ??. done.
Qed.

Lemma HasSuffix_append s suffix : HasSuffix s suffix = true ↔ ∃ t, s = t +:+ suffix.
Proof.
  unfold HasSuffix. rewrite HasPrefix_append. split.
  - intros [t Ht]. exists (String.rev t).
    apply (f_equal String.rev) in Ht.
    by rewrite rev_append, !rev_involutive in Ht.
  - intros [t ->]. exists (String.rev t). apply rev_append.
Qed.

Lemma takeS_append s t : takeS (len s) (s +:+ t) = s.
Proof. induction s as [|c s IH]; [by destruct t|]. rewrite append_cons. simpl. by rewrite IH. Qed.

Lemma dropS_append s t : dropS (len s) (s +:+ t) = t.
Proof. induction s as [|c s IH]; [by destruct t|]. rewrite append_cons. simpl. by rewrite IH. Qed.

Lemma len_dropS n s : len (dropS n s) = (len s - n)%nat.
Proof.
  revert s. induction n as [|n IH]; intros [|c s]; simpl; try done.
Qed.

Lemma takeS_dropS n s : takeS n s +:+ dropS n s = s.
Proof.
  revert s. induction n as [|n IH]; intros [|c s]; simpl; try done.
  rewrite append_cons. by rewrite IH.
Qed.

Lemma TrimSuffix_append s suffix :
  TrimSuffix s suffix = s ∨ s = TrimSuffix s suffix +:+ suffix.
Proof.
  unfold TrimSuffix. destruct (HasSuffix s suffix) eqn:E; [|by left].
  right. apply HasSuffix_append in E as [t ->].
  rewrite len_append.
  replace (len t + len suffix - len suffix)%nat with (len t) by lia.
  by rewrite takeS_append.
Qed.

Lemma Contains_hasByte s c1 p : Contains s (String c1 p) = true → hasByte c1 s = true.
Proof.
  induction s as [|x s IH]; simpl; [done|].
  case_decide as Hx; [done|]. exact IH.
Qed.

Lemma LastIndexByte_None s c : LastIndexByte s c = None ↔ hasByte c s = false.
Proof.
  induction s as [|x s IH]; simpl; [done|].
  destruct (LastIndexByte s c) as [i|].
  - split; [done|]. case_decide; [done|]. intros Hh. by apply IH in Hh.
  - case_decide; [done|]. split; [intros _; by apply IH | done].
Qed.

Lemma LastIndexByte_Some s c i :
  LastIndexByte s c = Some i →
  (i < len s)%nat ∧ s = takeS i s +:+ String c (dropS (S i) s).
Proof.
  revert i. induction s as [|x s IH]; intros i; simpl; [done|].
  destruct (LastIndexByte s c) as [j|] eqn:E.
  - intros [= <-]. destruct (IH j eq_refl) as [Hlt Heq].
    split; [lia|]. change (String x s = String x (takeS j s +:+ String c (dropS (S j) s))).
    by rewrite <- Heq.
  - case_decide; [|done]. intros [= <-]. subst x. split; [lia | done].
Qed.

Lemma IndexAny_None s chars :
  (∀ c, hasByte c chars = true → hasByte c s = false) → IndexAny s chars = None.
Proof.
  intros Hno. induction s as [|x s IH]; simpl; [done|].
  destruct (hasByte x chars) eqn:E.
  - specialize (Hno x E). simpl in Hno. by rewrite decide_True in Hno.
  - rewrite IH; [done|]. intros c Hc. specialize (Hno c Hc). simpl in Hno.
    by case_decide.
Qed.

(** White space is trimmed from a string only where it starts or ends
    with a byte of a white-space rune. *)

Lemma plain_space2_l c b : plain c = true → space2 (code c) b = false.
Proof.
  unfold plain, isASCII, space2. intros [Hc _]%andb_true_iff.
  apply N.ltb_lt in Hc. apply andb_false_iff. left. apply N.eqb_neq. lia.
Qed.

Lemma plain_space2_r c a : plain c = true → space2 a (code c) = false.
Proof.
  unfold plain, isASCII, space2. intros [Hc _]%andb_true_iff.
  apply N.ltb_lt in Hc. apply andb_false_iff. right.
  apply orb_false_iff. split; apply N.eqb_neq; lia.
Qed.

Lemma plain_space3_l c b d : plain c = true → space3 (code c) b d = false.
Proof.
  unfold plain, isASCII, space3. intros [Hc _]%andb_true_iff.
  apply N.ltb_lt in Hc.
  assert ((code c =? 225)%N = false) as -> by (apply N.eqb_neq; lia).
  assert ((code c =? 226)%N = false) as -> by (apply N.eqb_neq; lia).
  assert ((code c =? 227)%N = false) as -> by (apply N.eqb_neq; lia).
  done.
Qed.

Lemma plain_space3_r c a b : plain c = true → space3 a b (code c) = false.
Proof.
  unfold plain, isASCII, space3. intros [Hc _]%andb_true_iff.
  apply N.ltb_lt in Hc.
  assert ((code c =? 128)%N = false) as -> by (apply N.eqb_neq; lia).
  assert ((128 <=? code c)%N = false) as -> by (apply N.leb_gt; lia).
  assert ((code c =? 168)%N = false) as -> by (apply N.eqb_neq; lia).
  assert ((code c =? 169)%N = false) as -> by (apply N.eqb_neq; lia).
  assert ((code c =? 175)%N = false) as -> by (apply N.eqb_neq; lia).
  assert ((code c =? 159)%N = false) as -> by (apply N.eqb_neq; lia).
  by rewrite !andb_false_r.
Qed.

Lemma TrimLeftSpace_plain c s :
  plain c = true → TrimLeftSpace (String c s) = String c s.
Proof.
  intros Hc. pose proof Hc as [_ Hsp%negb_true_iff]%andb_true_iff.
  simpl. rewrite Hsp. destruct s as [|b s]; [done|].
  rewrite plain_space2_l by done. destruct s as [|d s]; [done|].
  by rewrite plain_space3_l.
Qed.

Lemma trimLeftSpaceRev_plain c s :
  plain c = true → trimLeftSpaceRev (String c s) = String c s.
Proof.
  intros Hc. pose proof Hc as [_ Hsp%negb_true_iff]%andb_true_iff.
  simpl. rewrite Hsp. destruct s as [|b s]; [done|].
  rewrite plain_space2_r by done. destruct s as [|d s]; [done|].
  by rewrite plain_space3_r.
Qed.

Lemma TrimSpace_plain s :
  s ≠ EmptyString → allBytes plain s = true → TrimSpace s = s.
Proof.
  intros Hne Hall. unfold TrimSpace, TrimRightSpace.
  destruct s as [|c s]; [done|].
  pose proof Hall as [Hc _]%andb_true_iff.
  rewrite TrimLeftSpace_plain by done.
  rewrite <- allBytes_rev in Hall.
  destruct (String.rev (String c s)) as [|x u] eqn:E.
  - apply (f_equal len) in E. rewrite len_rev in E. done.
  - apply andb_true_iff in Hall as [Hx _].
    rewrite trimLeftSpaceRev_plain by done.
    by rewrite <- E, rev_involutive.
Qed.

(** Trimming white space removes no plain byte. *)
Lemma TrimLeftSpace_hasByte c s :
  plain c = true → hasByte c (TrimLeftSpace s) = hasByte c s.
Proof.
  intros Hc.
  assert (∀ n s, (len s ≤ n)%nat → hasByte c (TrimLeftSpace s) = hasByte c s) as Hind.
  { clear s. induction n as [|n IH]; intros s Hn.
    { destruct s; [done | simpl in Hn; lia]. }
    destruct s as [|a r]; [done|]. simpl in Hn.
    assert (∀ x, plain x = false → (if decide (x = c) then true else hasByte c r)
                                     = hasByte c r) as Hskip.
    { intros x Hx. case_decide; [congruence | done]. }
    cbn [TrimLeftSpace].
    destruct (asciiSpace (code a)) eqn:Ea.
    { rewrite IH by lia. simpl. rewrite Hskip; [done|].
      unfold plain. by rewrite Ea, andb_false_r. }
    destruct r as [|b r2]; [done|].
    destruct (space2 (code a) (code b)) eqn:E2.
    { rewrite IH by (simpl in *; lia). simpl.
      rewrite decide_False by (intros ->; by rewrite plain_space2_l in E2).
      rewrite decide_False by (intros ->; by rewrite plain_space2_r in E2). done. }
    destruct r2 as [|d r3]; [done|].
    destruct (space3 (code a) (code b) (code d)) eqn:E3; [|done].
    rewrite IH by (simpl in *; lia). simpl.
    rewrite decide_False by (intros ->; by rewrite plain_space3_l in E3).
    assert (b ≠ c) as Hb.
    { intros ->. unfold plain, isASCII in Hc. apply andb_true_iff in Hc as [Hc _].
      apply N.ltb_lt in Hc. unfold space3 in E3.
      repeat (apply orb_true_iff in E3 as [E3|E3]);
        repeat (apply andb_true_iff in E3 as [E3 ?]);
        repeat match goal with H : (_ =? _)%N = true |- _ => apply N.eqb_eq in H end;
        lia. }
    rewrite decide_False by done.
    rewrite decide_False by (intros ->; by rewrite plain_space3_r in E3). done. }
  by apply (Hind (len s)).
Qed.

Lemma trimLeftSpaceRev_hasByte c s :
  plain c = true → hasByte c (trimLeftSpaceRev s) = hasByte c s.
Proof.
  intros Hc.
  assert (∀ n s, (len s ≤ n)%nat → hasByte c (trimLeftSpaceRev s) = hasByte c s) as Hind.
  { clear s. induction n as [|n IH]; intros s Hn.
    { destruct s; [done | simpl in Hn; lia]. }
    destruct s as [|a r]; [done|]. simpl in Hn.
    cbn [trimLeftSpaceRev].
    destruct (asciiSpace (code a)) eqn:Ea.
    { rewrite IH by lia. simpl. rewrite decide_False; [done|].
      intros ->. unfold plain in Hc. by rewrite Ea, andb_false_r in Hc. }
    destruct r as [|b r2]; [done|].
    destruct (space2 (code b) (code a)) eqn:E2.
    { rewrite IH by (simpl in *; lia). simpl.
      rewrite decide_False by (intros ->; by rewrite plain_space2_r in E2).
      rewrite decide_False by (intros ->; by rewrite plain_space2_l in E2). done. }
    destruct r2 as [|d r3]; [done|].
    destruct (space3 (code d) (code b) (code a)) eqn:E3; [|done].
    rewrite IH by (simpl in *; lia). simpl.
    rewrite decide_False by (intros ->; by rewrite plain_space3_r in E3).
    assert (b ≠ c) as Hb.
    { intros ->. unfold plain, isASCII in Hc. apply andb_true_iff in Hc as [Hc _].
      apply N.ltb_lt in Hc. unfold space3 in E3.
      repeat (apply orb_true_iff in E3 as [E3|E3]);
        repeat (apply andb_true_iff in E3 as [E3 ?]);
        repeat match goal with H : (_ =? _)%N = true |- _ => apply N.eqb_eq in H end;
        lia. }
    rewrite decide_False by done.
    rewrite decide_False by (intros ->; by rewrite plain_space3_l in E3). done. }
  by apply (Hind (len s)).
Qed.

Lemma TrimSpace_hasByte c s :
  plain c = true → hasByte c (TrimSpace s) = hasByte c s.
Proof.
  intros Hc. unfold TrimSpace, TrimRightSpace.
  by rewrite hasByte_rev, trimLeftSpaceRev_hasByte, hasByte_rev, TrimLeftSpace_hasByte.
Qed.

Lemma mapBytes_id f s :
  allBytes (λ c, bool_decide (f c = c)) s = true → mapBytes f s = s.
Proof.
  induction s as [|c s IH]; [done|]. simpl.
  intros [Hc%bool_decide_eq_true Hs]%andb_true_iff. by rewrite Hc, IH.
Qed.

Lemma hasByte_mapBytes f c s :
  f c = c → hasByte c s = true → hasByte c (mapBytes f s) = true.
Proof.
  intros Hc. induction s as [|x s IH]; [done|]. simpl.
  case_decide as Hx; [subst x; by rewrite Hc, decide_True|].
  intros Hs. case_decide; [done | by apply IH].
Qed.

End StringFacts.

(** ** WHOIS classification *)
Section WhoisClassify.
Import Strings Whois.
Context `{GoLib}.

Lemma firstNeedle_None l ps :
  firstNeedle l ps = None ↔ ∀ needle tag, (needle, tag) ∈ ps → Contains l needle = false.
Proof.
  induction ps as [|[n t] ps IH]; simpl.
  - split; [|done]. intros _ ?? Hin. by apply elem_of_nil in Hin.
  - destruct (Contains l n) eqn:E.
    + split; [done|]. intros Hall. specialize (Hall n t). rewrite E in Hall.
      discriminate Hall. left.
    + rewrite IH. split.
      * intros Hall needle tag [[= -> ->]|Hin]%elem_of_cons; [done|]. by eapply Hall.
      * intros Hall needle tag Hin. eapply Hall. by right.
Qed.

Lemma firstNeedle_Some l ps i needle tag :
  ps !! i = Some (needle, tag) →
  Contains l needle = true →
  (∀ j needle' tag', (j < i)%nat → ps !! j = Some (needle', tag') →
                     Contains l needle' = false) →
  firstNeedle l ps = Some tag.
Proof.
  revert i. induction ps as [|[n t] ps IH]; intros i Hi Hc Hbefore; [done|].
  destruct i as [|i]; simpl in *.
  - injection Hi as -> ->. by rewrite Hc.
  - rewrite (Hbefore 0%nat n t); [|lia|done].
    apply (IH i); [done..|].
    intros j n' t' Hj Hl. apply (Hbefore (S j) n' t'); [lia | done].
Qed.

Lemma firstMatch_None body res :
  firstMatch body res = None ↔ ∀ re, re ∈ res → regexp_match re body = false.
Proof.
  induction res as [|re res IH]; simpl.
  - split; [|done]. intros _ ? Hin. by apply elem_of_nil in Hin.
  - destruct (regexp_match re body) eqn:E.
    + split; [done|]. intros Hall. specialize (Hall re). rewrite E in Hall.
      discriminate Hall. left.
    + rewrite IH. split.
      * intros Hall re' [->|Hin]%elem_of_cons; [done|]. by apply Hall.
      * intros Hall re' Hin. apply Hall. by right.
Qed.

Lemma firstMatch_Some body res re :
  firstMatch body res = Some re → re ∈ res ∧ regexp_match re body = true.
Proof.
  induction res as [|re' res IH]; simpl; [done|].
  destruct (regexp_match re' body) eqn:E.
  - intros [= ->]. split; [left | done].
  - intros [Hin Hm]%IH. split; [by right | done].
Qed.

End WhoisClassify.

(** C1. WHOIS classification of a body for a domain goes in this order.
    The body is lowercased.  If it contains a needle of the ordered list
    of not-found needles, the answer is [available] with the tag of the
    first needle of the list that it contains.  Otherwise, if one of the
    three case-insensitive multiline expressions
    [^domain name:\s*<d>\s*$], [^domain:\s*<d>\s*$], [^domain\s*:\s*<d>\s*$]
    matches the body in its original case, the answer is [taken].
    Otherwise, if the lowercased body contains [domain name:] or
    [registrar:], the answer is [taken] with the tag
    [heuristic_record_fields].  Otherwise it is [unknown]. *)
Theorem classify_order `{GoLib} (d b : string) :
  let l := Strings.ToLower b in
  let noNeedle :=
    ∀ needle tag, (needle, tag) ∈ Whois.notFoundPatterns →
                  Strings.Contains l needle = false in
  let noRecord :=
    ∀ re, re ∈ Whois.recordPatterns d → regexp_match re b = false in
  Whois.notFoundPatterns
  = [ ("no match for", "no_match_for"); ("no data found", "no_data_found");
      ("no entries found", "no_entries_found");
      ("domain not found", "domain_not_found");
      ("no such domain", "no_such_domain"); ("status: free", "status_free");
      ("not found", "not_found") ] ∧
  Whois.recordPatterns d
  = [ "(?im)^domain name:\s*" +:+ Regexp.QuoteMeta d +:+ "\s*$";
      "(?im)^domain:\s*" +:+ Regexp.QuoteMeta d +:+ "\s*$";
      "(?im)^domain\s*:\s*" +:+ Regexp.QuoteMeta d +:+ "\s*$" ] ∧
  (∀ i needle tag,
     Whois.notFoundPatterns !! i = Some (needle, tag) →
     Strings.Contains l needle = true →
     (∀ j needle' tag', (j < i)%nat →
        Whois.notFoundPatterns !! j = Some (needle', tag') →
        Strings.Contains l needle' = false) →
     Whois.classify d b = ("available", tag)) ∧
  (noNeedle →
   ∀ re, re ∈ Whois.recordPatterns d → regexp_match re b = true →
   ∃ re', re' ∈ Whois.recordPatterns d ∧ regexp_match re' b = true ∧
          Whois.classify d b = ("taken", re')) ∧
  (noNeedle → noRecord →
   Strings.Contains l "domain name:" = true ∨ Strings.Contains l "registrar:" = true →
   Whois.classify d b = ("taken", "heuristic_record_fields")) ∧
  (noNeedle → noRecord →
   Strings.Contains l "domain name:" = false →
   Strings.Contains l "registrar:" = false →
   Whois.classify d b = ("unknown", EmptyString)).
Proof.
  intros l noNeedle noRecord. subst noNeedle noRecord.
  split; [reflexivity|]. split; [reflexivity|].
  unfold Whois.classify. fold l. repeat split.
  - intros i needle tag Hi Hc Hbefore.
    by rewrite (firstNeedle_Some l _ i needle tag Hi Hc Hbefore).
  - intros Hno%firstNeedle_None re Hin Hm. rewrite Hno.
    destruct (Whois.firstMatch b (Whois.recordPatterns d)) as [re'|] eqn:E.
    + apply firstMatch_Some in E as [Hin' Hm']. by exists re'.
    + rewrite firstMatch_None in E. rewrite (E re Hin) in Hm. discriminate Hm.
  - intros Hno%firstNeedle_None Hnr%firstMatch_None Hh. rewrite Hno, Hnr.
    by destruct Hh as [-> | ->]; [|rewrite orb_true_r].
  - intros Hno%firstNeedle_None Hnr%firstMatch_None H1 H2.
    by rewrite Hno, Hnr, H1, H2.
Qed.

(** The two cases of [whois_test.go], with the expressions run by
    [StandIn.matches]. *)
Example classify_test_available :
  Whois.classify (H := StandIn.lib) "example.com"
    ("No match for " +:+ StandIn.quote "EXAMPLE.COM" +:+ ".")
  = ("available", "no_match_for").
Proof. reflexivity. Qed.

Example classify_test_taken :
  Whois.classify (H := StandIn.lib) "example.com"
    ("Domain Name: example.com" +:+ String "010" "Registrar: Example Registrar"
     +:+ String "010" EmptyString)
  = ("taken", "(?im)^domain name:\s*example\.com\s*$").
Proof. reflexivity. Qed.

(** ** WHOIS pacing *)
Section WhoisPacing.
Import Whois.
Local Open Scope Z_scope.

Lemma NewClient_minDelay_pos o : 0 < MinDelayPerServer (opts (NewClient o)).
Proof.
  unfold NewClient; simpl. case_decide; [reflexivity | lia].
Qed.

Lemma reserve_max d now st :
  reserve d now st
  = (Z.max now (next st), {| semCap := semCap st; next := Z.max now (next st) + d |}).
Proof.
  unfold reserve. case_decide.
  - rewrite Z.max_r by lia. reflexivity.
  - rewrite Z.max_l by lia. reflexivity.
Qed.

Lemma nextOf_insert o cache states server st :
  nextOf {| opts := o; tldToServer := cache;
            serverState := <[server := st]> states |} server = next st.
Proof.
  unfold nextOf, stateForServer; simpl. by rewrite lookup_insert_eq.
Qed.

Lemma nextOf_insert_ne o cache states server server' st :
  server ≠ server' →
  nextOf {| opts := o; tldToServer := cache;
            serverState := <[server := st]> states |} server'
  = nextOf {| opts := o; tldToServer := cache; serverState := states |} server'.
Proof.
  intros Hne. unfold nextOf, stateForServer; simpl.
  rewrite lookup_insert_ne by done. by destruct (states !! server').
Qed.

Lemma stateForServer_next c server server' :
  nextOf (stateForServer c server).2 server' = nextOf c server'.
Proof.
  unfold stateForServer at 1.
  destruct (serverState c !! server) as [st|] eqn:E; simpl; [done|].
  destruct (decide (server = server')) as [<-|Hne].
  - rewrite nextOf_insert. unfold nextOf, stateForServer. by rewrite E.
  - rewrite nextOf_insert_ne by done. by destruct c.
Qed.

Lemma stateForServer_opts c server : opts (stateForServer c server).2 = opts c.
Proof.
  unfold stateForServer. by destruct (serverState c !! server).
Qed.

(** One call for [server]: the [next] of any other server stays; without
    a reservation that of [server] stays too; with one, the slot is
    [max now next] and [next] moves [minDelay] past it. *)
Lemma queryOnce_slot c server a :
  0 < MinDelayPerServer (opts c) →
  let '(_, slot, c') := queryOnce c server a in
  opts c' = opts c ∧
  (∀ server', server' ≠ server → nextOf c' server' = nextOf c server') ∧
  match slot with
  | None => ctxDoneAtSem a ≠ None ∧ nextOf c' server = nextOf c server
  | Some s =>
      ctxDoneAtSem a = None ∧
      s = Z.max (now a) (nextOf c server) ∧
      nextOf c' server = s + MinDelayPerServer (opts c)
  end.
Proof.
  intros Hpos. unfold queryOnce.
  pose proof (stateForServer_next c server) as Hn.
  pose proof (stateForServer_opts c server) as Ho.
  assert (next (stateForServer c server).1 = nextOf c server) as Hst by done.
  destruct (stateForServer c server) as [st c1]; simpl in *.
  destruct (ctxDoneAtSem a) as [err|] eqn:Ectx.
  - split; [done|]. split; [intros; apply Hn|]. split; [done|]. apply Hn.
  - rewrite Ho. case_decide; [|lia].
    assert ((if decide (now a < next st) then next st else now a)
            = Z.max (now a) (nextOf c server)) as ->
      by (rewrite <- Hst; case_decide; lia).
    assert (∀ server', server' ≠ server →
              nextOf {| opts := opts c; tldToServer := tldToServer c1;
                        serverState :=
                          <[server := {| semCap := semCap st;
                                         next := Z.max (now a) (nextOf c server)
                                                 + MinDelayPerServer (opts c) |}]>
                            (serverState c1) |} server'
              = nextOf c server') as Hother.
    { intros server' Hne. rewrite nextOf_insert_ne by done.
      rewrite <- Hn, <- Ho. by destruct c1. }
    destruct (sleepErr a); simpl;
      (split; [done|]; split; [exact Hother|]; split; [done|]; split; [done|]);
      by rewrite nextOf_insert.
Qed.

Lemma queryMany_opts c calls :
  0 < MinDelayPerServer (opts c) →
  opts (queryMany c calls).2 = opts c.
Proof.
  revert c. induction calls as [|[server a] calls IH]; intros c Hpos; [done|].
  simpl. pose proof (queryOnce_slot c server a Hpos) as H1.
  destruct (queryOnce c server a) as [[res slot] c1].
  destruct H1 as [Ho _].
  specialize (IH c1). rewrite Ho in IH. specialize (IH Hpos).
  destruct (queryMany c1 calls) as [slots c2]. simpl in *. done.
Qed.

(** [next] never moves back over a call. *)
Lemma queryOnce_next c server a server' :
  0 < MinDelayPerServer (opts c) →
  nextOf c server' ≤ nextOf (queryOnce c server a).2 server'.
Proof.
  intros Hpos. pose proof (queryOnce_slot c server a Hpos) as H1.
  destruct (queryOnce c server a) as [[res slot] c1]. simpl.
  destruct H1 as (_ & Hother & Hslot).
  destruct (decide (server' = server)) as [->|Hne]; [|rewrite Hother by done; lia].
  destruct slot as [s|].
  - destruct Hslot as (_ & -> & ->). lia.
  - destruct Hslot as [_ ->]. lia.
Qed.

(** Every slot that a run reserves for [server] lies at or after the
    [next] that the run starts from, and [next] never moves back. *)
Lemma queryMany_next c calls server :
  0 < MinDelayPerServer (opts c) →
  nextOf c server ≤ nextOf (queryMany c calls).2 server ∧
  Forall (λ s, nextOf c server ≤ s) (reserved server (queryMany c calls).1).
Proof.
  revert c. induction calls as [|[server0 a] calls IH]; intros c Hpos.
  { simpl. split; [lia | constructor]. }
  simpl. pose proof (queryOnce_slot c server0 a Hpos) as H1.
  pose proof (queryOnce_next c server0 a server Hpos) as Hmono.
  destruct (queryOnce c server0 a) as [[res slot] c1].
  destruct H1 as (Ho & Hother & H1). simpl in Hmono.
  specialize (IH c1). rewrite Ho in IH. specialize (IH Hpos).
  destruct (queryMany c1 calls) as [slots c2]. simpl in *.
  destruct IH as [IH1 IH2]. split; [lia|].
  unfold reserved in *. simpl.
  assert (Forall (λ s, nextOf c server ≤ s)
            (omap (λ p, if decide (p.1 = server) then p.2 else None) slots)) as Hrest.
  { eapply Forall_impl; [exact IH2|]. simpl. intros; lia. }
  case_decide as Hs; [|done]. subst server0.
  destruct slot as [s|]; simpl; [|done].
  destruct H1 as (_ & -> & _). constructor; [lia | done].
Qed.

Lemma queryMany_gaps c calls server :
  0 < MinDelayPerServer (opts c) →
  ∀ i s1 s2,
    reserved server (queryMany c calls).1 !! i = Some s1 →
    reserved server (queryMany c calls).1 !! S i = Some s2 →
    s1 + MinDelayPerServer (opts c) ≤ s2.
Proof.
  revert c. induction calls as [|[server0 a] calls IH]; intros c Hpos i s1 s2.
  { simpl. done. }
  simpl. pose proof (queryOnce_slot c server0 a Hpos) as H1.
  destruct (queryOnce c server0 a) as [[res slot] c1].
  destruct H1 as (Ho & _ & H1).
  pose proof (queryMany_next c1 calls server) as Hnext.
  specialize (IH c1). rewrite Ho in IH, Hnext.
  specialize (IH Hpos). specialize (Hnext Hpos) as [_ Hall].
  destruct (queryMany c1 calls) as [slots c2]. simpl in *.
  unfold reserved in *. simpl.
  case_decide as Hs; [|apply IH]. subst server0.
  destruct slot as [s|]; simpl; [|apply IH].
  destruct H1 as (_ & Hs & Hn). destruct i as [|i]; simpl.
  - intros [= <-] H2. rewrite Forall_lookup in Hall.
    specialize (Hall 0%nat s2 H2). simpl in Hall. lia.
  - apply IH.
Qed.

(** A call whose context is done at the semaphore returns the error of
    the context and reserves nothing; any other call reserves a slot, and
    only then sleeps and goes to the network. *)
Lemma queryOnce_result c server a :
  0 < MinDelayPerServer (opts c) →
  let '(res, slot, _) := queryOnce c server a in
  match ctxDoneAtSem a with
  | Some err => res = inr err ∧ slot = None
  | None =>
      slot = Some (Z.max (now a) (nextOf c server)) ∧
      res = match sleepErr a with
            | Some err => inr err
            | None => netResult a
            end
  end.
Proof.
  intros Hpos. unfold queryOnce.
  pose proof (stateForServer_opts c server) as Ho.
  assert (next (stateForServer c server).1 = nextOf c server) as Hst by done.
  destruct (stateForServer c server) as [st c1]; simpl in *.
  destruct (ctxDoneAtSem a) as [err|]; [done|].
  rewrite Ho. case_decide; [|lia].
  assert ((if decide (now a < next st) then next st else now a)
          = Z.max (now a) (nextOf c server)) as ->
    by (rewrite <- Hst; case_decide; lia).
  by destruct (sleepErr a).
Qed.

(** The slots reserved for [server] are as many as the calls to it that
    pass the semaphore. *)
Lemma queryMany_reserved_count c calls server :
  0 < MinDelayPerServer (opts c) →
  length (reserved server (queryMany c calls).1)
  = length (filter (λ p, p.1 = server ∧ ctxDoneAtSem p.2 = None) calls).
Proof.
  revert c. induction calls as [|[called a] calls IH]; intros c Hpos; [done|].
  simpl. pose proof (queryOnce_slot c called a Hpos) as H1.
  pose proof (queryOnce_result c called a Hpos) as H2.
  destruct (queryOnce c called a) as [[res slot] c1].
  destruct H1 as [Ho _].
  specialize (IH c1). rewrite Ho in IH. specialize (IH Hpos).
  destruct (queryMany c1 calls) as [slots c2]. simpl in *.
  unfold reserved in *. cbn [omap list_omap fst snd].
  destruct (decide (called = server)) as [->|Hne].
  - destruct (ctxDoneAtSem a) as [err|] eqn:Ectx.
    + destruct H2 as [_ ->].
      rewrite filter_cons_False; [exact IH|]. simpl. intros [_ ?]. congruence.
    + destruct H2 as [-> _].
      rewrite filter_cons_True by done. simpl. by rewrite IH.
  - rewrite filter_cons_False; [exact IH|]. simpl. by intros [? _].
Qed.

End WhoisPacing.

(** C7. For every per-server pacing state of a client made by [NewClient]:
    [min_delay] is strictly positive; every reservation computes
    [scheduled = max(now, next_start)] and sets
    [next_start := scheduled + min_delay]; over any run of calls, to this
    server and to others in any order, every call reserves a slot before
    it sleeps and goes to the network, but for a call whose context is
    done at the semaphore, which returns the error of the context;
    [next_start] never decreases; the slots reserved for the server are
    as many as the calls to it that pass the semaphore, and each is at
    least the slot before it plus [min_delay]. *)
Theorem whois_pacing_invariant (o : Whois.Options)
    (cache : gmap string string) (states : gmap string Whois.perServerState)
    (calls : list (string * Whois.attempt)) (server : string) :
  let c := {| Whois.opts := Whois.opts (Whois.NewClient o);
              Whois.tldToServer := cache; Whois.serverState := states |} in
  let minDelay := Whois.MinDelayPerServer (Whois.opts c) in
  (0 < minDelay)%Z ∧
  (∀ now st,
     Whois.reserve minDelay now st
     = (Z.max now (Whois.next st),
        {| Whois.semCap := Whois.semCap st;
           Whois.next := (Z.max now (Whois.next st) + minDelay)%Z |})) ∧
  (∀ before called a after, calls = before ++ (called, a) :: after →
     let c1 := (Whois.queryMany c before).2 in
     let '(res, slot, c2) := Whois.queryOnce c1 called a in
     match Whois.ctxDoneAtSem a with
     | Some err => res = inr err ∧ slot = None
     | None =>
         slot = Some (Z.max (Whois.now a) (Whois.nextOf c1 called)) ∧
         res = match Whois.sleepErr a with
               | Some err => inr err
               | None => Whois.netResult a
               end
     end ∧
     (Whois.nextOf c1 server ≤ Whois.nextOf c2 server)%Z ∧
     (called = server →
      match slot with
      | Some s => s = Z.max (Whois.now a) (Whois.nextOf c1 server)
                  ∧ Whois.nextOf c2 server = (s + minDelay)%Z
      | None => Whois.nextOf c2 server = Whois.nextOf c1 server
      end)) ∧
  length (Whois.reserved server (Whois.queryMany c calls).1)
  = length (filter (λ p, p.1 = server ∧ Whois.ctxDoneAtSem p.2 = None) calls) ∧
  (∀ i s1 s2,
     Whois.reserved server (Whois.queryMany c calls).1 !! i = Some s1 →
     Whois.reserved server (Whois.queryMany c calls).1 !! S i = Some s2 →
     (s1 + minDelay ≤ s2)%Z).
Proof.
  intros c minDelay.
  assert (0 < minDelay)%Z as Hpos by apply NewClient_minDelay_pos.
  split; [exact Hpos|]. split; [intros; apply reserve_max|]. split; [|split].
  - intros before called a after _. simpl.
    pose proof (queryMany_opts c before Hpos) as Ho.
    set (c1 := (Whois.queryMany c before).2) in *.
    assert (0 < Whois.MinDelayPerServer (Whois.opts c1))%Z as Hpos1
      by (rewrite Ho; exact Hpos).
    pose proof (queryOnce_slot c1 called a Hpos1) as H1.
    pose proof (queryOnce_result c1 called a Hpos1) as Hres.
    pose proof (queryOnce_next c1 called a server Hpos1) as Hmono.
    destruct (Whois.queryOnce c1 called a) as [[res slot] c2].
    destruct H1 as (_ & _ & H1). split; [exact Hres|]. split; [exact Hmono|].
    intros ->. destruct slot as [s|].
    + destruct H1 as (_ & Hs & Hn). rewrite Ho in Hn. done.
    + by destruct H1 as [_ Hn].
  - apply (queryMany_reserved_count c calls server Hpos).
  - apply (queryMany_gaps c calls server Hpos).
Qed.

(** Three calls to one server, the second while the first slot is still
    ahead, with a call to another server in between. *)
Example whois_pacing_run :
  let call t := {| Whois.ctxDoneAtSem := None; Whois.now := t;
                   Whois.sleepErr := None; Whois.netResult := inl EmptyString |} in
  let c := Whois.NewClient
             {| Whois.Timeout := 0; Whois.Verbose := false;
                Whois.MaxConcurrentPerServer := 0; Whois.MinDelayPerServer := 0;
                Whois.Retries := 0; Whois.Backoff := 0 |} in
  Whois.reserved "whois.nic.io"
    (Whois.queryMany c [ ("whois.nic.io", call 1000%Z); ("whois.nic.io", call 2000%Z);
                         ("whois.denic.de", call 3000%Z);
                         ("whois.nic.io", call 900000000%Z) ]).1
  = [1000; 250001000; 900000000]%Z.
Proof. reflexivity. Qed.

(** ** WHOIS server discovery *)

(** C10 (the source departs from it). A reply of whois.iana.org that
    holds a [whois:] line with an empty value, here the second of three
    lines, makes [serverForTLD] index the empty result of
    [strings.Fields]: the call panics instead of returning a server or an
    error.  A [whois:] line with a value is read as intended. *)
Theorem serverForTLD_empty_value_panics `{GoLib} (o : Whois.Options) :
  let nl := String "010" EmptyString in
  let reply := "domain:       EXAMPLE" +:+ nl +:+ "whois:" +:+ nl
               +:+ "status:       ACTIVE" +:+ nl in
  let blank := "whois:    " +:+ nl in
  let good := "whois:        whois.nic.example" +:+ nl in
  (Whois.serverForTLD (λ _ _, inl reply) (Whois.NewClient o) "example").1
  = Panic "index out of range [0] with length 0" ∧
  (Whois.serverForTLD (λ _ _, inl blank) (Whois.NewClient o) "example").1
  = Panic "index out of range [0] with length 0" ∧
  (Whois.serverForTLD (λ _ _, inl good) (Whois.NewClient o) "example").1
  = Ret "whois.nic.example".
Proof. repeat split; reflexivity. Qed.

(** ** RDAP lookup *)
Section RdapLookup.
Import Strings Rdap.
Context `{GoLib} {World : Type}.
Context (httpGet : string → World → exchange * World).
Context (getBootstrap : World → (bootstrap + string) * World).

Lemma lookupOne_response base domain w code w' :
  httpGet (requestURL base domain) w = (Response code, w') →
  Rdap.lookupOne httpGet base domain w
  = ({| Status := if decide (code = 200%Z) then "taken"
                  else if decide (code = 404%Z) then "available" else "unknown";
        Confidence := if decide (code = 200%Z ∨ code = 404%Z) then "high" else "low";
        Reason := "rdap " +:+ (if decide (code = 200%Z ∨ code = 404%Z) then EmptyString
                               else "http ") +:+ Fmt.itoa code;
        URL := requestURL base domain;
        HTTPStatus := code;
        Err := if decide (code = 200%Z ∨ code = 404%Z) then None
               else Some ("rdap http " +:+ Fmt.itoa code) |}, w').
Proof.
  intros Hget. unfold Rdap.lookupOne. fold (requestURL base domain). rewrite Hget.
  repeat case_decide; subst; try lia; try reflexivity; exfalso; tauto.
Qed.

(** An evidence of [lookupOne] that is unknown carries an error. *)
Lemma lookupOne_unknown_err base domain w :
  Status (Rdap.lookupOne httpGet base domain w).1 = "unknown" →
  is_Some (Err (Rdap.lookupOne httpGet base domain w).1).
Proof.
  unfold Rdap.lookupOne.
  destruct (httpGet _ w) as [[err|err|code] w']; simpl; [by eexists..|].
  repeat case_decide; simpl; try discriminate; by eexists.
Qed.

Lemma tryURLs_terminal urls domain lastErr w i ev wi :
  Rdap.lookupAll httpGet urls domain w !! i = Some (ev, wi) →
  Status ev ≠ "unknown" →
  (∀ j ev' w', (j < i)%nat → Rdap.lookupAll httpGet urls domain w !! j = Some (ev', w') →
               Status ev' = "unknown") →
  Rdap.tryURLs httpGet urls domain lastErr w = (ev, wi).
Proof.
  revert lastErr w i.
  induction urls as [|base urls IH]; intros lastErr w i Hi Hev Hbefore; [done|].
  simpl in *. destruct (Rdap.lookupOne httpGet base domain w) as [ev0 w0] eqn:E0.
  destruct i as [|i]; simpl in *.
  - injection Hi as -> ->. by rewrite decide_True.
  - rewrite decide_False; last first.
    { intros Hne. apply Hne. by apply (Hbefore 0%nat ev0 w0); [lia|]. }
    apply (IH _ _ i); [done..|].
    intros j ev' w' Hj Hl. apply (Hbefore (S j) ev' w'); [lia | done].
Qed.

Lemma tryURLs_all_unknown urls domain lastErr w :
  (∀ j ev' w', Rdap.lookupAll httpGet urls domain w !! j = Some (ev', w') →
               Status ev' = "unknown") →
  Rdap.tryURLs httpGet urls domain lastErr w
  = ({| Status := "unknown"; Confidence := "low"; Reason := "rdap lookup failed";
        URL := EmptyString; HTTPStatus := 0;
        Err := match last (Rdap.lookupAll httpGet urls domain w) with
               | Some (ev, _) => Err ev
               | None => lastErr
               end |},
     match last (Rdap.lookupAll httpGet urls domain w) with
     | Some (_, w') => w'
     | None => w
     end).
Proof.
  revert lastErr w.
  induction urls as [|base urls IH]; intros lastErr w Hall; [done|].
  simpl in *.
  pose proof (lookupOne_unknown_err base domain w) as Herr.
  destruct (Rdap.lookupOne httpGet base domain w) as [ev0 w0] eqn:E0. simpl in *.
  pose proof (Hall 0%nat ev0 w0 eq_refl) as Hu0.
  destruct (Herr Hu0) as [e He].
  rewrite decide_False by (intros Hne; by apply Hne).
  rewrite IH; last first.
  { intros j ev' w' Hl. by apply (Hall (S j) ev' w'). }
  rewrite He, last_cons.
  destruct (last (Rdap.lookupAll httpGet urls domain w0)) as [[??]|]; simpl; by rewrite ?He.
Qed.

Lemma lookupAll_length urls domain w :
  length (Rdap.lookupAll httpGet urls domain w) = length urls.
Proof.
  revert w. induction urls as [|base urls IH]; intros w; [done|].
  simpl. destruct (Rdap.lookupOne httpGet base domain w). simpl. by rewrite IH.
Qed.

Lemma lookupAll_unknown_err urls domain w j ev w' :
  Rdap.lookupAll httpGet urls domain w !! j = Some (ev, w') →
  Status ev = "unknown" → is_Some (Err ev).
Proof.
  revert w j. induction urls as [|base urls IH]; intros w j; [done|].
  simpl. pose proof (lookupOne_unknown_err base domain w) as Herr.
  destruct (Rdap.lookupOne httpGet base domain w) as [ev0 w0]. destruct j as [|j]; simpl.
  - intros [= -> ->]. exact Herr.
  - apply IH.
Qed.

(** The candidates are asked in the order of the list, each in the
    world that the one before it left. *)
Lemma lookupAll_order urls domain w i base :
  urls !! i = Some base →
  Rdap.lookupAll httpGet urls domain w !! i
  = Some (Rdap.lookupOne httpGet base domain
            match i with
            | O => w
            | S j => match Rdap.lookupAll httpGet urls domain w !! j with
                     | Some (_, wj) => wj
                     | None => w
                     end
            end).
Proof.
  revert w i. induction urls as [|base0 urls IH]; intros w i Hi; [done|].
  simpl. destruct (Rdap.lookupOne httpGet base0 domain w) as [ev0 w0] eqn:E0.
  destruct i as [|j]; simpl in *.
  - injection Hi as <-. by rewrite E0.
  - rewrite (IH w0 j Hi). destruct j as [|k]; simpl; [done|].
    destruct (Rdap.lookupAll httpGet urls domain w0 !! k) as [[ev wk]|] eqn:Ek; [done|].
    apply lookup_ge_None in Ek. rewrite lookupAll_length in Ek.
    apply lookup_lt_Some in Hi. lia.
Qed.

End RdapLookup.

(** C2. Each candidate's HTTP response is mapped so: status 200 gives
    [taken], [high], [rdap 200]; status 404 gives [available], [high],
    [rdap 404]; any other status gives [unknown], [low],
    [rdap http <code>]; the evidence names the URL asked, the base
    without its final slashes followed by [/domain/] and the escaped
    name.  The candidates are the URLs that the bootstrap registry holds
    for the lowercased TLD of the name; they are tried in the order of
    that entry, each in the world that the one before it left; the first
    evidence that is not unknown is returned at once, with no further
    request; when every candidate gives unknown, the evidence returned is
    unknown and carries the error of the last candidate; without a
    candidate no request is made. *)
Theorem rdap_lookup_policy `{GoLib} {World : Type}
    (httpGet : string → World → Rdap.exchange * World)
    (getBootstrap : World → (Rdap.bootstrap + string) * World)
    (domain : string) (w : World) :
  (∀ base code w',
     httpGet (Strings.TrimRightByte base "/" +:+ "/domain/" +:+ Fmt.PathEscape domain) w
     = (Rdap.Response code, w') →
     let ev := (Rdap.lookupOne httpGet base domain w).1 in
     Rdap.URL ev
     = Strings.TrimRightByte base "/" +:+ "/domain/" +:+ Fmt.PathEscape domain ∧
     Rdap.HTTPStatus ev = code ∧
     (Rdap.lookupOne httpGet base domain w).2 = w' ∧
     (code = 200%Z →
        Rdap.Status ev = "taken" ∧ Rdap.Confidence ev = "high" ∧
        Rdap.Reason ev = "rdap 200") ∧
     (code = 404%Z →
        Rdap.Status ev = "available" ∧ Rdap.Confidence ev = "high" ∧
        Rdap.Reason ev = "rdap 404") ∧
     (code ≠ 200%Z → code ≠ 404%Z →
        Rdap.Status ev = "unknown" ∧ Rdap.Confidence ev = "low" ∧
        Rdap.Reason ev = "rdap http " +:+ Fmt.itoa code)) ∧
  (∀ bs w1,
     Rdap.lastLabel domain ≠ EmptyString →
     getBootstrap w = (inl bs, w1) →
     let urls :=
       match Rdap.tldToURLs bs !! Strings.ToLower (Rdap.lastLabel domain) with
       | Some entry => entry
       | None => []
       end in
     let tried := Rdap.lookupAll httpGet urls domain w1 in
     let worldBefore i :=
       match i with
       | O => w1
       | S j => match tried !! j with Some (_, wj) => wj | None => w1 end
       end in
     let result := Rdap.LookupDomain httpGet getBootstrap domain w in
     length tried = length urls ∧
     (∀ i base, urls !! i = Some base →
        tried !! i = Some (Rdap.lookupOne httpGet base domain (worldBefore i))) ∧
     (urls = [] →
      result = ({| Rdap.Status := "unknown"; Rdap.Confidence := "low";
                   Rdap.Reason := "no rdap service for tld";
                   Rdap.URL := EmptyString; Rdap.HTTPStatus := 0;
                   Rdap.Err := None |}, w1)) ∧
     (∀ i ev wi,
        tried !! i = Some (ev, wi) →
        Rdap.Status ev ≠ "unknown" →
        (∀ j ev' w', (j < i)%nat → tried !! j = Some (ev', w') →
                     Rdap.Status ev' = "unknown") →
        result = (ev, wi)) ∧
     (urls ≠ [] →
      (∀ j ev' w', tried !! j = Some (ev', w') → Rdap.Status ev' = "unknown") →
      ∃ evLast wLast err,
        last tried = Some (evLast, wLast) ∧
        Rdap.Err evLast = Some err ∧
        result = ({| Rdap.Status := "unknown"; Rdap.Confidence := "low";
                     Rdap.Reason := "rdap lookup failed";
                     Rdap.URL := EmptyString; Rdap.HTTPStatus := 0;
                     Rdap.Err := Some err |}, wLast))).
Proof.
  split.
  - intros base code w' Hget ev. subst ev.
    change (Strings.TrimRightByte base "/" +:+ "/domain/" +:+ Fmt.PathEscape domain)
      with (Rdap.requestURL base domain) in *.
    rewrite (lookupOne_response _ _ _ _ _ _ Hget). simpl.
    repeat split; intros; repeat case_decide; subst; try lia; try reflexivity;
      exfalso; tauto.
  - intros bs w1 Htld Hbs urls tried worldBefore result.
    assert (Rdap.urlsForTLD bs (Rdap.lastLabel domain) = urls) as Hurls.
    { unfold Rdap.urlsForTLD. subst urls. by destruct (_ !! _). }
    assert (urls ≠ [] → result = Rdap.tryURLs httpGet urls domain None w1) as Hres.
    { intros Hne. subst result. unfold Rdap.LookupDomain.
      rewrite decide_False by done. rewrite Hbs, Hurls.
      rewrite decide_False; [done|]. by destruct urls. }
    split; [apply lookupAll_length|]. split; [|split; [|split]].
    + intros i base Hi. subst worldBefore tried. simpl.
      by apply lookupAll_order.
    + intros Hnil. subst result. unfold Rdap.LookupDomain.
      rewrite decide_False by done. rewrite Hbs, Hurls, Hnil. done.
    + intros i ev wi Hi Hev Hbefore.
      rewrite Hres; [by eapply tryURLs_terminal|].
      intros Hnil. subst tried. rewrite Hnil in Hi. done.
    + intros Hne Hall. rewrite (Hres Hne).
      rewrite (tryURLs_all_unknown _ _ _ _ _ Hall). fold tried.
      destruct (last tried) as [[evLast wLast]|] eqn:El.
      * apply last_Some in El as [pre El].
        assert (tried !! length pre = Some (evLast, wLast)) as Hl.
        { rewrite El. apply list_lookup_middle. done. }
        destruct (lookupAll_unknown_err _ _ _ _ _ _ _ Hl (Hall _ _ _ Hl)) as [err He].
        exists evLast, wLast, err. by rewrite He.
      * apply last_None in El. subst tried.
        apply (f_equal length) in El. rewrite lookupAll_length in El.
        by destruct urls.
Qed.

(** The scenario of the specification, by the theorem: the registry
    holds one URL for [com], and the server answers 404. *)
Lemma rdap_lookup_policy_witness :
  let bs := {| Rdap.tldToURLs := {[ "com" := ["https://rdap.example/"] ]} |} in
  let httpGet := λ (_ : string) (w : unit), (Rdap.Response 404, w) in
  let getBootstrap := λ w : unit, (@inl Rdap.bootstrap string bs, w) in
  Rdap.LookupDomain (H := StandIn.lib) httpGet getBootstrap "example.COM" ()
  = ({| Rdap.Status := "available"; Rdap.Confidence := "high";
        Rdap.Reason := "rdap 404";
        Rdap.URL := "https://rdap.example/domain/example.COM";
        Rdap.HTTPStatus := 404; Rdap.Err := None |}, ()).
Proof.
  intros bs httpGet getBootstrap.
  destruct (rdap_lookup_policy (H := StandIn.lib) httpGet getBootstrap
              "example.COM" ()) as [_ Hlookup].
  destruct (Hlookup bs ()) as (_ & _ & _ & Hfirst & _); [done | reflexivity |].
  apply (Hfirst 0%nat); [reflexivity | done | intros j ev' w' Hj; lia].
Defined.

(** The scenario of the specification: a stub that answers 404. *)
Example rdap_404_available :
  let bs := {| Rdap.tldToURLs := {[ "com" := ["https://rdap.example/"] ]} |} in
  let ev := (Rdap.LookupDomain (H := StandIn.lib)
               (λ _ (w : unit), (Rdap.Response 404, w))
               (λ w, (inl bs, w)) "example.com" ()).1 in
  Rdap.Status ev = "available" ∧ Rdap.Confidence ev = "high" ∧
  Rdap.Reason ev = "rdap 404" ∧
  Rdap.URL ev = "https://rdap.example/domain/example.com".
Proof. vm_compute. done. Qed.

(** Two candidate base URLs, answered from a script of responses: the
    first answer is consumed by the first candidate, the second by the
    second.  A 500 and then a 404 give the evidence of the second
    candidate; a 500 and then a transport error give the last error. *)
Example rdap_fallthrough :
  let bs := {| Rdap.tldToURLs := {[ "com" := ["https://a.example"; "https://b.example/"] ]} |} in
  let httpGet := λ (_ : string) (script : list Rdap.exchange),
    match script with
    | [] => (Rdap.TransportError "no answer", [])
    | x :: rest => (x, rest)
    end in
  let run := λ script,
    (Rdap.LookupDomain (H := StandIn.lib) httpGet (λ w, (inl bs, w))
       "Example.COM" script).1 in
  (Rdap.Status (run [Rdap.Response 500; Rdap.Response 404]) = "available" ∧
   Rdap.URL (run [Rdap.Response 500; Rdap.Response 404])
     = "https://b.example/domain/Example.COM") ∧
  (Rdap.Status (run [Rdap.Response 200; Rdap.Response 404]) = "taken" ∧
   Rdap.URL (run [Rdap.Response 200; Rdap.Response 404])
     = "https://a.example/domain/Example.COM") ∧
  (Rdap.Status (run [Rdap.Response 500; Rdap.TransportError "reset"]) = "unknown" ∧
   Rdap.Reason (run [Rdap.Response 500; Rdap.TransportError "reset"])
     = "rdap lookup failed" ∧
   Rdap.Err (run [Rdap.Response 500; Rdap.TransportError "reset"]) = Some "reset") ∧
  (Rdap.Err (run [Rdap.TransportError "reset"; Rdap.Response 503])
     = Some "rdap http 503").
Proof. vm_compute. done. Qed.

(** ** Domain normalisation *)
Section DomainFacts.
Import Strings Domain.
Context `{GoLib}.

Lemma SplitByte_bytes p sep s :
  forallb (allBytes p) (SplitByte s sep) = true →
  allBytes (λ c, p c || bool_decide (c = sep)) s = true.
Proof.
  induction s as [|x s IH]; simpl; [done|].
  case_decide as Hx.
  - subst x. simpl. intros Hall. rewrite bool_decide_eq_true_2 by done.
    rewrite orb_true_r. by apply IH.
  - destruct (SplitByte s sep) as [|h t] eqn:E; simpl.
    + rewrite !andb_true_r. intros ->. simpl. apply IH. done.
    + intros [[Hx' Hh]%andb_true_iff Ht]%andb_true_iff. rewrite Hx'. simpl.
      apply IH. simpl. by rewrite Hh, Ht.
Qed.

Lemma validLabel_bytes label : validLabel label = true → allBytes isLDH label = true.
Proof.
  unfold validLabel. destruct (_ || _); [done|]. by destruct (_ || _).
Qed.

Lemma isValidDomainASCII_inv a :
  isValidDomainASCII a = true →
  a ≠ EmptyString ∧ HasSuffix a "." = false ∧ allBytes isNameByte a = true.
Proof.
  unfold isValidDomainASCII.
  destruct ((len a <? 1) || (253 <? len a)) eqn:El; [done|].
  destruct (HasPrefix a "." || HasSuffix a ".") eqn:Ed; [done|].
  destruct (length (SplitByte a ".") <? 2); [done|].
  intros Hall. apply orb_false_iff in El as [El _], Ed as [_ Ed].
  split; [intros ->; done|]. split; [done|].
  apply (SplitByte_bytes isLDH "."). 
  rewrite forallb_forall in Hall. apply forallb_forall.
  intros label Hin. by apply validLabel_bytes, Hall.
Qed.

Lemma isNameByte_cases c :
  isNameByte c = true →
  plain c = true ∧ isASCII c = true ∧ lowerByte c = c ∧
  hasByte c ":/?#" = false.
Proof.
  destruct c as [[] [] [] [] [] [] [] []]; vm_compute; intros; try done.
Qed.

Lemma name_plain s : allBytes isNameByte s = true → allBytes plain s = true.
Proof.
  apply allBytes_impl. intros c Hc. by destruct (isNameByte_cases c Hc) as (? & _).
Qed.

Lemma ToLower_name s : allBytes isNameByte s = true → ToLower s = s.
Proof.
  intros Hall. unfold ToLower.
  rewrite (allBytes_impl isNameByte isASCII); [|
    intros c Hc; by destruct (isNameByte_cases c Hc) as (_ & ? & _) | done].
  apply mapBytes_id. eapply allBytes_impl; [|exact Hall].
  intros c Hc. apply bool_decide_eq_true.
  by destruct (isNameByte_cases c Hc) as (_ & _ & ? & _).
Qed.

Lemma name_hasByte s c :
  allBytes isNameByte s = true → hasByte c ":/?#" = true → hasByte c s = false.
Proof.
  intros Hall Hc. apply (allBytes_hasByte isNameByte); [done|].
  destruct (isNameByte c) eqn:E; [|done].
  destruct (isNameByte_cases c E) as (_ & _ & _ & E'). congruence.
Qed.

(** A name made of letters, digits, hyphens and dots only goes through
    the steps of [Normalize] before the IDNA step unchanged. *)
Lemma urlHost_name s : allBytes isNameByte s = true → urlHost s = s.
Proof.
  intros Hall. unfold urlHost.
  destruct (Contains s "://") eqn:E; [|done].
  apply Contains_hasByte in E. by rewrite (name_hasByte s ":") in E.
Qed.

Lemma stripPath_name s : allBytes isNameByte s = true → stripPath s = s.
Proof.
  intros Hall. unfold stripPath. rewrite IndexAny_None; [done|].
  intros c Hc. apply name_hasByte; [done|]. simpl in *.
  repeat case_decide; try done; subst; done.
Qed.

Lemma stripPort_no_colon s : hasByte ":" s = false → stripPort s = s.
Proof.
  intros Hc. apply LastIndexByte_None in Hc.
  unfold stripPort, Net.SplitHostPort. by rewrite Hc.
Qed.

Lemma Normalize_inv d n :
  Normalize d = inl n → Contains n "." = true ∧ isValidDomainASCII n = true.
Proof.
  unfold Normalize. case_decide; [done|]. case_decide; [done|].
  destruct (idna_lookup_to_ascii _) as [a|e]; [|done].
  destruct (Contains a ".") eqn:Ec; [|done]. simpl.
  destruct (isValidDomainASCII a) eqn:Ev; [|done]. simpl.
  by intros [= <-].
Qed.

Lemma Normalize_name n :
  Contains n "." = true → isValidDomainASCII n = true →
  idna_lookup_to_ascii n = inl n →
  Normalize n = inl n.
Proof.
  intros Hdot Hvalid Hidna.
  destruct (isValidDomainASCII_inv n Hvalid) as (Hne & Hsuf & Hall).
  assert (TrimSpace n = n) as Htrim.
  { apply TrimSpace_plain; [done | by apply name_plain]. }
  unfold Normalize. rewrite Htrim. rewrite decide_False by done.
  rewrite urlHost_name, stripPath_name by done.
  rewrite stripPort_no_colon by (by apply name_hasByte).
  assert (TrimSuffix n "." = n) as -> by (unfold TrimSuffix; by rewrite Hsuf).
  rewrite Htrim, ToLower_name by done.
  rewrite decide_False by done.
  by rewrite Hidna, Hdot, Hvalid.
Qed.

(** A colon that survives to the IDNA step makes [Normalize] fail, when
    lowercasing and the IDNA mapping do not delete colons. *)
Lemma ToLower_colon s :
  (∀ x, hasByte ":" x = true → hasByte ":" (unicode_lower x) = true) →
  hasByte ":" s = true → hasByte ":" (ToLower s) = true.
Proof.
  intros Hlow Hs. unfold ToLower. destruct (allBytes isASCII s); [|by apply Hlow].
  by apply hasByte_mapBytes.
Qed.

Lemma TrimSuffix_dot_colon s :
  hasByte ":" s = true → hasByte ":" (TrimSuffix s ".") = true.
Proof.
  intros Hs. destruct (TrimSuffix_append s ".") as [-> | Heq]; [done|].
  rewrite Heq, hasByte_append in Hs. simpl in Hs. by rewrite orb_false_r in Hs.
Qed.

Lemma isValidDomainASCII_colon a :
  hasByte ":" a = true → isValidDomainASCII a = false.
Proof.
  intros Hc. destruct (isValidDomainASCII a) eqn:E; [|done].
  apply isValidDomainASCII_inv in E as (_ & _ & Hall).
  by rewrite (name_hasByte a ":") in Hc.
Qed.

End DomainFacts.

(** C5. [Normalize] is idempotent: when it succeeds on [d] with the name
    [n], it succeeds on [n] and returns [n], given that
    [idna.Lookup.ToASCII], which is not part of the repository, maps the
    ASCII name [n] to itself. *)
Theorem Normalize_idempotent `{GoLib} (d n : string) :
  Domain.Normalize d = inl n →
  idna_lookup_to_ascii n = inl n →
  Domain.Normalize n = inl n.
Proof.
  intros [Hdot Hvalid]%Normalize_inv Hidna. by apply Normalize_name.
Qed.

Lemma Normalize_idempotent_witness :
  Domain.Normalize (H := StandIn.lib) " https://OpenAI.COM:443/foo?x " = inl "openai.com"
  ∧ Domain.Normalize (H := StandIn.lib) "openai.com" = inl "openai.com".
Proof.
  split; [reflexivity|].
  apply (Normalize_idempotent (H := StandIn.lib) " https://OpenAI.COM:443/foo?x ");
    reflexivity.
Defined.

(** The cases of [domain_test.go]. *)
Example Normalize_tests :
  let N := Domain.Normalize (H := StandIn.lib) in
  let fails s := match N s with inr _ => True | inl _ => False end in
  N "OpenAI.COM" = inl "openai.com" ∧
  N " https://OpenAI.COM/ " = inl "openai.com" ∧
  N "openai.com:443" = inl "openai.com" ∧
  N "openai.com." = inl "openai.com" ∧
  fails "" ∧ fails "localhost" ∧ fails "foo..com" ∧ fails "-bad.com" ∧
  fails "bad-.com".
Proof. vm_compute. tauto. Qed.

(** C6 as stated fails: the text after the final colon of
    [example.com:http] is not empty and holds no digit, yet
    [net.SplitHostPort] accepts the string, [Normalize] drops the suffix
    and accepts the input. *)
Lemma port_suffix_counterexample :
  let input := "example.com:http" in
  Strings.LastIndexByte input ":" = Some 11 ∧
  Strings.dropS 12 input = "http" ∧
  Strings.allBytes Strings.isDigit "http" = false ∧
  Net.SplitHostPort input = inl ("example.com", "http") ∧
  Domain.stripPort input = "example.com" ∧
  Domain.Normalize (H := StandIn.lib) input = inl "example.com".
Proof. repeat split; reflexivity. Qed.

(** C6, amended. Let [s] be the string that reaches the port step of
    [Normalize].  When [net.SplitHostPort] accepts [s], the port is
    dropped whatever it is made of.  When it rejects [s], the text after
    the final colon is dropped if it is all digits and the colon is not
    the first byte; if that text is not empty and holds a byte that is not
    a digit, nothing is dropped, and [Normalize] rejects the input, given
    that lowercasing and the IDNA mapping delete no colon. *)
Theorem stripPort_policy `{GoLib} (d : string) :
  let s := Domain.stripPath (Domain.urlHost (Strings.TrimSpace d)) in
  (∀ host port, Net.SplitHostPort s = inl (host, port) → Domain.stripPort s = host) ∧
  (∀ why i,
     Net.SplitHostPort s = inr why →
     Strings.LastIndexByte s ":" = Some i →
     let port := Strings.dropS (i + 1) s in
     ((0 < i)%nat → Domain.isAllDigits port = true →
      Domain.stripPort s = Strings.takeS i s) ∧
     (port ≠ EmptyString → Strings.allBytes Strings.isDigit port = false →
      Domain.stripPort s = s ∧
      ((∀ x, Strings.hasByte ":" x = true →
             Strings.hasByte ":" (unicode_lower x) = true) →
       (∀ x a, Strings.hasByte ":" x = true → idna_lookup_to_ascii x = inl a →
               Strings.hasByte ":" a = true) →
       ∃ err, Domain.Normalize d = inr err))).
Proof.
  intros s. split.
  { intros host port Hs. unfold Domain.stripPort. by rewrite Hs. }
  intros why i Hs Hi port.
  assert (Strings.len port = (Strings.len s - (i + 1))%nat) as Hlen
    by apply len_dropS.
  split.
  - intros Hpos Hdigits. unfold Domain.stripPort. rewrite Hs, Hi.
    assert (port ≠ EmptyString) as Hne.
    { intros E. unfold Domain.isAllDigits in Hdigits. by rewrite E in Hdigits. }
    assert ((0 <? i) && (i <? Strings.len s - 1) = true)%nat as ->.
    { apply andb_true_iff. split; [by apply Nat.ltb_lt|]. apply Nat.ltb_lt.
      destruct port; [done|]. simpl in Hlen. lia. }
    fold port. by rewrite Hdigits.
  - intros Hne Hdigits.
    assert (Domain.stripPort s = s) as Hstrip.
    { unfold Domain.stripPort. rewrite Hs, Hi. fold port.
      unfold Domain.isAllDigits. rewrite decide_False by done. rewrite Hdigits.
      by destruct (_ && _). }
    split; [exact Hstrip|]. intros Hlow Hidna.
    assert (Strings.hasByte ":" s = true) as Hcolon.
    { destruct (Strings.hasByte ":" s) eqn:E; [done|].
      apply LastIndexByte_None in E. congruence. }
    unfold Domain.Normalize. case_decide; [by eexists|].
    fold s. rewrite Hstrip.
    pose proof (TrimSuffix_dot_colon s Hcolon) as H1.
    rewrite <- (TrimSpace_hasByte ":") in H1 by done.
    apply (ToLower_colon _ Hlow) in H1.
    case_decide; [by eexists|].
    destruct (idna_lookup_to_ascii _) as [a|e] eqn:Ea; [|by eexists].
    specialize (Hidna _ a H1 Ea).
    rewrite (isValidDomainASCII_colon a Hidna).
    destruct (Strings.Contains a "."); simpl; by eexists.
Qed.

Lemma stripPort_policy_witness :
  Net.SplitHostPort "a.com:b:http" = inr Net.tooManyColons ∧
  Domain.stripPort "a.com:b:http" = "a.com:b:http" ∧
  ∃ err, Domain.Normalize (H := StandIn.lib) "a.com:b:http" = inr err.
Proof.
  destruct (stripPort_policy (H := StandIn.lib) "a.com:b:http") as [_ Hrej].
  destruct (Hrej Net.tooManyColons 7%nat eq_refl eq_refl) as [_ Hkeep].
  destruct Hkeep as [Hsame Hfail]; [done | reflexivity |].
  split; [reflexivity|]. split; [exact Hsame|].
  apply Hfail.
  - intros x Hx. exact Hx.
  - intros x a Hx. simpl. unfold StandIn.idnaLDH.
    destruct (forallb _ _); [|done]. by intros [= <-].
Defined.

(** ** Timestamps *)
Section TimeFacts.
Import Strings GoTime.
Local Open Scope Z_scope.

Lemma isLeap_true y :
  isLeap y = true ↔ y mod 4 = 0 ∧ (y mod 100 ≠ 0 ∨ y mod 400 = 0).
Proof.
  unfold isLeap.
  by rewrite andb_true_iff, orb_true_iff, negb_true_iff, !Z.eqb_eq, Z.eqb_neq.
Qed.

(** The day of the year is below 365, or 365 in a leap year. *)
Lemma yearDay_bounds days :
  0 ≤ (yearDay days).2 ∧
  ((yearDay days).2 ≤ 364 ∨ ((yearDay days).2 = 365 ∧ isLeap (yearDay days).1 = true)).
Proof.
  rewrite isLeap_true. unfold yearDay. cbv zeta. simpl fst. simpl snd.
  Z.div_mod_to_equations. lia.
Qed.

Lemma monthDay_leap y y' yday : isLeap y = isLeap y' → monthDay y yday = monthDay y' yday.
Proof. unfold monthDay. by intros ->. Qed.

Lemma daysIn_leap y y' m : isLeap y = isLeap y' → daysIn y m = daysIn y' m.
Proof. unfold daysIn. by intros ->. Qed.

Lemma forallb_range (p : Z → bool) (n : nat) (x : Z) :
  forallb p (Z.of_nat <$> seq 0 n) = true → 0 ≤ x < Z.of_nat n → p x = true.
Proof.
  intros Hall Hx. rewrite forallb_forall in Hall. apply Hall.
  apply list_elem_of_In, list_elem_of_fmap. exists (Z.to_nat x).
  split; [lia|]. apply list_elem_of_In, in_seq. lia.
Qed.

Lemma monthDay_valid year yday :
  0 ≤ yday → (yday ≤ 364 ∨ (yday = 365 ∧ isLeap year = true)) →
  validMonthDay year yday = true.
Proof.
  intros H0 Hy. unfold validMonthDay.
  destruct (isLeap year) eqn:El.
  - rewrite (monthDay_leap year 4) by done.
    destruct (monthDay 4 yday) as [m d] eqn:E.
    rewrite (daysIn_leap year 4) by done.
    assert (validMonthDay 4 yday = true) as Hv.
    { apply (forallb_range _ 366); [by vm_compute | lia]. }
    unfold validMonthDay in Hv. by rewrite E in Hv.
  - rewrite (monthDay_leap year 1) by done.
    destruct (monthDay 1 yday) as [m d] eqn:E.
    rewrite (daysIn_leap year 1) by done.
    assert (validMonthDay 1 yday = true) as Hv.
    { apply (forallb_range _ 365); [by vm_compute|].
      destruct Hy as [?|[_ ?]]; [lia | done]. }
    unfold validMonthDay in Hv. by rewrite E in Hv.
Qed.

Lemma Date_valid t :
  let '(year, month, day) := Date t in
  1 ≤ month ≤ 12 ∧ 1 ≤ day ≤ daysIn year month.
Proof.
  unfold Date.
  pose proof (yearDay_bounds (unixSec t / 86400 + unixEpochDay)) as [H0 Hy].
  destruct (yearDay _) as [year yday]. simpl in *.
  pose proof (monthDay_valid year yday H0 Hy) as Hv. unfold validMonthDay in Hv.
  destruct (monthDay year yday) as [m d].
  apply andb_true_iff in Hv as [[[H1 H2]%andb_true_iff H3]%andb_true_iff H4].
  lia.
Qed.

Lemma Clock_valid t :
  let '(hour, min, sec) := Clock t in
  0 ≤ hour ≤ 23 ∧ 0 ≤ min ≤ 59 ∧ 0 ≤ sec ≤ 59.
Proof. unfold Clock. Z.div_mod_to_equations. lia. Qed.

Lemma digit_spec v :
  0 ≤ v ≤ 9 → isDigit (digit v) = true ∧ digitValue (digit v) = v.
Proof.
  intros Hv.
  assert (v = 0 ∨ v = 1 ∨ v = 2 ∨ v = 3 ∨ v = 4 ∨ v = 5 ∨ v = 6 ∨ v = 7 ∨ v = 8 ∨ v = 9)
    as Hc by lia.
  repeat (destruct Hc as [-> | Hc]; [by vm_compute|]). subst v. by vm_compute.
Qed.

Lemma appendInt_2 x :
  0 ≤ x ≤ 99 →
  appendInt x 2 = String (digit (x / 10)) (String (digit (x mod 10)) EmptyString).
Proof.
  intros Hx. unfold appendInt. rewrite Z.abs_eq by lia.
  assert ((x <? 10 ^ Z.of_nat 2) = true) as -> by (apply Z.ltb_lt; simpl; lia).
  assert ((x <? 0) = false) as -> by (apply Z.ltb_ge; lia).
  cbn [fixedDigits]. rewrite (Z.mod_small (x / 10) 10) by (Z.div_mod_to_equations; lia).
  reflexivity.
Qed.

Lemma appendInt_4 x :
  0 ≤ x ≤ 9999 →
  appendInt x 4
  = String (digit (x / 1000)) (String (digit (x / 100 mod 10))
      (String (digit (x / 10 mod 10)) (String (digit (x mod 10)) EmptyString))).
Proof.
  intros Hx. unfold appendInt. rewrite Z.abs_eq by lia.
  assert ((x <? 10 ^ Z.of_nat 4) = true) as -> by (apply Z.ltb_lt; simpl; lia).
  assert ((x <? 0) = false) as -> by (apply Z.ltb_ge; lia).
  cbn [fixedDigits].
  replace (x / 10 / 10 / 10 mod 10) with (x / 1000) by (Z.div_mod_to_equations; lia).
  replace (x / 10 / 10 mod 10) with (x / 100 mod 10) by (Z.div_mod_to_equations; lia).
  reflexivity.
Qed.

(** The digits of a number below [10 ^ width] that is not zero are not
    all zero. *)
Lemma fixedDigits_digits width x :
  0 ≤ x → allBytes isDigit (fixedDigits width x) = true
          ∧ len (fixedDigits width x) = width.
Proof.
  revert x. induction width as [|w IH]; intros x Hx; [done|].
  cbn [fixedDigits]. rewrite allBytes_append, len_append.
  destruct (IH (x / 10)) as [-> ->]; [Z.div_mod_to_equations; lia|].
  simpl. destruct (digit_spec (x mod 10)) as [-> _];
    [Z.div_mod_to_equations; lia|]. split; [done | lia].
Qed.

Lemma fixedDigits_zero width x :
  0 ≤ x →
  allBytes (λ c, bool_decide (c = "0"%char)) (fixedDigits width x) = true →
  x mod 10 ^ Z.of_nat width = 0.
Proof.
  revert x. induction width as [|w IH]; intros x Hx.
  { intros _. simpl. apply Z.mod_1_r. }
  cbn [fixedDigits]. rewrite allBytes_append. simpl.
  intros [Hhi [Hlo%bool_decide_eq_true _]%andb_true_iff]%andb_true_iff.
  specialize (IH (x / 10)). 
  assert (x mod 10 = 0) as H0.
  { destruct (digit_spec (x mod 10)) as [_ Hd]; [Z.div_mod_to_equations; lia|].
    rewrite Hlo in Hd. vm_compute in Hd. done. }
  assert ((x / 10) mod 10 ^ Z.of_nat w = 0) as H1
    by (apply IH; [Z.div_mod_to_equations; lia | done]).
  replace (Z.of_nat (S w)) with (Z.of_nat w + 1) by lia.
  rewrite Z.pow_add_r by lia. simpl (10 ^ 1).
  assert (0 < 10 ^ Z.of_nat w) as Hp by (apply Z.pow_pos_nonneg; lia).
  rewrite (Z.mul_comm (10 ^ _) 10).
  rewrite Z.rem_mul_r by lia. rewrite H0, H1. lia.
Qed.

End TimeFacts.

Section TimestampFacts.
Import Strings GoTime.
Local Open Scope Z_scope.

Lemma append_nil_l s : EmptyString +:+ s = s.
Proof. reflexivity. Qed.

Lemma TrimLeftByte_zeros R :
  allBytes isDigit R = true →
  allBytes (λ c, bool_decide (c = "0"%char)) R = false →
  ∃ R', TrimLeftByte (R +:+ ".") "0" = R' +:+ "." ∧ R' ≠ EmptyString ∧
        allBytes isDigit R' = true ∧ (len R' ≤ len R)%nat.
Proof.
  induction R as [|c R IH]; [done|].
  rewrite append_cons. simpl.
  intros [Hc HR]%andb_true_iff Hz. case_decide as E.
  - subst c. simpl in Hz. destruct (IH HR Hz) as (R' & ? & ? & ? & ?).
    exists R'. repeat split; try done. lia.
  - exists (String c R). rewrite append_cons. repeat split; try done.
    simpl. by rewrite Hc, HR.
Qed.

Lemma appendNano_spec ns :
  0 < ns < 10 ^ 9 →
  ∃ D, appendNano ns = String "." D ∧ D ≠ EmptyString ∧
       allBytes isDigit D = true ∧ (len D ≤ 9)%nat.
Proof.
  intros Hns. unfold appendNano.
  assert ((ns =? 0) = false) as -> by (apply Z.eqb_neq; lia).
  assert (appendInt ns 9 = fixedDigits 9 ns) as ->.
  { unfold appendInt. rewrite Z.abs_eq by lia.
    assert ((ns <? 10 ^ Z.of_nat 9) = true) as -> by (apply Z.ltb_lt; simpl; lia).
    by assert ((ns <? 0) = false) as -> by (apply Z.ltb_ge; lia). }
  destruct (fixedDigits_digits 9 ns) as [Hd Hl]; [lia|].
  set (F := fixedDigits 9 ns) in *.
  destruct (TrimLeftByte_zeros (String.rev F)) as (R' & HR & Hne & HdR & HlR).
  { by rewrite allBytes_rev. }
  { rewrite allBytes_rev.
    destruct (allBytes (λ c, bool_decide (c = "0"%char)) F) eqn:Ez; [|done].
    unfold F in Ez. apply fixedDigits_zero in Ez; [|lia]. simpl in Ez.
    rewrite Z.mod_small in Ez by (simpl; lia). lia. }
  exists (String.rev R').
  unfold TrimRightByte. rewrite rev_cons, HR, rev_append.
  change (String.rev ".") with ".". rewrite append_cons, append_nil_l.
  split.
  - unfold TrimSuffix, HasSuffix.
    rewrite rev_cons, rev_involutive.
    destruct R' as [|c R']; [done|]. rewrite append_cons.
    simpl in HdR. apply andb_true_iff in HdR as [Hc _].
    simpl. rewrite decide_False; [done|]. intros ->. by vm_compute in Hc.
  - split; [|split].
    + intros E. apply (f_equal len) in E. rewrite len_rev in E.
      destruct R'; [done | discriminate E].
    + by rewrite allBytes_rev.
    + rewrite len_rev. rewrite len_rev in HlR. lia.
Qed.

Lemma isFractionZ_appendNano ns :
  0 ≤ ns < 10 ^ 9 → isFractionZ (appendNano ns +:+ "Z") = true.
Proof.
  intros Hns. destruct (decide (ns = 0)) as [->|Hn]; [done|].
  destruct (appendNano_spec ns) as (D & -> & Hne & Hd & Hl); [lia|].
  unfold isFractionZ. rewrite append_cons.
  rewrite decide_False by (destruct D; done).
  assert (HasSuffix (String "." (D +:+ "Z")) "Z" = true) as ->.
  { apply HasSuffix_append. by exists (String "." D). }
  simpl HasPrefix.
  assert (takeS (len (String "." (D +:+ "Z")) - 2) (dropS 1 (String "." (D +:+ "Z"))) = D)
    as ->.
  { simpl dropS. replace (len (String "." (D +:+ "Z")) - 2)%nat with (len D).
    - apply takeS_append.
    - simpl. rewrite len_append. simpl. unfold len. lia. }
  assert ((1 <=? len D)%nat = true) as ->.
  { apply Nat.leb_le. destruct D; [done | simpl; lia]. }
  assert ((len D <=? 9)%nat = true) as -> by (by apply Nat.leb_le).
  by rewrite Hd.
Qed.

Lemma fixedNum_2 a b :
  0 ≤ a ≤ 9 → 0 ≤ b ≤ 9 →
  fixedNum 2 (String (digit a) (String (digit b) EmptyString)) = Some (10 * a + b).
Proof.
  intros Ha Hb. destruct (digit_spec a Ha) as [Ha1 Ha2], (digit_spec b Hb) as [Hb1 Hb2].
  unfold fixedNum. simpl. rewrite Ha1, Hb1, Ha2, Hb2. simpl. f_equal; lia.
Qed.

Lemma fixedNum_4 a b c d :
  0 ≤ a ≤ 9 → 0 ≤ b ≤ 9 → 0 ≤ c ≤ 9 → 0 ≤ d ≤ 9 →
  fixedNum 4 (String (digit a) (String (digit b) (String (digit c)
                (String (digit d) EmptyString))))
  = Some (1000 * a + 100 * b + 10 * c + d).
Proof.
  intros Ha Hb Hc Hd.
  destruct (digit_spec a Ha) as [Ha1 Ha2], (digit_spec b Hb) as [Hb1 Hb2],
           (digit_spec c Hc) as [Hc1 Hc2], (digit_spec d Hd) as [Hd1 Hd2].
  unfold fixedNum. simpl. rewrite Ha1, Hb1, Hc1, Hd1, Ha2, Hb2, Hc2, Hd2. simpl.
  f_equal; lia.
Qed.

Lemma daysIn_le_31 year month : 1 ≤ month ≤ 12 → daysIn year month ≤ 31.
Proof.
  intros Hm.
  assert (month = 1 ∨ month = 2 ∨ month = 3 ∨ month = 4 ∨ month = 5 ∨ month = 6 ∨
          month = 7 ∨ month = 8 ∨ month = 9 ∨ month = 10 ∨ month = 11 ∨ month = 12)
    as Hc by lia.
  unfold daysIn.
  repeat (destruct Hc as [-> | Hc]; [simpl; try destruct (isLeap year); by vm_compute|]).
  subst. by vm_compute.
Qed.

Lemma two_digits x : 0 ≤ x ≤ 99 → 0 ≤ x / 10 ≤ 9 ∧ 0 ≤ x mod 10 ≤ 9 ∧ 10 * (x / 10) + x mod 10 = x.
Proof. intros. Z.div_mod_to_equations. lia. Qed.

(** A string laid out as the format lays it out is a timestamp. *)
Lemma layout_recognized year month day hour min sec rest :
  0 ≤ year ≤ 9999 → 1 ≤ month ≤ 12 → 1 ≤ day ≤ daysIn year month →
  0 ≤ hour ≤ 23 → 0 ≤ min ≤ 59 → 0 ≤ sec ≤ 59 →
  isFractionZ rest = true →
  isRFC3339NanoUTC
    (appendInt year 4 +:+ "-" +:+ appendInt month 2 +:+ "-" +:+ appendInt day 2
     +:+ "T" +:+ appendInt hour 2 +:+ ":" +:+ appendInt min 2 +:+ ":"
     +:+ appendInt sec 2 +:+ rest) = true.
Proof.
  intros Hy Hmo Hd Hh Hmi Hs Hrest.
  pose proof (daysIn_le_31 year month Hmo) as H31.
  rewrite appendInt_4 by done. rewrite !appendInt_2 by lia.
  repeat rewrite append_cons. repeat rewrite append_nil_l.
  repeat rewrite append_cons. repeat rewrite append_nil_l.
  unfold isRFC3339NanoUTC. cbn [takeS dropS].
  destruct (two_digits month) as (? & ? & Emo); [lia|].
  destruct (two_digits day) as (? & ? & Ed); [lia|].
  destruct (two_digits hour) as (? & ? & Eh); [lia|].
  destruct (two_digits min) as (? & ? & Emi); [lia|].
  destruct (two_digits sec) as (? & ? & Es); [lia|].
  rewrite fixedNum_4 by (Z.div_mod_to_equations; lia).
  rewrite !fixedNum_2 by done.
  rewrite Emo, Ed, Eh, Emi, Es.
  replace (1000 * (year / 1000) + 100 * (year / 100 mod 10)
           + 10 * (year / 10 mod 10) + year mod 10) with year
    by (Z.div_mod_to_equations; lia).
  rewrite !bool_decide_eq_true_2 by done. rewrite Hrest.
  repeat (apply andb_true_iff; split); try done; apply Z.leb_le; lia.
Qed.

End TimestampFacts.

(** ** The availability checker *)
Section FormatFacts.
Import Strings GoTime.
Local Open Scope Z_scope.

Lemma Format_recognized t :
  0 ≤ Year t ≤ 9999 → 0 ≤ nsec t < 10 ^ 9 →
  isRFC3339NanoUTC (FormatRFC3339NanoUTC t) = true.
Proof.
  intros Hy Hn. unfold FormatRFC3339NanoUTC, Year in *.
  pose proof (Date_valid t) as Hd. pose proof (Clock_valid t) as Hc.
  destruct (Date t) as [[year month] day], (Clock t) as [[hour min] sec].
  simpl in Hy. destruct Hd as [? ?], Hc as (? & ? & ?).
  apply layout_recognized; try done. by apply isFractionZ_appendNano.
Qed.

End FormatFacts.

Section CheckOneFacts.
Import Strings Availability.
Context `{GoLib}.
Local Open Scope Z_scope.

Lemma stamp_fields env r :
  CheckedAt (stamp env r) = GoTime.FormatRFC3339NanoUTC (endTime env) ∧
  DurationMs (stamp env r)
  = GoTime.Milliseconds (GoTime.Since (startTime env) (endMono env)) ∧
  Status (stamp env r) = Status r ∧ Registered (stamp env r) = Registered r ∧
  Input (stamp env r) = Input r.
Proof. done. Qed.

Lemma rdapBlock_Input env ascii r : Input (outcomeOf (rdapBlock env ascii r)) = Input r.
Proof.
  unfold rdapBlock. destruct (Rdap.Err _); repeat case_decide; reflexivity.
Qed.

Lemma whoisBlock_Input env ascii r : Input (outcomeOf (whoisBlock env ascii r)) = Input r.
Proof.
  unfold whoisBlock. destruct (Whois.Err _); repeat case_decide; reflexivity.
Qed.

Lemma summarize_fields r :
  Input (summarize r) = Input r ∧ Status (summarize r) = Status r ∧
  Registered (summarize r) = Registered r.
Proof. unfold summarize. repeat case_decide; done. Qed.

Lemma rdapBlock_ok env ascii r : undecided r → blockOk env (rdapBlock env ascii r).
Proof.
  intros [Hs Hr]. unfold rdapBlock.
  destruct (Rdap.Err _); repeat case_decide; simpl;
    try (eexists; split; [reflexivity|]); try (by left); try (by right; left);
    by split.
Qed.

Lemma whoisBlock_ok env ascii r : undecided r → blockOk env (whoisBlock env ascii r).
Proof.
  intros [Hs Hr]. unfold whoisBlock.
  destruct (Whois.Err _); repeat case_decide; simpl;
    try (eexists; split; [reflexivity|]); try (by left); try (by right; left);
    by split.
Qed.

Lemma checkOne_stamped c env input :
  ∃ r', checkOne c env input = stamp env r' ∧ consistent r'.
Proof.
  unfold checkOne. destruct (Domain.Normalize input) as [ascii|err].
  2: { eexists. split; [reflexivity|]. by right; right. }
  destruct (splitDomain ascii) as [label tld].
  set (r0 := if decide (_ = ascii) then _ else _).
  assert (undecided r0) as Hp0 by (subst r0; by case_decide).
  clearbody r0.
  assert (blockOk env (if RDAP c then rdapBlock env ascii r0 else inr r0)) as H1.
  { destruct (RDAP c); [by apply rdapBlock_ok | done]. }
  destruct (if RDAP c then _ else _) as [r1|r1]; [exact H1|].
  assert (blockOk env (if negb (NoWHOIS c) && WHOIS c then whoisBlock env ascii r1
                       else inr r1)) as H2.
  { destruct (_ && _); [by apply whoisBlock_ok | done]. }
  destruct (if negb (NoWHOIS c) && WHOIS c then _ else _) as [r2|r2]; [exact H2|].
  eexists. split; [reflexivity|].
  destruct (summarize_fields r2) as (_ & Hs & Hr). destruct H2 as [? ?].
  right; right. by rewrite Hs, Hr.
Qed.

Lemma stamp_summarize_Input env r : Input (stamp env (summarize r)) = Input r.
Proof.
  destruct (stamp_fields env (summarize r)) as (_ & _ & _ & _ & ->).
  by destruct (summarize_fields r) as (-> & _).
Qed.

End CheckOneFacts.

(** C3. Every result of the checker, under a monotonic clock that does
    not go back and a wall clock within the years 0 to 9999, has a
    [checked_at] that is a non-empty RFC 3339 timestamp in UTC with up to
    nine fraction digits, a [duration_ms] that is not negative and a status
    among [available], [taken] and [unknown]; [registered] is false when the
    status is [available], true when it is [taken] and absent when it is
    [unknown]. *)
Theorem checkOne_result_invariants `{GoLib}
    (c : Availability.Options) (env : Availability.Env) (input : string) :
  (GoTime.mono (Availability.startTime env) ≤ Availability.endMono env)%Z →
  (0 ≤ GoTime.Year (Availability.endTime env) ≤ 9999)%Z →
  (0 ≤ GoTime.nsec (Availability.endTime env) < 10 ^ 9)%Z →
  let r := Availability.checkOne c env input in
  Availability.CheckedAt r ≠ EmptyString ∧
  GoTime.isRFC3339NanoUTC (Availability.CheckedAt r) = true ∧
  (0 ≤ Availability.DurationMs r)%Z ∧
  Availability.Status r ∈ ["available"; "taken"; "unknown"] ∧
  (Availability.Status r = "available" → Availability.Registered r = Some false) ∧
  (Availability.Status r = "taken" → Availability.Registered r = Some true) ∧
  (Availability.Status r = "unknown" → Availability.Registered r = None).
Proof.
  intros Hmono Hyear Hnsec r. subst r.
  destruct (checkOne_stamped c env input) as (r' & -> & Hcons).
  destruct (stamp_fields env r') as (Hc & Hd & Hs & Hr & _).
  rewrite Hc, Hd, Hs, Hr.
  pose proof (Format_recognized _ Hyear Hnsec) as Hfmt.
  split; [intros E; by rewrite E in Hfmt|]. split; [exact Hfmt|]. split.
  { unfold GoTime.Milliseconds, GoTime.Since. apply Z.quot_pos; lia. }
  destruct Hcons as [[-> ->]|[[-> ->]|[-> ->]]];
    (split; [repeat constructor|]); repeat split; done.
Qed.

Lemma checkOne_result_invariants_witness :
  let r := Availability.checkOne (H := StandIn.lib) StandIn.noClients StandIn.quietEnv
             "example.com" in
  Availability.CheckedAt r = "2024-01-01T00:00:01.25Z" ∧
  Availability.DurationMs r = 1250%Z ∧
  GoTime.isRFC3339NanoUTC (Availability.CheckedAt r) = true ∧
  Availability.Status r ∈ ["available"; "taken"; "unknown"].
Proof.
  pose proof (checkOne_result_invariants (H := StandIn.lib) StandIn.noClients
                StandIn.quietEnv "example.com") as Hinv.
  destruct Hinv as (_ & Hfmt & _ & Hst & _).
  - vm_compute. discriminate.
  - split; vm_compute; discriminate.
  - split; vm_compute; [discriminate | reflexivity].
  - split; [reflexivity|]. split; [reflexivity|]. split; [exact Hfmt | exact Hst].
Defined.

(** C9 as stated fails: for the input [example.com], which is its own
    normal form, the field [input] of the result is empty; and for an
    input with blanks around it the field holds the trimmed input. *)
Lemma input_field_counterexample :
  Availability.Input
    (Availability.checkOne (H := StandIn.lib) StandIn.noClients StandIn.quietEnv
       "example.com") = EmptyString ∧
  Availability.Input
    (Availability.checkOne (H := StandIn.lib) StandIn.noClients StandIn.quietEnv
       " Example.COM ") = "Example.COM".
Proof. split; reflexivity. Qed.

(** C9, amended. The field [input] of the result of checking an input
    holds the input with the white space around it trimmed, except that it
    is empty when the input normalizes and its trimmed form is the
    normalized name itself. *)
Theorem checkOne_input_field `{GoLib}
    (c : Availability.Options) (env : Availability.Env) (input : string) :
  Availability.Input (Availability.checkOne c env input)
  = match Domain.Normalize input with
    | inl ascii =>
        if decide (Strings.TrimSpace input = ascii) then EmptyString
        else Strings.TrimSpace input
    | inr _ => Strings.TrimSpace input
    end.
Proof.
  unfold Availability.checkOne.
  destruct (Domain.Normalize input) as [ascii|err]; [|done].
  destruct (Availability.splitDomain ascii) as [label tld].
  set (r0 := if decide (_ = ascii) then _ else _).
  assert (Availability.Input r0
          = if decide (Strings.TrimSpace input = ascii) then EmptyString
            else Strings.TrimSpace input) as <-.
  { subst r0. simpl. by case_decide. }
  clearbody r0.
  assert (∀ r, Availability.Input
                 (match (if negb (Availability.NoWHOIS c) && Availability.WHOIS c
                         then Availability.whoisBlock env ascii r else inr r) with
                  | inl r2 => r2
                  | inr r2 => Availability.stamp env (Availability.summarize r2)
                  end) = Availability.Input r) as Hwhois.
  { intros r. destruct (negb (Availability.NoWHOIS c) && Availability.WHOIS c).
    - pose proof (whoisBlock_Input env ascii r) as H2.
      destruct (Availability.whoisBlock env ascii r) as [r2|r2]; simpl in H2; [done|].
      by rewrite stamp_summarize_Input.
    - apply stamp_summarize_Input. }
  destruct (Availability.RDAP c).
  - pose proof (rdapBlock_Input env ascii r0) as H1.
    destruct (Availability.rdapBlock env ascii r0) as [r1|r1]; simpl in H1; [done|].
    by rewrite Hwhois.
  - apply Hwhois.
Qed.

(** ** The worker pool *)
Section PoolFacts.
Import Strings Availability.
Context `{GoLib}.

Lemma jobsFrom_lookup inputs i :
  jobsFrom inputs !! i = (λ s, {| idx := i; input := s |}) <$> inputs !! i.
Proof. unfold jobsFrom. apply list_lookup_imap. Qed.

Lemma poolSize_pos c : (1 ≤ poolSize c)%nat.
Proof. unfold poolSize. case_decide; lia. Qed.

Lemma initPool_inv c inputs : poolInv c inputs (initPool c inputs).
Proof.
  exists 0%nat. simpl. repeat split.
  - lia.
  - apply length_replicate.
  - apply length_replicate.
  - apply Forall_replicate. done.
  - intros i Hi. lia.
Qed.

Lemma workerOk_mono c inputs sent sent' w :
  (sent ≤ sent')%nat → workerOk c inputs sent w → workerOk c inputs sent' w.
Proof. destruct w; simpl; [done|intros ? [? ?]; split; [lia|done]..]. Qed.

(** A worker other than the one that moves holds what it held. *)
Lemma held_elsewhere (ws : list worker) k w0 w' w i :
  ws !! k = Some w0 → ¬ holds w0 i → w ∈ ws → holds w i → w ∈ <[k := w']> ws.
Proof.
  intros Hk Hno [k' Hk']%list_elem_of_lookup Hw.
  apply list_elem_of_lookup. exists k'.
  rewrite list_lookup_insert_ne; [done|]. intros ->. congruence.
Qed.

Lemma step_inv c inputs p p' : poolInv c inputs p → step c p p' → poolInv c inputs p'.
Proof.
  intros (sent & Hpend & Hbound & Hlen & Hslice & Hheld & Hdone) Hstep.
  destruct Hstep as [j q ws o k Hk | q ws o k j env Hk | q ws o k i res Hk Hi];
    simpl in *.
  - (* a job is sent *)
    assert (jobsFrom inputs !! sent = Some j) as Hj.
    { rewrite <- (Nat.add_0_r sent), <- lookup_drop, <- Hpend. done. }
    assert (drop (S sent) (jobsFrom inputs) = q) as Hq.
    { rewrite <- (Nat.add_1_r sent), <- drop_drop, <- Hpend. done. }
    rewrite jobsFrom_lookup in Hj.
    destruct (inputs !! sent) as [s|] eqn:Es; [|done].
    injection Hj as <-.
    exists (S sent). simpl. repeat split.
    + done.
    + apply lookup_lt_Some in Es. lia.
    + by rewrite length_insert.
    + done.
    + apply Forall_insert; [|simpl; split; [lia | done]].
      eapply Forall_impl; [exact Hheld|]. intros w. apply workerOk_mono. lia.
    + intros i Hi. destruct (decide (i = sent)) as [->|Hne].
      * left. exists (Running {| idx := sent; input := s |}).
        split; [|done]. apply list_elem_of_lookup. exists k.
        apply list_lookup_insert_eq. by eapply lookup_lt_Some.
      * destruct (Hdone i) as [(w & Hw & Hh) | Hres]; [lia | | by right].
        left. exists w. split; [|done].
        by apply (held_elsewhere ws k Idle _ w i); [|intros []|..].
  - (* a worker has checked its input *)
    exists sent. simpl. repeat split; try done.
    + by rewrite length_insert.
    + rewrite Forall_lookup in Hheld. pose proof (Hheld k _ Hk) as [Hlt Hin].
      apply Forall_insert; [by apply Forall_lookup|].
      simpl. split; [done|]. by exists (input j), env.
    + intros i Hi. destruct (Hdone i Hi) as [(w & Hw & Hh) | Hres]; [|by right].
      left. destruct (decide (idx j = i)) as [<-|Hne].
      * exists (Sending (idx j) (checkOne c env (input j))). split; [|done].
        apply list_elem_of_lookup. exists k.
        apply list_lookup_insert_eq. by eapply lookup_lt_Some.
      * exists w. split; [|done].
        by apply (held_elsewhere ws k (Running j) _ w i).
  - (* the collector stores a result *)
    rewrite Forall_lookup in Hheld. pose proof (Hheld k _ Hk) as [Hlt Hchk].
    exists sent. simpl. repeat split; try done.
    + by rewrite length_insert.
    + by rewrite length_insert.
    + apply Forall_insert; [by apply Forall_lookup | done].
    + intros i' Hi'. destruct (decide (i' = i)) as [->|Hne].
      * right. exists res. split; [|done]. by apply list_lookup_insert_eq.
      * destruct (Hdone i' Hi') as [(w & Hw & Hh) | (res' & Hres & Hc)].
        -- left. exists w. split; [|done].
           apply (held_elsewhere ws k (Sending i res) _ w i'); try done.
           simpl. congruence.
        -- right. exists res'. split; [|done]. by rewrite list_lookup_insert_ne.
Qed.

Lemma steps_inv c inputs p :
  steps c (initPool c inputs) p → poolInv c inputs p.
Proof.
  intros Hsteps. pose proof (initPool_inv c inputs) as Hinit.
  induction Hsteps as [|p1 p2 p3 Hstep _ IH]; [done|].
  apply IH. by eapply step_inv.
Qed.

Lemma workers_idle_or_busy (ws : list worker) :
  Forall (λ w, w = Idle) ws ∨ ∃ k w, ws !! k = Some w ∧ w ≠ Idle.
Proof.
  induction ws as [|w ws IH]; [by left|].
  destruct w as [|j|i res].
  - destruct IH as [IH | (k & w & Hk & Hw)].
    + left. by constructor.
    + right. by exists (S k), w.
  - right. by exists 0%nat, (Running j).
  - right. by exists 0%nat, (Sending i res).
Qed.

Lemma sum_workLeft_insert (ws : list worker) k w w' :
  ws !! k = Some w →
  (sum_list (workLeft <$> <[k := w']> ws) + workLeft w
   = sum_list (workLeft <$> ws) + workLeft w')%nat.
Proof.
  revert k. induction ws as [|w0 ws IH]; intros k Hk; [done|].
  destruct k as [|k]; simpl in *.
  - injection Hk as ->. lia.
  - specialize (IH k Hk). unfold fmap in IH. lia.
Qed.

Lemma step_measure c p p' : step c p p' → (measure p' < measure p)%nat.
Proof.
  intros [j q ws o k Hk | q ws o k j env Hk | q ws o k i res Hk Hi];
    unfold measure; cbn [pending workers length].
  - pose proof (sum_workLeft_insert ws k _ (Running j) Hk) as Hsum.
    cbn [workLeft] in Hsum. lia.
  - pose proof (sum_workLeft_insert ws k _
                  (Sending (idx j) (checkOne c env (input j))) Hk) as Hsum.
    cbn [workLeft] in Hsum. lia.
  - pose proof (sum_workLeft_insert ws k _ Idle Hk) as Hsum.
    cbn [workLeft] in Hsum. lia.
Qed.

(** From every state that satisfies the invariant, some goroutine can
    move unless [CheckDomains] has returned. *)
Lemma pool_progress c inputs p :
  poolInv c inputs p → ¬ returned p → ∃ p', step c p p'.
Proof.
  intros (sent & Hpend & Hbound & Hlen & Hslice & Hheld & Hdone) Hnot.
  destruct p as [q ws o]. simpl in *.
  destruct (workers_idle_or_busy ws) as [Hidle | (k & w & Hk & Hw)].
  - destruct q as [|j q]; [exfalso; by apply Hnot|].
    pose proof (poolSize_pos c) as Hpos.
    destruct ws as [|w ws]; [simpl in Hlen; lia|].
    apply Forall_cons in Hidle as [-> _].
    eexists. by apply (step_send c j q _ o 0).
  - destruct w as [|j|i res]; [done| |].
    + eexists. by apply (step_check c q ws o k j inhabitant).
    + eexists. apply (step_collect c q ws o k i res); [done|].
      rewrite Forall_lookup in Hheld. destruct (Hheld k _ Hk) as [Hlt _]. lia.
Qed.

Lemma returned_dec p : returned p ∨ ¬ returned p.
Proof.
  destruct (workers_idle_or_busy (workers p)) as [Hidle | (k & w & Hk & Hw)].
  - destruct (pending p) as [|j q] eqn:Eq.
    + left. by split.
    + right. intros [Hq _]. congruence.
  - right. intros [_ Hidle]. rewrite Forall_lookup in Hidle.
    by specialize (Hidle k w Hk).
Qed.

(** The work left bounds the moves: the pool runs on until it returns. *)
Lemma pool_returns c inputs p :
  poolInv c inputs p → ∃ p', steps c p p' ∧ returned p'.
Proof.
  remember (measure p) as n eqn:Hn. revert p Hn.
  induction (lt_wf n) as [n _ IH]. intros p -> Hinv.
  destruct (returned_dec p) as [Hret | Hnot].
  - exists p. split; [apply rtc_refl | done].
  - destruct (pool_progress c inputs p Hinv Hnot) as [p1 Hstep].
    destruct (IH (measure p1) (step_measure c _ _ Hstep) p1 eq_refl)
      as (p' & Hsteps & Hret); [by eapply step_inv|].
    exists p'. split; [by eapply rtc_l | done].
Qed.

End PoolFacts.

(** C4. For every list of inputs, whatever the order in which the
    goroutines of [CheckDomains] move: in every state that the pool can
    reach the collector indexes inside the slice, some goroutine can move
    unless [CheckDomains] has returned, and every move uses up work left;
    the call can return; and the slice that it returns has the length of
    the input list and holds at each position a result of checking the
    input at that position. *)
Theorem CheckDomains_order `{GoLib} (c : Availability.Options) (inputs : list string) :
  (∀ p, Availability.steps c (Availability.initPool c inputs) p →
        ¬ Availability.indexPanic p ∧
        (¬ Availability.returned p → ∃ p', Availability.step c p p') ∧
        (∀ p', Availability.step c p p' →
               (Availability.measure p' < Availability.measure p)%nat)) ∧
  (∃ out, Availability.CheckDomains c inputs out) ∧
  (∀ out, Availability.CheckDomains c inputs out →
     length out = length inputs ∧
     ∀ i input, inputs !! i = Some input →
       ∃ env, out !! i = Some (Availability.checkOne c env input)).
Proof.
  split; [|split].
  - intros p Hsteps. pose proof (steps_inv c inputs p Hsteps) as Hinv.
    split; [|split].
    + destruct Hinv as (sent & _ & Hbound & _ & Hslice & Hheld & _).
      intros (k & i & res & Hk & Hi).
      rewrite Forall_lookup in Hheld. destruct (Hheld k _ Hk) as [Hlt _]. lia.
    + by apply (pool_progress c inputs).
    + intros p'. apply step_measure.
  - destruct (pool_returns c inputs _ (initPool_inv c inputs)) as (p & Hsteps & Hret).
    exists (Availability.outSlice p), p. done.
  - intros out (p & Hsteps & [Hq Hidle] & ->).
    destruct (steps_inv c inputs p Hsteps)
      as (sent & Hpend & Hbound & Hlen & Hslice & Hheld & Hdone).
    split; [done|]. intros i input Hi.
    assert (sent = length inputs) as ->.
    { rewrite Hq in Hpend. symmetry in Hpend. apply drop_nil_inv in Hpend.
      unfold Availability.jobsFrom in Hpend. rewrite length_imap in Hpend. lia. }
    destruct (Hdone i) as [(w & Hw & Hh) | (res & Hres & input' & env & Hin & ->)].
    + by eapply lookup_lt_Some.
    + rewrite Forall_forall in Hidle. rewrite (Hidle w Hw) in Hh. done.
    + exists env. rewrite Hi in Hin. by injection Hin as <-.
Qed.

(** A run on two inputs in which the second result is collected first. *)
Lemma CheckDomains_order_witness :
  let c := StandIn.noClients in
  let env := StandIn.quietEnv in
  let check := Availability.checkOne (H := StandIn.lib) c env in
  Availability.CheckDomains (H := StandIn.lib) c ["a.com"; "b.org"]
    [check "a.com"; check "b.org"] ∧
  ∀ i input, ["a.com"; "b.org"] !! i = Some input →
    ∃ env', [check "a.com"; check "b.org"] !! i
            = Some (Availability.checkOne (H := StandIn.lib) c env' input).
Proof.
  intros c env check.
  set (j0 := {| Availability.idx := 0; Availability.input := "a.com" |}).
  set (j1 := {| Availability.idx := 1; Availability.input := "b.org" |}).
  set (z := Availability.zeroResult).
  set (final := {| Availability.pending := [];
                   Availability.workers := [Availability.Idle; Availability.Idle];
                   Availability.outSlice := [check "a.com"; check "b.org"] |}).
  assert (Availability.steps (H := StandIn.lib) c
            (Availability.initPool c ["a.com"; "b.org"]) final) as Hsteps.
  { eapply rtc_l;
      [exact (Availability.step_send c j0 [j1]
                [Availability.Idle; Availability.Idle] [z; z] 0%nat eq_refl)|].
    eapply rtc_l;
      [exact (Availability.step_send c j1 []
                [Availability.Running j0; Availability.Idle] [z; z] 1%nat eq_refl)|].
    eapply rtc_l;
      [exact (Availability.step_check c []
                [Availability.Running j0; Availability.Running j1] [z; z]
                1%nat j1 env eq_refl)|].
    eapply rtc_l;
      [exact (Availability.step_collect c []
                [Availability.Running j0; Availability.Sending 1 (check "b.org")]
                [z; z] 1%nat 1%nat (check "b.org") eq_refl (le_n 2))|].
    eapply rtc_l;
      [exact (Availability.step_check c []
                [Availability.Running j0; Availability.Idle] [z; check "b.org"]
                0%nat j0 env eq_refl)|].
    eapply rtc_l;
      [exact (Availability.step_collect c []
                [Availability.Sending 0 (check "a.com"); Availability.Idle]
                [z; check "b.org"] 0%nat 0%nat (check "a.com") eq_refl
                (le_S 1 1 (le_n 1)))|].
    apply rtc_refl. }
  assert (Availability.CheckDomains (H := StandIn.lib) c ["a.com"; "b.org"]
            [check "a.com"; check "b.org"]) as Hrun.
  { exists final. split; [exact Hsteps|]. split; [|reflexivity].
    split; [reflexivity | repeat constructor]. }
  destruct (CheckDomains_order (H := StandIn.lib) c ["a.com"; "b.org"])
    as (_ & _ & Hout).
  destruct (Hout _ Hrun) as [_ Hall].
  split; [exact Hrun | exact Hall].
Defined.

(** ** The label generator *)
Section GenerateFacts.
Import Strings Generate.
Local Open Scope Z_scope.

Lemma ltb_false_le s1 s2 : String.ltb s2 s1 = false ↔ String.le s1 s2.
Proof.
  unfold String.le, String.ltb, String.leb.
  rewrite (String.compare_antisym s2 s1).
  destruct (String.compare s1 s2); simpl; split; done.
Qed.

Lemma lessEq_ranksBefore a b : lessEq a b ↔ ranksBefore a b.
Proof.
  unfold lessEq, less, ranksBefore.
  case_decide as Hs.
  - rewrite Z.ltb_ge. split; [intros ?; left; lia|]. intros [?|[? _]]; lia.
  - case_decide as Hl.
    + rewrite Nat.ltb_ge. split.
      * intros ?. right. split; [lia|]. left. lia.
      * intros [?|[_ [?|[? _]]]]; lia.
    + rewrite ltb_false_le. split.
      * intros ?. right. split; [lia|]. right. split; [lia | done].
      * intros [?|[_ [?|[_ ?]]]]; [lia | lia | done].
Qed.

#[local] Instance lessEq_trans : Transitive lessEq.
Proof.
  intros a b c. rewrite !lessEq_ranksBefore. unfold ranksBefore.
  intros [?|[? [?|[? Hab]]]] [?|[? [?|[? Hbc]]]];
    try (left; lia); try (right; split; [lia|]; left; lia).
  right. split; [lia|]. right. split; [lia|]. by etrans.
Qed.

#[local] Instance lessEq_antisym : AntiSymm (=) lessEq.
Proof.
  intros [la sa] [lb sb]. rewrite !lessEq_ranksBefore. unfold ranksBefore. simpl.
  intros [?|[? [?|[? Hab]]]] [?|[? [?|[? Hba]]]]; try lia.
  f_equal; [|done]. by apply (anti_symm String.le).
Qed.

#[local] Instance lessEq_total : Total lessEq.
Proof.
  intros a b. rewrite !lessEq_ranksBefore. unfold ranksBefore.
  destruct (Z.lt_trichotomy (Score a) (Score b)) as [?|[?|?]];
    [right; left; lia | | left; left; lia].
  destruct (Nat.lt_trichotomy (len (Label a)) (len (Label b))) as [?|[?|?]].
  - left. right. split; [done|]. by left.
  - destruct (total String.le (Label a) (Label b)).
    + left. right. split; [done|]. right. by split.
    + right. right. split; [done|]. right. by split.
  - right. right. split; [done|]. by left.
Qed.

(** Two slices that [sort.Slice] can leave of the same elements are the
    same slice. *)
Lemma sortSlice_unique l1 l2 s1 s2 :
  l1 ≡ₚ l2 → sortSlice less l1 s1 → sortSlice less l2 s2 → s1 = s2.
Proof.
  intros Hl [Hp1 Hs1] [Hp2 Hs2].
  apply (Sorted_unique lessEq); [done..|].
  by rewrite <- Hp1, <- Hp2.
Qed.

Lemma sortSlice_merge_sort l : sortSlice less l (merge_sort lessEq l).
Proof.
  split; [by rewrite merge_sort_Permutation|].
  apply (Sorted_merge_sort lessEq).
Qed.

Lemma truncate_sorted g l :
  Sorted lessEq l →
  StronglySorted ranksBefore (truncate g l) ∧
  (MaxLabels g > 0 → Z.of_nat (length (truncate g l)) ≤ MaxLabels g).
Proof.
  intros Hs%(Sorted_StronglySorted lessEq).
  assert (StronglySorted ranksBefore l) as Hr.
  { induction Hs as [|a l' Hs IH Ha]; constructor; [done|].
    eapply Forall_impl; [exact Ha|]. intros b. apply lessEq_ranksBefore. }
  unfold truncate. case_decide as Hcut.
  - split; [|intros _; rewrite length_take; lia].
    rewrite <- (take_drop (Z.to_nat (MaxLabels g)) l) in Hr.
    by apply StronglySorted_app_1_l in Hr.
  - split; [done|]. intros ?. lia.
Qed.

End GenerateFacts.

(** C8. The label generator is deterministic.  For every phrase and
    options a call of [Labels] returns a list; any two calls return the
    same list, whatever the order in which the map of candidates is
    ranged over and whatever [sort.Slice] does with equal elements; the
    list has the higher score first, then the shorter label, then the
    label that is lower byte by byte, and holds at most [max_labels]
    candidates. *)
Theorem Labels_deterministic `{GoLib} (g : Generate.Options) (phrase : string) :
  Generate.Labels g phrase (Generate.LabelsRun g phrase) ∧
  (∀ out1 out2,
     Generate.Labels g phrase out1 → Generate.Labels g phrase out2 → out1 = out2) ∧
  (∀ out,
     Generate.Labels g phrase out →
     StronglySorted Generate.ranksBefore out ∧
     ((Generate.MaxLabels g > 0)%Z →
      (Z.of_nat (length out) ≤ Generate.MaxLabels g)%Z)).
Proof.
  unfold Generate.Labels, Generate.LabelsRun.
  case_decide as Hp.
  { repeat split; try done; intros; subst; try done; [constructor | simpl; lia]. }
  case_decide as Ht.
  { repeat split; try done; intros; subst; try done; [constructor | simpl; lia]. }
  set (seen := Generate.collect g _).
  split; [|split].
  - exists (Generate.candidate <$> map_to_list seen),
           (@merge_sort _ Generate.lessEq Generate.lessEq_dec
              (Generate.candidate <$> map_to_list seen)).
    split; [done|]. split; [apply sortSlice_merge_sort | done].
  - intros out1 out2 (r1 & s1 & Hr1 & Hs1 & ->) (r2 & s2 & Hr2 & Hs2 & ->).
    f_equal. apply (sortSlice_unique r1 r2); [|done..]. by rewrite Hr1, Hr2.
  - intros out (r & s & Hr & [_ Hs] & ->). by apply truncate_sorted.
Qed.

(** The first test of [generate_test.go]: the ranked list for the phrase
    ["Ki agentur"], which holds [ki-agentur], [ai-agentur] and
    [agentur-ki]. *)
Lemma Labels_deterministic_witness :
  let g := Generate.New {| Generate.MaxLabels := 200; Generate.ReplaceKI := true;
                           Generate.Reverse2 := true; Generate.KeepHyphen := true;
                           Generate.MinTokenLen := 0 |} in
  let c label score := {| Generate.Label := label; Generate.Score := score |} in
  Generate.Labels (H := StandIn.lib) g "Ki agentur"
    [ c "ai-agentur" 100%Z; c "ki-agentur" 100%Z; c "aiagentur" 97%Z;
      c "kiagentur" 97%Z; c "agentur-ai" 90%Z; c "agentur-ki" 90%Z;
      c "agenturai" 87%Z; c "agenturki" 87%Z ].
Proof.
  intros g c.
  destruct (Labels_deterministic (H := StandIn.lib) g "Ki agentur") as [Hrun _].
  exact Hrun.
Defined.

(** ** Normalized names and lines of input *)
Section MoreStringFacts.
Import Strings.

Lemma len_SplitByte s sep :
  (len s + 1 = sum_list_with len (SplitByte s sep) + length (SplitByte s sep))%nat.
Proof.
  induction s as [|x s IH]; [done|]. cbn [SplitByte].
  change (len (String x s)) with (S (len s)).
  case_decide.
  - cbn [sum_list_with length]. change (len "") with 0%nat. lia.
  - destruct (SplitByte s sep) as [|h t].
    + simpl in IH. lia.
    + cbn [sum_list_with length] in *.
      change (len (String x h)) with (S (len h)). lia.
Qed.

Lemma SplitByte_no_sep s sep : Forall (λ l, hasByte sep l = false) (SplitByte s sep).
Proof.
  induction s as [|x s IH]; simpl; [by repeat constructor|].
  case_decide as Hx.
  - by constructor.
  - destruct (SplitByte s sep) as [|h t]; simpl.
    + repeat constructor. simpl. by rewrite decide_False.
    + apply Forall_cons in IH as [Hh Ht]. constructor; [|done].
      simpl. by rewrite decide_False.
Qed.

Lemma TrimLeftSpace_blank s :
  allBytes (λ c, asciiSpace (code c)) s = true → TrimLeftSpace s = EmptyString.
Proof.
  induction s as [|c s IH]; [done|]. simpl.
  intros [-> Hs]%andb_true_iff. by apply IH.
Qed.

(** Trimming cuts bytes off the two ends only. *)
Lemma TrimLeftSpace_cut s : ∃ a, s = a +:+ TrimLeftSpace s.
Proof.
  assert (∀ n s, (len s ≤ n)%nat → ∃ a, s = a +:+ TrimLeftSpace s) as Hind.
  { clear s. induction n as [|n IH]; intros s Hn.
    { destruct s; [by exists EmptyString | simpl in Hn; lia]. }
    destruct s as [|a r]; [by exists EmptyString|]. simpl in Hn. simpl.
    destruct (asciiSpace (code a)).
    { destruct (IH r) as [p Hp]; [lia|]. exists (String a p). rewrite append_cons. by rewrite <- Hp. }
    destruct r as [|b r2]; [by exists EmptyString|]. simpl in Hn.
    destruct (space2 (code a) (code b)).
    { destruct (IH r2) as [p Hp]; [lia|]. exists (String a (String b p)).
      rewrite !append_cons. by rewrite <- Hp. }
    destruct r2 as [|c r3]; [by exists EmptyString|]. simpl in Hn.
    destruct (space3 (code a) (code b) (code c)); [|by exists EmptyString].
    destruct (IH r3) as [p Hp]; [lia|]. exists (String a (String b (String c p))).
    rewrite !append_cons. by rewrite <- Hp. }
  by apply (Hind (len s)).
Qed.

Lemma trimLeftSpaceRev_cut s : ∃ a, s = a +:+ trimLeftSpaceRev s.
Proof.
  assert (∀ n s, (len s ≤ n)%nat → ∃ a, s = a +:+ trimLeftSpaceRev s) as Hind.
  { clear s. induction n as [|n IH]; intros s Hn.
    { destruct s; [by exists EmptyString | simpl in Hn; lia]. }
    destruct s as [|a r]; [by exists EmptyString|]. simpl in Hn. simpl.
    destruct (asciiSpace (code a)).
    { destruct (IH r) as [p Hp]; [lia|]. exists (String a p). rewrite append_cons. by rewrite <- Hp. }
    destruct r as [|b r2]; [by exists EmptyString|]. simpl in Hn.
    destruct (space2 (code b) (code a)).
    { destruct (IH r2) as [p Hp]; [lia|]. exists (String a (String b p)).
      rewrite !append_cons. by rewrite <- Hp. }
    destruct r2 as [|c r3]; [by exists EmptyString|]. simpl in Hn.
    destruct (space3 (code c) (code b) (code a)); [|by exists EmptyString].
    destruct (IH r3) as [p Hp]; [lia|]. exists (String a (String b (String c p))).
    rewrite !append_cons. by rewrite <- Hp. }
  by apply (Hind (len s)).
Qed.

Lemma TrimSpace_cut s : ∃ a b, s = a +:+ TrimSpace s +:+ b.
Proof.
  unfold TrimSpace, TrimRightSpace.
  destruct (TrimLeftSpace_cut s) as [a Ha].
  destruct (trimLeftSpaceRev_cut (String.rev (TrimLeftSpace s))) as [b Hb].
  exists a, (String.rev b).
  rewrite <- rev_append, <- Hb, rev_involutive. exact Ha.
Qed.

Lemma TrimSpace_keeps_out c s : hasByte c s = false → hasByte c (TrimSpace s) = false.
Proof.
  destruct (TrimSpace_cut s) as (a & b & Hs). intros Hc.
  rewrite Hs, !hasByte_append in Hc.
  by apply orb_false_iff in Hc as [_ [? _]%orb_false_iff].
Qed.

Lemma HasPrefix_hasByte s p c :
  HasPrefix s p = true → hasByte c p = true → hasByte c s = true.
Proof.
  intros [t ->]%HasPrefix_append Hc. by rewrite hasByte_append, Hc.
Qed.

Lemma Contains_bytes s p c :
  Contains s p = true → hasByte c p = true → hasByte c s = true.
Proof.
  intros Hs Hc. induction s as [|x s IH]; simpl in Hs.
  - rewrite orb_false_r in Hs. by apply (HasPrefix_hasByte _ p).
  - apply orb_true_iff in Hs as [Hs|Hs]; [by apply (HasPrefix_hasByte _ p)|].
    simpl. case_decide; [done | by apply IH].
Qed.

Lemma IndexByte_None s c : hasByte c s = false → IndexByte s c = None.
Proof.
  induction s as [|x s IH]; simpl; [done|].
  case_decide; [done|]. intros Hs. by rewrite IH.
Qed.

Lemma LastIndexByte_append s c t :
  hasByte c t = false → LastIndexByte (s +:+ String c t) c = Some (len s).
Proof.
  intros Ht. induction s as [|x s IH].
  - change (EmptyString +:+ String c t) with (String c t). simpl.
    apply LastIndexByte_None in Ht. rewrite Ht. by rewrite decide_True.
  - rewrite append_cons. simpl. by rewrite IH.
Qed.

Lemma TrimSuffix_byte s c : TrimSuffix (s +:+ String c EmptyString) (String c EmptyString) = s.
Proof.
  unfold TrimSuffix.
  assert (HasSuffix (s +:+ String c EmptyString) (String c EmptyString) = true) as ->.
  { apply HasSuffix_append. by exists s. }
  rewrite len_append. change (len (String c EmptyString)) with 1%nat.
  replace (len s + 1 - 1)%nat with (len s) by lia. apply takeS_append.
Qed.

End MoreStringFacts.

Section NormalizeFacts.
Import Strings Domain.
Context `{GoLib}.

Lemma isDigit_plain c : isDigit c = true → plain c = true ∧ hasByte c ":/?#[]" = false.
Proof.
  destruct c as [[] [] [] [] [] [] [] []]; vm_compute; intros; try done.
Qed.

Lemma isNameByte_brackets c : isNameByte c = true → hasByte c "[]" = false.
Proof.
  destruct c as [[] [] [] [] [] [] [] []]; vm_compute; intros; try done.
Qed.

(** A string without [/], [?] and [#] passes the URL and path steps. *)
Lemma urlHost_stripPath_id s :
  hasByte "/" s = false → hasByte "?" s = false → hasByte "#" s = false →
  stripPath (urlHost s) = s.
Proof.
  intros H1 H2 H3.
  assert (urlHost s = s) as ->.
  { unfold urlHost. destruct (Contains s "://") eqn:E; [|done].
    apply (Contains_bytes _ _ "/") in E; [congruence | done]. }
  unfold stripPath. rewrite IndexAny_None; [done|].
  intros c Hc. simpl in Hc. repeat case_decide; subst; done.
Qed.

(** [net.SplitHostPort] on a name, a colon and a port without colon and
    brackets. *)
Lemma stripPort_host_port host port :
  host ≠ EmptyString → allBytes isNameByte host = true →
  hasByte ":" port = false → hasByte "[" port = false → hasByte "]" port = false →
  stripPort (host +:+ String ":" port) = host.
Proof.
  intros Hne Hhost Hc Hl Hr.
  assert (∀ c, hasByte c "[]" = true → hasByte c host = false) as Hb.
  { intros c Hin. apply (allBytes_hasByte isNameByte); [done|].
    destruct (isNameByte c) eqn:E; [|done].
    apply isNameByte_brackets in E. congruence. }
  unfold stripPort, Net.SplitHostPort.
  rewrite LastIndexByte_append by done.
  assert (HasPrefix (host +:+ String ":" port) "[" = false) as ->.
  { destruct host as [|x host]; [done|]. rewrite append_cons. simpl.
    case_decide as Hx; [|done]. subst x.
    specialize (Hb "["%char eq_refl). simpl in Hb. by repeat case_decide. }
  rewrite takeS_append.
  rewrite (IndexByte_None host ":") by (by apply name_hasByte).
  rewrite !IndexByte_None; [done|..].
  - rewrite hasByte_append. simpl. by rewrite Hr, (Hb "]"%char).
  - rewrite hasByte_append. simpl. by rewrite Hl, (Hb "["%char).
Qed.

(** The steps of [Normalize] after the port step, on a valid name. *)
Lemma Normalize_from_port input n :
  TrimSpace input ≠ EmptyString →
  TrimSuffix (stripPort (stripPath (urlHost (TrimSpace input)))) "." = n →
  Contains n "." = true → isValidDomainASCII n = true →
  idna_lookup_to_ascii n = inl n →
  Normalize input = inl n.
Proof.
  intros Hin Hsteps Hdot Hvalid Hidna.
  destruct (isValidDomainASCII_inv n Hvalid) as (Hne & Hsuf & Hall).
  unfold Normalize. rewrite decide_False by done. rewrite Hsteps.
  rewrite TrimSpace_plain by (done || by apply name_plain).
  rewrite ToLower_name by done. rewrite decide_False by done.
  by rewrite Hidna, Hdot, Hvalid.
Qed.

End NormalizeFacts.

(** Every name that [Normalize] returns has 3 to 253 bytes, all of them
    lowercase letters, digits, hyphens or dots, and is made of two or
    more labels of 1 to 63 bytes that neither start nor end with a
    hyphen. *)
Theorem Normalize_output_wellformed `{GoLib} (d n : string) :
  Domain.Normalize d = inl n →
  (3 ≤ Strings.len n ≤ 253)%nat ∧
  Strings.allBytes Domain.isNameByte n = true ∧
  (2 ≤ length (Strings.SplitByte n "."))%nat ∧
  Forall (λ label,
            (1 ≤ Strings.len label ≤ 63)%nat ∧
            Strings.HasPrefix label "-" = false ∧
            Strings.HasSuffix label "-" = false ∧
            Strings.allBytes Domain.isLDH label = true)
         (Strings.SplitByte n ".").
Proof.
  intros [_ Hvalid]%Normalize_inv.
  pose proof (isValidDomainASCII_inv n Hvalid) as (_ & _ & Hbytes).
  unfold Domain.isValidDomainASCII in Hvalid.
  destruct ((Strings.len n <? 1) || (253 <? Strings.len n)) eqn:El; [done|].
  destruct (Strings.HasPrefix n "." || Strings.HasSuffix n "."); [done|].
  destruct (length (Strings.SplitByte n ".") <? 2) eqn:En; [done|].
  apply orb_false_iff in El as [_ El%Nat.ltb_ge]. apply Nat.ltb_ge in En.
  assert (Forall (λ label,
            (1 ≤ Strings.len label ≤ 63)%nat ∧
            Strings.HasPrefix label "-" = false ∧
            Strings.HasSuffix label "-" = false ∧
            Strings.allBytes Domain.isLDH label = true)
            (Strings.SplitByte n ".")) as Hlabels.
  { apply Forall_forall. intros label Hin.
    rewrite forallb_forall in Hvalid.
    specialize (Hvalid label (proj1 (list_elem_of_In _ _) Hin)).
    unfold Domain.validLabel in Hvalid.
    destruct ((Strings.len label <? 1) || (63 <? Strings.len label)) eqn:E1; [done|].
    destruct (Strings.HasPrefix label "-" || Strings.HasSuffix label "-") eqn:E2; [done|].
    apply orb_false_iff in E1 as [?%Nat.ltb_ge ?%Nat.ltb_ge].
    apply orb_false_iff in E2 as [? ?]. done. }
  split; [|done].
  split; [|done].
  pose proof (len_SplitByte n ".") as Hsum.
  assert (length (Strings.SplitByte n ".")
          ≤ sum_list_with Strings.len (Strings.SplitByte n "."))%nat.
  { clear -Hlabels. induction Hlabels as [|l ls [[Hl _] _] _ IH]; simpl; lia. }
  lia.
Qed.

Lemma Normalize_output_wellformed_witness :
  let n := "openai.com" in
  Domain.Normalize (H := StandIn.lib) " https://OpenAI.COM:443/foo?x " = inl n ∧
  (3 ≤ Strings.len n ≤ 253)%nat ∧
  Strings.allBytes Domain.isNameByte n = true ∧
  (2 ≤ length (Strings.SplitByte n "."))%nat ∧
  Forall (λ label,
            (1 ≤ Strings.len label ≤ 63)%nat ∧
            Strings.HasPrefix label "-" = false ∧
            Strings.HasSuffix label "-" = false ∧
            Strings.allBytes Domain.isLDH label = true)
         (Strings.SplitByte n ".").
Proof.
  intros n. split; [reflexivity|].
  apply (Normalize_output_wellformed (H := StandIn.lib)
           " https://OpenAI.COM:443/foo?x "). reflexivity.
Defined.

(** An input made of ASCII white space only, the empty input among
    them, is refused as an empty domain. *)
Theorem Normalize_blank_input `{GoLib} (input : string) :
  Strings.allBytes (λ c, Strings.asciiSpace (Strings.code c)) input = true →
  Domain.Normalize input = inr "empty domain".
Proof.
  intros Hblank. unfold Domain.Normalize, Strings.TrimSpace.
  by rewrite TrimLeftSpace_blank.
Qed.

Lemma Normalize_blank_input_witness :
  let input := String " " (String "009" (String "010" (String "013" " "))) in
  Domain.Normalize (H := StandIn.lib) input = inr "empty domain".
Proof.
  intros input. apply (Normalize_blank_input (H := StandIn.lib)). reflexivity.
Defined.

(** A valid name is found again under a port of digits and under a
    trailing dot, alone or together: [Normalize] returns the name. *)
Theorem Normalize_strips_port_and_dot `{GoLib} (n port : string) :
  Strings.Contains n "." = true →
  Domain.isValidDomainASCII n = true →
  idna_lookup_to_ascii n = inl n →
  Strings.allBytes Strings.isDigit port = true →
  Domain.Normalize (n +:+ ":" +:+ port) = inl n ∧
  Domain.Normalize (n +:+ ".") = inl n ∧
  Domain.Normalize (n +:+ ".:" +:+ port) = inl n.
Proof.
  intros Hdot Hvalid Hidna Hport.
  destruct (isValidDomainASCII_inv n Hvalid) as (Hne & Hsuf & Hall).
  pose proof (name_plain n Hall) as Hplain.
  assert (∀ c, Strings.hasByte c ":/?#[]" = true → Strings.hasByte c port = false) as Hp.
  { intros c Hc. apply (allBytes_hasByte Strings.isDigit); [done|].
    destruct (Strings.isDigit c) eqn:E; [|done].
    apply isDigit_plain in E as [_ E]. congruence. }
  assert (Strings.allBytes Strings.plain port = true) as Hpp.
  { eapply allBytes_impl; [|exact Hport]. intros c Hc. by apply isDigit_plain. }
  assert (∀ s, s ≠ EmptyString → Strings.allBytes Strings.plain s = true →
               (∀ c, Strings.hasByte c "/?#" = true → Strings.hasByte c s = false) →
               Domain.stripPath (Domain.urlHost (Strings.TrimSpace s)) = s ∧
               Strings.TrimSpace s ≠ EmptyString) as Hpass.
  { intros s Hs Hpl Hno. rewrite TrimSpace_plain by done.
    split; [|done]. apply urlHost_stripPath_id; by apply Hno. }
  assert (∀ c, Strings.hasByte c "/?#" = true → Strings.hasByte c n = false) as Hn.
  { intros c Hc. apply name_hasByte; [done|]. simpl in *.
    repeat case_decide; subst; done. }
  assert (∀ c, Strings.hasByte c "/?#" = true → Strings.hasByte c port = false) as Hp'.
  { intros c Hc. apply Hp. simpl in *. repeat case_decide; subst; done. }
  split; [|split].
  - destruct (Hpass (n +:+ ":" +:+ port)) as [Hs Hin].
    + destruct n; [done|]. by rewrite append_cons.
    + by rewrite !allBytes_append, Hplain, Hpp.
    + intros c Hc. rewrite !hasByte_append, (Hn c Hc), (Hp' c Hc). simpl.
      case_decide as E; [subst c; done | done].
    + apply Normalize_from_port; [done| |done..]. rewrite Hs.
      change (":" +:+ port) with (String ":" port).
      rewrite stripPort_host_port; [|done|done|by apply Hp..].
      unfold Strings.TrimSuffix. by rewrite Hsuf.
  - destruct (Hpass (n +:+ ".")) as [Hs Hin].
    + destruct n; [done|]. by rewrite append_cons.
    + by rewrite allBytes_append, Hplain.
    + intros c Hc. rewrite hasByte_append, (Hn c Hc). simpl.
      case_decide as E; [subst c; done | done].
    + apply Normalize_from_port; [done| |done..]. rewrite Hs.
      rewrite stripPort_no_colon; [apply TrimSuffix_byte|].
      rewrite hasByte_append. by rewrite (name_hasByte n ":").
  - destruct (Hpass (n +:+ ".:" +:+ port)) as [Hs Hin].
    + destruct n; [done|]. by rewrite append_cons.
    + by rewrite !allBytes_append, Hplain, Hpp.
    + intros c Hc. rewrite !hasByte_append, (Hn c Hc), (Hp' c Hc). simpl.
      repeat case_decide; subst; done.
    + apply Normalize_from_port; [done| |done..]. rewrite Hs.
      change (n +:+ ".:" +:+ port) with (n +:+ "." +:+ String ":" port).
      rewrite <- append_assoc.
      rewrite stripPort_host_port; [apply TrimSuffix_byte| | |by apply Hp..].
      * destruct n; [done|]. by rewrite append_cons.
      * by rewrite allBytes_append, Hall.
Qed.

Lemma Normalize_strips_port_and_dot_witness :
  let N := Domain.Normalize (H := StandIn.lib) in
  N "openai.com:443" = inl "openai.com" ∧
  N "openai.com." = inl "openai.com" ∧
  N "openai.com.:443" = inl "openai.com".
Proof.
  intros N.
  apply (Normalize_strips_port_and_dot (H := StandIn.lib) "openai.com" "443");
    reflexivity.
Defined.

(** ** Lines of input *)
Section ReadLinesFacts.
Import Strings Bufio DomainLines.

Lemma TrimSuffix_cut s suffix : ∃ b, s = TrimSuffix s suffix +:+ b.
Proof.
  destruct (TrimSuffix_append s suffix) as [-> | Heq].
  - exists EmptyString. by rewrite append_nil_r.
  - by exists suffix.
Qed.

Lemma token_of_segment seg c :
  hasByte c seg = false →
  hasByte c (TrimSpace (dropCR seg)) = false ∧
  (len (TrimSpace (dropCR seg)) ≤ len seg)%nat.
Proof.
  intros Hc. unfold dropCR.
  destruct (TrimSuffix_cut seg (String "013" EmptyString)) as [b Hb].
  destruct (TrimSpace_cut (TrimSuffix seg (String "013" EmptyString))) as (a & b' & Ha).
  split.
  - apply TrimSpace_keeps_out. rewrite Hb, hasByte_append in Hc.
    by apply orb_false_iff in Hc as [? _].
  - apply (f_equal len) in Hb, Ha. rewrite !len_append in *. lia.
Qed.

Lemma keepLines_tokens P tokens :
  Forall (λ t, P (TrimSpace t)) tokens →
  Forall (λ l, l ≠ EmptyString ∧ P l) (keepLines tokens).
Proof.
  induction 1 as [|t ts Ht _ IH]; simpl; [constructor|].
  case_decide; [done|]. by constructor.
Qed.

Lemma scanSegments_tokens c segs :
  Forall (λ seg, hasByte c seg = false) segs →
  Forall (λ t, hasByte c (TrimSpace t) = false ∧
               (Z.of_nat (len (TrimSpace t)) < MaxScanTokenSize)%Z)
         (scanSegments segs).1.
Proof.
  induction 1 as [|seg rest Hseg Hrest IH]; simpl; [constructor|].
  destruct rest as [|seg' rest].
  - case_decide; [constructor|].
    destruct (MaxScanTokenSize <=? Z.of_nat (len seg))%Z eqn:E; [constructor|].
    apply Z.leb_gt in E. repeat constructor; simpl.
    + by apply token_of_segment.
    + pose proof (proj2 (token_of_segment seg c Hseg)). lia.
  - destruct (MaxScanTokenSize <? Z.of_nat (len seg) + 1)%Z eqn:E; [constructor|].
    apply Z.ltb_ge in E.
    destruct (scanSegments (seg' :: rest)) as [lines err]. simpl in *.
    constructor; [|done]. split.
    + by apply token_of_segment.
    + pose proof (proj2 (token_of_segment seg c Hseg)). lia.
Qed.

Lemma SplitByte_nonempty s sep : SplitByte s sep ≠ [].
Proof.
  destruct s as [|x s]; simpl; [done|].
  case_decide; [done|]. by destruct (SplitByte s sep).
Qed.

Lemma SplitByte_none s sep : hasByte sep s = false → SplitByte s sep = [s].
Proof.
  induction s as [|x s IH]; simpl; [done|].
  case_decide; [done|]. intros Hs. by rewrite IH.
Qed.

Lemma SplitByte_append a t sep :
  SplitByte (a +:+ String sep t) sep = SplitByte a sep ++ SplitByte t sep.
Proof.
  induction a as [|x a IH].
  - change (EmptyString +:+ String sep t) with (String sep t). simpl.
    by rewrite decide_True.
  - rewrite append_cons. simpl. case_decide; [by rewrite IH|].
    rewrite IH. pose proof (SplitByte_nonempty a sep).
    by destruct (SplitByte a sep).
Qed.

Lemma SplitByte_Join lines sep :
  lines ≠ [] → Forall (λ l, hasByte sep l = false) lines →
  SplitByte (Join lines (String sep EmptyString)) sep = lines.
Proof.
  intros Hne Hall. induction Hall as [|l ls Hl Hls IH]; [done|].
  destruct ls as [|l' ls]; [by apply SplitByte_none|].
  change (Join (l :: l' :: ls) (String sep EmptyString))
    with (l +:+ String sep EmptyString +:+ Join (l' :: ls) (String sep EmptyString)).
  change (String sep EmptyString +:+ ?t) with (String sep t).
  rewrite SplitByte_append, SplitByte_none by done.
  by rewrite IH.
Qed.

(** A line of ASCII bytes without white space is scanned and trimmed to
    itself. *)
Lemma plain_no_space l c :
  allBytes plain l = true → asciiSpace (code c) = true → hasByte c l = false.
Proof.
  intros Hl Hc. apply (allBytes_hasByte plain); [done|].
  unfold plain. rewrite Hc. apply andb_false_r.
Qed.

Lemma dropCR_plain l : allBytes plain l = true → dropCR l = l.
Proof.
  intros Hl. unfold dropCR.
  destruct (TrimSuffix_append l (String "013" EmptyString)) as [-> | Heq]; [done|].
  pose proof (plain_no_space l "013"%char Hl eq_refl) as Hc.
  rewrite Heq, hasByte_append in Hc.
  by apply orb_false_iff in Hc as [_ Hc].
Qed.

Lemma scanSegments_lines lines :
  Forall (λ l, l ≠ EmptyString ∧ allBytes plain l = true ∧
               (Z.of_nat (len l) < MaxScanTokenSize)%Z) lines →
  scanSegments lines = (lines, None) ∧
  scanSegments (lines ++ [EmptyString]) = (lines, None).
Proof.
  induction 1 as [|l ls (Hne & Hpl & Hlen) Hls [IH1 IH2]]; [done|].
  assert ((MaxScanTokenSize <? Z.of_nat (len l) + 1)%Z = false) as Hfit
    by (apply Z.ltb_ge; lia).
  split.
  - destruct ls as [|l' ls]; simpl.
    + rewrite decide_False by done.
      assert ((MaxScanTokenSize <=? Z.of_nat (len l))%Z = false) as ->
        by (apply Z.leb_gt; lia).
      by rewrite dropCR_plain.
    + rewrite Hfit. simpl in IH1. rewrite IH1. by rewrite dropCR_plain.
  - change ((l :: ls) ++ [EmptyString]) with (l :: (ls ++ [EmptyString])).
    destruct (ls ++ [EmptyString]) as [|x xs] eqn:E; [by destruct ls|].
    change (scanSegments (l :: x :: xs))
      with (if (MaxScanTokenSize <? Z.of_nat (len l) + 1)%Z
            then ([], Some ErrTooLong)
            else let '(lines, err) := scanSegments (x :: xs) in
                 (dropCR l :: lines, err)).
    rewrite Hfit, IH2. by rewrite dropCR_plain.
Qed.

Lemma keepLines_lines lines :
  Forall (λ l, l ≠ EmptyString ∧ allBytes plain l = true ∧
               (Z.of_nat (len l) < MaxScanTokenSize)%Z) lines →
  keepLines lines = lines.
Proof.
  induction 1 as [|l ls (Hne & Hpl & _) _ IH]; [done|]. simpl.
  rewrite TrimSpace_plain by done. rewrite decide_False by done. by rewrite IH.
Qed.

End ReadLinesFacts.

(** [ReadLines] returns lines only when reading ends without error, and
    then none of them is empty, none holds a line feed and each is
    shorter than the 64 KiB buffer of the scanner. *)
Theorem ReadLines_lines (content : string) (readErr : option string)
    (lines : list string) :
  DomainLines.ReadLines content readErr = inl lines →
  readErr = None ∧
  Forall (λ l, l ≠ EmptyString ∧ Strings.hasByte "010" l = false ∧
               (Z.of_nat (Strings.len l) < Bufio.MaxScanTokenSize)%Z) lines.
Proof.
  unfold DomainLines.ReadLines, Bufio.ScanLines.
  pose proof (scanSegments_tokens "010" _ (SplitByte_no_sep content "010")) as Htok.
  destruct (Bufio.scanSegments _) as [tokens scanErr]. simpl in Htok.
  destruct scanErr as [err|]; [done|]. destruct readErr as [err|]; [done|].
  intros [= <-]. split; [done|].
  by apply (keepLines_tokens
              (λ l, Strings.hasByte "010" l = false ∧
                    (Z.of_nat (Strings.len l) < Bufio.MaxScanTokenSize)%Z)).
Qed.

Lemma ReadLines_lines_witness :
  let content := "a.com" +:+ String "013" (String "010" "  b.org ")
                 +:+ String "010" (String "010" "c.net") in
  DomainLines.ReadLines content None = inl ["a.com"; "b.org"; "c.net"] ∧
  Forall (λ l, l ≠ EmptyString ∧ Strings.hasByte "010" l = false ∧
               (Z.of_nat (Strings.len l) < Bufio.MaxScanTokenSize)%Z)
         ["a.com"; "b.org"; "c.net"].
Proof.
  intros content. split; [reflexivity|].
  apply (ReadLines_lines content None). reflexivity.
Defined.

(** Lines of ASCII text without white space, none empty and each
    shorter than the buffer, are read back as they were written, one per
    line, with or without a final line feed. *)
Theorem ReadLines_round_trip (lines : list string) :
  Forall (λ l, l ≠ EmptyString ∧ Strings.allBytes Strings.plain l = true ∧
               (Z.of_nat (Strings.len l) < Bufio.MaxScanTokenSize)%Z) lines →
  DomainLines.ReadLines (Strings.Join lines (String "010" EmptyString)) None
    = inl lines ∧
  DomainLines.ReadLines
    (Strings.Join lines (String "010" EmptyString) +:+ String "010" EmptyString) None
    = inl lines.
Proof.
  intros Hall. unfold DomainLines.ReadLines, Bufio.ScanLines.
  destruct (scanSegments_lines lines Hall) as [H1 H2].
  destruct lines as [|l ls]; [done|].
  assert (Forall (λ l, Strings.hasByte "010" l = false) (l :: ls)) as Hlf.
  { eapply Forall_impl; [exact Hall|]. intros x (_ & Hx & _).
    by apply plain_no_space. }
  rewrite SplitByte_append, SplitByte_Join by done.
  change (Strings.SplitByte EmptyString "010") with [EmptyString].
  rewrite H1, H2. by rewrite keepLines_lines.
Qed.

Lemma ReadLines_round_trip_witness :
  DomainLines.ReadLines ("a.com" +:+ String "010" "b.org") None
    = inl ["a.com"; "b.org"] ∧
  DomainLines.ReadLines ("a.com" +:+ String "010" "b.org" +:+ String "010" EmptyString) None
    = inl ["a.com"; "b.org"].
Proof.
  apply (ReadLines_round_trip ["a.com"; "b.org"]).
  repeat constructor; done.
Defined.

(** ** Generated labels *)
Section TokenFacts.
Import Strings Generate.
Local Open Scope Z_scope.

Lemma flush_tokens minLen cur :
  allBytes (λ c, isLowerAlpha c || isDigit c) cur = true →
  Forall (λ t, t ≠ EmptyString ∧ minLen ≤ Z.of_nat (len t) ∧
               allBytes (λ c, isLowerAlpha c || isDigit c) t = true)
         (flush minLen cur).
Proof.
  intros Hcur. unfold flush. case_decide as Hne; [constructor|].
  destruct (Z.of_nat (len cur) <? minLen) eqn:E; [constructor|].
  apply Z.ltb_ge in E. repeat constructor.
  - intros Hr. apply Hne. apply (f_equal String.rev) in Hr.
    by rewrite rev_involutive in Hr.
  - by rewrite len_rev.
  - by rewrite allBytes_rev.
Qed.

Lemma tokenizeGo_tokens minLen cur s :
  allBytes (λ c, isLowerAlpha c || isDigit c) cur = true →
  Forall (λ t, t ≠ EmptyString ∧ minLen ≤ Z.of_nat (len t) ∧
               allBytes (λ c, isLowerAlpha c || isDigit c) t = true)
         (tokenizeGo minLen cur s).
Proof.
  revert cur. induction s as [|c s IH]; intros cur Hcur; simpl.
  - by apply flush_tokens.
  - destruct (isLowerAlpha c || isDigit c) eqn:E.
    + apply IH. simpl. by rewrite E.
    + apply Forall_app. split; [by apply flush_tokens | by apply IH].
Qed.

End TokenFacts.

(** Every token that [tokenize] returns is a run of lowercase letters
    and digits, not empty and of [minLen] bytes or more. *)
Theorem tokenize_tokens `{GoLib} (s : string) (minLen : Z) :
  Forall (λ t, t ≠ EmptyString ∧ (minLen ≤ Z.of_nat (Strings.len t))%Z ∧
               Strings.allBytes (λ c, Strings.isLowerAlpha c || Strings.isDigit c) t
               = true)
         (Generate.tokenize s minLen).
Proof. unfold Generate.tokenize. by apply tokenizeGo_tokens. Qed.

Section ProductFacts.
Import Strings Generate.

Lemma product_eq alts cur out :
  product alts cur out
  = if (16 <=? length out)%nat then out
    else match alts with
         | [] => out ++ [cur]
         | vs :: rest => fold_left (λ out v, product rest (cur ++ [v]) out) vs out
         end.
Proof. by destruct alts. Qed.

(** What the closure [rec] adds to [out]: combinations that extend
    [cur] by one alternative for each position. *)
Lemma product_adds alts cur out :
  ∃ more, product alts cur out = out ++ more ∧
          Forall (λ c, ∃ picks, c = cur ++ picks ∧
                                Forall2 (λ x vs, x ∈ vs) picks alts) more.
Proof.
  revert cur out. induction alts as [|vs rest IH]; intros cur out;
    rewrite product_eq; destruct (16 <=? length out)%nat;
    try (exists []; split; [by rewrite app_nil_r | constructor]).
  - exists [cur]. split; [done|]. repeat constructor.
    exists []. split; [by rewrite app_nil_r | constructor].
  - assert (∀ vs' out, (∀ v, v ∈ vs' → v ∈ vs) →
              ∃ more, fold_left (λ out v, product rest (cur ++ [v]) out) vs' out
                      = out ++ more ∧
                      Forall (λ c, ∃ picks, c = cur ++ picks ∧
                                Forall2 (λ x vs, x ∈ vs) picks (vs :: rest)) more)
      as Hfold.
    { clear out. induction vs' as [|v vs' IHv]; intros out Hsub; simpl.
      - exists []. split; [by rewrite app_nil_r | constructor].
      - destruct (IH (cur ++ [v]) out) as (m1 & -> & Hm1).
        destruct (IHv (out ++ m1)) as (m2 & -> & Hm2).
        { intros x Hx. apply Hsub. by right. }
        exists (m1 ++ m2). split; [by rewrite app_assoc|].
        apply Forall_app. split; [|done].
        eapply Forall_impl; [exact Hm1|]. intros c (picks & -> & Hp).
        exists (v :: picks). split; [by rewrite <- app_assoc|].
        constructor; [|done]. apply Hsub. by left. }
    by apply Hfold.
Qed.

Lemma product_length alts cur out :
  (length out ≤ 16 → length (product alts cur out) ≤ 16)%nat.
Proof.
  revert cur out. induction alts as [|vs rest IH]; intros cur out Hout;
    rewrite product_eq; destruct (16 <=? length out)%nat eqn:E; try done.
  - apply Nat.leb_gt in E. rewrite length_app. simpl. lia.
  - clear E. revert out Hout.
    induction vs as [|v vs IHv]; intros out Hout; simpl; [done|].
    apply IHv. by apply IH.
Qed.

(** When every position has a first alternative, the combination of the
    first alternatives is the first one added. *)
Lemma product_first alts firsts cur out :
  (length out < 16)%nat →
  Forall2 (λ vs t, ∃ tl, vs = t :: tl) alts firsts →
  ∃ more, product alts cur out = out ++ (cur ++ firsts) :: more.
Proof.
  intros Hout Hf. revert cur out Hout.
  induction Hf as [|vs t rest firsts [tl ->] _ IH]; intros cur out Hout;
    rewrite product_eq;
    (assert ((16 <=? length out)%nat = false) as -> by (apply Nat.leb_gt; lia)).
  - exists []. by rewrite app_nil_r.
  - simpl. destruct (IH (cur ++ [t]) out Hout) as [m1 ->].
    rewrite <- (app_assoc cur). simpl.
    assert (∀ vs' acc, ∃ m, fold_left (λ out v, product rest (cur ++ [v]) out) vs' acc
                            = acc ++ m) as Hfold.
    { induction vs' as [|v vs' IHv]; intros acc; simpl.
      - exists []. by rewrite app_nil_r.
      - destruct (product_adds rest (cur ++ [v]) acc) as (m2 & -> & _).
        destruct (IHv (acc ++ m2)) as [m3 ->].
        exists (m2 ++ m3). by rewrite app_assoc. }
    destruct (Hfold tl (out ++ (cur ++ t :: firsts) :: m1)) as [m ->].
    exists (m1 ++ m). by rewrite <- app_assoc.
Qed.

End ProductFacts.

Section ExpandFacts.
Import Strings Generate.

Lemma Forall2_alternatives (alt : string → list string) picks tokens :
  Forall2 (λ x vs, x ∈ vs) picks (alt <$> tokens) →
  Forall2 (λ x t, x ∈ alt t) picks tokens.
Proof.
  revert picks. induction tokens as [|t tokens IH]; intros picks Hp;
    inversion Hp; subst; constructor; auto.
Qed.

Lemma product_combinations (alt : string → list string) tokens :
  (∀ t, ∃ tl, alt t = t :: tl) →
  let out := product (alt <$> tokens) [] [] in
  (1 ≤ length out ≤ 16)%nat ∧
  head out = Some tokens ∧
  Forall (λ c, Forall2 (λ x t, x ∈ alt t) c tokens) out.
Proof.
  intros Halt out.
  destruct (product_first (alt <$> tokens) tokens [] []) as [more Hfirst].
  { simpl. lia. }
  { apply Forall2_fmap_l. apply Forall_Forall2_diag, Forall_forall.
    intros t _. apply Halt. }
  destruct (product_adds (alt <$> tokens) [] []) as (more' & Hadds & Hall).
  pose proof (product_length (alt <$> tokens) [] []) as Hlen.
  fold out in Hfirst, Hadds, Hlen. change ([] ++ ?l) with l in *.
  split; [|split].
  - split; [rewrite Hfirst; simpl; lia | apply Hlen; simpl; lia].
  - by rewrite Hfirst.
  - rewrite Hadds. eapply Forall_impl; [exact Hall|].
    intros c (picks & -> & Hp). change ([] ++ picks) with picks.
    by apply Forall2_alternatives.
Qed.

End ExpandFacts.

(** [expandTokens] and [expandKI] return between 1 and 16 combinations.
    Each has one token for each token given: the token itself, or [eng]
    for [engineering] and [engineer] in [expandTokens], or the other of
    [ki] and [ai] in [expandKI]. *)
Theorem expand_bounded (tokens : list string) :
  ((1 ≤ length (Generate.expandTokens tokens) ≤ 16)%nat ∧
   Forall (λ c, Forall2 (λ x t, x = t ∨
                                (x = "eng" ∧ (t = "engineering" ∨ t = "engineer")))
                        c tokens)
          (Generate.expandTokens tokens)) ∧
  ((1 ≤ length (Generate.expandKI tokens) ≤ 16)%nat ∧
   Forall (λ c, Forall2 (λ x t, x = t ∨ (x = "ai" ∧ t = "ki") ∨ (x = "ki" ∧ t = "ai"))
                        c tokens)
          (Generate.expandKI tokens)).
Proof.
  split.
  - destruct (product_combinations Generate.engAlternatives tokens)
      as (Hlen & _ & Hall).
    { intros t. unfold Generate.engAlternatives. repeat case_decide; subst; by eexists. }
    split; [exact Hlen|]. eapply Forall_impl; [exact Hall|]. intros c Hc.
    eapply Forall2_impl; [exact Hc|]. intros x t.
    unfold Generate.engAlternatives.
    repeat case_decide; subst; rewrite !elem_of_cons, elem_of_nil; intuition auto.
  - destruct (product_combinations Generate.kiAlternatives tokens)
      as (Hlen & _ & Hall).
    { intros t. unfold Generate.kiAlternatives. repeat case_decide; subst; by eexists. }
    unfold Generate.expandKI.
    set (out := Generate.product _ _ _) in *.
    pose proof (filter_app_complement
                  (λ c, Generate.sameTokens c tokens = true) out) as Hperm.
    split.
    + apply Permutation_length in Hperm. by rewrite Hperm.
    + apply Forall_forall. intros c Hc.
      assert (c ∈ out) as Hin.
      { apply elem_of_app in Hc as [Hc|Hc];
          apply list_elem_of_filter in Hc as [_ Hc]; done. }
      rewrite Forall_forall in Hall. specialize (Hall c Hin).
      eapply Forall2_impl; [exact Hall|]. intros x t.
      unfold Generate.kiAlternatives.
      repeat case_decide; subst; rewrite !elem_of_cons, elem_of_nil; intuition auto.
Qed.

(** The tokens as given are the first combination of [expandTokens] and
    of [expandKI]: the cut at 16 combinations never drops them. *)
Theorem expand_base_first (tokens : list string) :
  head (Generate.expandTokens tokens) = Some tokens ∧
  head (Generate.expandKI tokens) = Some tokens.
Proof.
  split.
  - destruct (product_combinations Generate.engAlternatives tokens)
      as (_ & Hhead & _); [|done].
    intros t. unfold Generate.engAlternatives. repeat case_decide; subst; by eexists.
  - destruct (product_combinations Generate.kiAlternatives tokens)
      as (_ & Hhead & _).
    { intros t. unfold Generate.kiAlternatives. repeat case_decide; subst; by eexists. }
    unfold Generate.expandKI. apply head_Some in Hhead as [rest ->].
    rewrite filter_cons_True; [done|].
    unfold Generate.sameTokens. by apply bool_decide_eq_true.
Qed.

Section SequenceFacts.
Import Strings Generate.

Lemma dedupe_sublist seen l : dedupe seen l `sublist_of` l.
Proof.
  revert seen. induction l as [|s l IH]; intros seen; simpl; [done|].
  case_decide; [by apply sublist_cons | by apply sublist_skip].
Qed.

Lemma dedupe_keys seen l :
  NoDup ((λ s, Join s NUL) <$> dedupe seen l) ∧
  Forall (λ s, Join s NUL ∉ seen) (dedupe seen l).
Proof.
  revert seen. induction l as [|s l IH]; intros seen; simpl.
  - split; constructor.
  - case_decide as Hin; [apply IH|].
    destruct (IH ({[Join s NUL]} ∪ seen)) as [Hnd Hout].
    split.
    + rewrite fmap_cons. constructor; [|done].
      intros (s' & Heq & Hs')%list_elem_of_fmap.
      rewrite Forall_forall in Hout. apply (Hout s' Hs').
      rewrite <- Heq. apply elem_of_union_l. by apply elem_of_singleton.
    + constructor; [done|]. eapply Forall_impl; [exact Hout|].
      intros s' Hs' Hin'. apply Hs'. by apply elem_of_union_r.
Qed.

Lemma ngrams_sublist n tokens :
  Forall (λ s, s `sublist_of` tokens) (ngrams n tokens).
Proof.
  unfold ngrams. destruct (length tokens <? n)%nat; [constructor|].
  apply Forall_fmap, Forall_forall. intros i _. simpl.
  etrans; [apply sublist_take | apply sublist_drop].
Qed.

Lemma dropOne_sublist tokens :
  Forall (λ s, s `sublist_of` tokens) (dropOne tokens).
Proof.
  unfold dropOne. destruct (_ && _); [|constructor].
  apply Forall_fmap, Forall_forall. intros i _. apply sublist_delete.
Qed.

End SequenceFacts.

(** The sequences that [sequences] returns are distinct, none is empty,
    and each keeps tokens of the list given in their order; the first
    sequence is the list itself. *)
Theorem sequences_sublists (tokens : list string) :
  Forall (λ s, s ≠ [] ∧ s `sublist_of` tokens) (Generate.sequences tokens) ∧
  NoDup (Generate.sequences tokens) ∧
  (tokens ≠ [] → head (Generate.sequences tokens) = Some tokens).
Proof.
  unfold Generate.sequences. case_decide as Hlen.
  { split; [constructor|]. split; [constructor|].
    intros Hne. by destruct tokens. }
  set (out := [tokens] ++ _).
  assert (Forall (λ s, s `sublist_of` tokens) out) as Hsub.
  { subst out. repeat apply Forall_app_2;
      auto using ngrams_sublist, dropOne_sublist. }
  split; [|split].
  - apply Forall_forall. intros s Hs.
    apply (λ H, elem_of_sublist _ _ _ H (dedupe_sublist _ _)) in Hs.
    apply list_elem_of_filter in Hs as [Hne Hs].
    rewrite Forall_forall in Hsub. split; [|by apply Hsub].
    intros ->. by apply Hne.
  - eapply NoDup_fmap_1. apply dedupe_keys.
  - intros _. subst out. simpl.
    rewrite filter_cons_True by done. simpl.
    rewrite decide_False; [done|]. apply not_elem_of_empty.
Qed.

Section LabelFacts.
Import Strings Generate GenerateSeen.
Local Open Scope Z_scope.

Lemma scoreLabel_range tokens label : 1 ≤ scoreLabel tokens label ≤ 100.
Proof.
  unfold scoreLabel.
  repeat match goal with
         | |- context [if ?b then _ else _] => destruct b eqn:?
         end;
    rewrite ?Z.ltb_lt, ?Z.ltb_ge in *; lia.
Qed.

Lemma add_entries (P : string → Z → Prop) seen label score :
  map_Forall P seen →
  (isValidLabel (TrimByte label "-") = true → P (TrimByte label "-") score) →
  map_Forall P (add seen label score).
Proof.
  intros Hseen Hnew. unfold add.
  destruct (isValidLabel (TrimByte label "-")) eqn:E; simpl; [|done].
  destruct (seen !! TrimByte label "-") as [old|].
  - case_decide; [done|]. apply map_Forall_insert_2; auto.
  - apply map_Forall_insert_2; auto.
Qed.

Lemma addExpanded_entries g seen expanded :
  map_Forall entryOk seen → map_Forall entryOk (addExpanded g seen expanded).
Proof.
  intros Hseen. unfold addExpanded.
  assert (∀ seen tokens label d,
            0 ≤ d ≤ 13 → map_Forall entryOk seen →
            map_Forall entryOk (add seen label (scoreLabel tokens label - d)))
    as Hadd.
  { intros s tokens label d Hd Hs. apply add_entries; [done|].
    intros Hvalid. split; [done|].
    pose proof (scoreLabel_range tokens label). lia. }
  assert (∀ seen tokens label,
            map_Forall entryOk seen →
            map_Forall entryOk (add seen label (scoreLabel tokens label)))
    as Hadd0.
  { intros s tokens label Hs.
    replace (scoreLabel tokens label) with (scoreLabel tokens label - 0) by lia.
    apply Hadd; [lia | done]. }
  destruct expanded as [|e0 [|e1 [|e2 rest]]];
    try (apply Hadd; [lia|]; by apply Hadd0).
  destruct (Reverse2 g); [|apply Hadd; [lia|]; by apply Hadd0].
  apply Hadd; [lia|]. apply Hadd; [lia|]. apply Hadd; [lia|]. by apply Hadd0.
Qed.

Lemma fold_left_entries {A} (f : gmap string Z → A → gmap string Z) l seen :
  (∀ seen x, map_Forall entryOk seen → map_Forall entryOk (f seen x)) →
  map_Forall entryOk seen → map_Forall entryOk (fold_left f l seen).
Proof.
  intros Hf. revert seen. induction l as [|x l IH]; intros seen Hseen; simpl; auto.
Qed.

Lemma collect_entries g combos : map_Forall entryOk (collect g combos).
Proof.
  unfold collect. apply fold_left_entries; [|apply map_Forall_empty].
  intros seen toks Hseen. apply fold_left_entries; [|done].
  intros seen' seq Hseen'. apply fold_left_entries; [|done].
  intros seen'' expanded. apply addExpanded_entries.
Qed.

Context `{GoLib}.

(** The list returned is a part of the entries of the map, in some
    order. *)
Lemma Labels_entries g phrase out :
  Labels g phrase out →
  ∃ seen, map_Forall entryOk seen ∧ out ⊆+ candidate <$> map_to_list seen.
Proof.
  unfold Labels. case_decide.
  { intros ->. exists ∅. split; [apply map_Forall_empty | apply submseteq_nil_l]. }
  case_decide.
  { intros ->. exists ∅. split; [apply map_Forall_empty | apply submseteq_nil_l]. }
  intros (ranged & sorted & Hr & [Hp _] & ->).
  eexists. split; [apply collect_entries|].
  rewrite <- Hr, Hp. unfold truncate. case_decide; [apply submseteq_take | done].
Qed.

Lemma Labels_LabelsRun g phrase : Labels g phrase (LabelsRun g phrase).
Proof.
  unfold Labels, LabelsRun. case_decide; [done|]. case_decide; [done|].
  eexists _, _. split; [done|]. split; [|done]. apply sortSlice_merge_sort.
Qed.

End LabelFacts.

(** Every candidate that [Labels] returns has a label of 1 to 63
    lowercase letters, digits and hyphens that neither starts nor ends
    with a hyphen, and no two candidates have the same label. *)
Theorem Labels_labels_valid `{GoLib} (g : Generate.Options) (phrase : string)
    (out : list Generate.Candidate) :
  Generate.Labels g phrase out →
  Forall (λ c, (1 ≤ Strings.len (Generate.Label c) ≤ 63)%nat ∧
               Strings.HasPrefix (Generate.Label c) "-" = false ∧
               Strings.HasSuffix (Generate.Label c) "-" = false ∧
               Strings.allBytes Generate.isLDH (Generate.Label c) = true) out ∧
  NoDup (Generate.Label <$> out).
Proof.
  intros (seen & Hseen & Hsub)%Labels_entries. split.
  - apply Forall_forall. intros c Hc.
    apply (λ H, elem_of_submseteq _ _ _ H Hsub) in Hc.
    apply list_elem_of_fmap in Hc as ([label score] & -> & Hin).
    apply elem_of_map_to_list in Hin.
    destruct (Hseen label score Hin) as [Hvalid _]. simpl.
    unfold Generate.isValidLabel in Hvalid.
    case_decide as Hne; [done|].
    destruct (63 <? Strings.len label)%nat eqn:E1; [done|].
    destruct (Strings.HasPrefix label "-" || Strings.HasSuffix label "-") eqn:E2;
      [done|].
    apply Nat.ltb_ge in E1. apply orb_false_iff in E2 as [? ?].
    repeat split; try done. destruct label; [done | simpl; lia].
  - apply (fmap_submseteq Generate.Label) in Hsub.
    apply submseteq_sublist_l in Hsub as (l2 & Hl2 & Hperm).
    apply (sublist_NoDup _ l2); [|done]. rewrite Hperm.
    rewrite <- list_fmap_compose.
    apply (NoDup_fst_map_to_list seen).
Qed.

Lemma Labels_labels_valid_witness :
  let g := Generate.New {| Generate.MaxLabels := 5; Generate.ReplaceKI := true;
                           Generate.Reverse2 := true; Generate.KeepHyphen := true;
                           Generate.MinTokenLen := 2 |} in
  let out := Generate.LabelsRun (H := StandIn.lib) g "  Ki-Agentur, Wien! " in
  Generate.Label <$> out
  = ["ai-wien"; "ki-wien"; "ai-agentur"; "ki-agentur"; "agentur-wien"] ∧
  Forall (λ c, (1 ≤ Strings.len (Generate.Label c) ≤ 63)%nat ∧
               Strings.HasPrefix (Generate.Label c) "-" = false ∧
               Strings.HasSuffix (Generate.Label c) "-" = false ∧
               Strings.allBytes Generate.isLDH (Generate.Label c) = true) out ∧
  NoDup (Generate.Label <$> out).
Proof.
  intros g out. split; [by vm_compute|].
  apply (Labels_labels_valid (H := StandIn.lib) g "  Ki-Agentur, Wien! ").
  apply Labels_LabelsRun.
Defined.

(** Every candidate that [Labels] returns has a score from -12 to 100:
    [scoreLabel] gives 1 to 100, and the variants without hyphen and the
    reversed ones are lowered by 3, 10 and 13. *)
Theorem Labels_scores `{GoLib} (g : Generate.Options) (phrase : string)
    (out : list Generate.Candidate) :
  Generate.Labels g phrase out →
  Forall (λ c, (-12 ≤ Generate.Score c ≤ 100)%Z) out.
Proof.
  intros (seen & Hseen & Hsub)%Labels_entries.
  apply Forall_forall. intros c Hc.
  apply (λ H, elem_of_submseteq _ _ _ H Hsub) in Hc.
  apply list_elem_of_fmap in Hc as ([label score] & -> & Hin).
  apply elem_of_map_to_list in Hin.
  by destruct (Hseen label score Hin) as [_ Hscore].
Qed.

Lemma Labels_scores_witness :
  let g := Generate.New {| Generate.MaxLabels := 0; Generate.ReplaceKI := false;
                           Generate.Reverse2 := true; Generate.KeepHyphen := true;
                           Generate.MinTokenLen := 0 |} in
  let out := Generate.LabelsRun (H := StandIn.lib) g "agentic engineering" in
  Generate.Score <$> out = [100; 100; 97; 97; 90; 90; 87; 87]%Z ∧
  Forall (λ c, (-12 ≤ Generate.Score c ≤ 100)%Z) out.
Proof.
  intros g out. split; [by vm_compute|].
  apply (Labels_scores (H := StandIn.lib) g "agentic engineering").
  apply Labels_LabelsRun.
Defined.

(** ** WHOIS: retries *)
Section RetryFacts.
Import Strings WhoisRetry.
Local Open Scope Z_scope.
Context `{GoLib} {World : Type}.
Context (queryOnce : World → (string + error) * World).
Context (timer : Z → World → option error * World).

(** Doubling a backoff that does not wrap. *)
Lemma nextBackoff b :
  0 < b < 2 ^ 62 →
  minDuration (Int64.wrap (b * 2)) (2 * Whois.Second) = Z.min (2 * b) (2 * Whois.Second) ∧
  0 < Z.min (2 * b) (2 * Whois.Second) < 2 ^ 62.
Proof.
  intros Hb. unfold minDuration, Int64.wrap, Whois.Second.
  rewrite Z.mod_small by lia. case_decide; lia.
Qed.

Lemma queryLoop_log more backoff w log res w' log' :
  0 < backoff < 2 ^ 62 →
  queryLoop (recordAttempts queryOnce) (recordSleeps timer) more backoff (w, log)
  = (res, (w', log')) →
  ∃ evs, log' = log ++ evs ∧ retryLog more backoff evs res.
Proof.
  revert backoff w log.
  induction more as [|more IH]; intros backoff w log Hb; simpl;
    unfold recordAttempts; simpl;
    destruct (queryOnce w) as [[body|err] w1]; simpl.
  - intros [= <- <- <-]. eexists. split; [done|]. by constructor.
  - intros [= <- <- <-]. eexists. split; [done|]. constructor. intros e _. by left.
  - intros [= <- <- <-]. eexists. split; [done|]. by constructor.
  - destruct (isRetryable err) eqn:Er; simpl.
    + unfold sleepWithContext. rewrite decide_False by lia.
      unfold recordSleeps at 1. simpl.
      destruct (timer backoff w1) as [[err'|] w2]; simpl.
      * intros [= <- <- <-]. eexists. split; [by rewrite <- app_assoc|].
        by constructor.
      * intros Hrun. apply IH in Hrun as (evs & -> & Hshape).
        -- eexists. split; [by rewrite <- !app_assoc|]. by constructor.
        -- destruct (nextBackoff backoff Hb) as [-> ?]. done.
    + intros [= <- <- <-]. eexists. split; [done|]. constructor.
      intros e [= <-]. by right.
Qed.

(** What the shape gives, when doubling the backoff does not wrap. *)
Lemma retryLog_attempts more backoff log res :
  retryLog more backoff log res →
  (1 ≤ length (attemptsOf log) ≤ more + 1)%nat.
Proof.
  induction 1 as [more backoff r Hr | more backoff err err' Hr
                 | more backoff err log r Hr Hlog IH]; simpl; lia.
Qed.

Lemma retryLog_sleeps more backoff log res :
  retryLog more backoff log res →
  0 < backoff < 2 ^ 62 →
  (sleepsOf log = [] ∨ head (sleepsOf log) = Some backoff) ∧
  (∀ j d d', sleepsOf log !! j = Some d → sleepsOf log !! S j = Some d' →
             d' = Z.min (2 * d) (2 * Whois.Second)).
Proof.
  induction 1 as [more backoff r Hr | more backoff err err' Hr
                 | more backoff err log r Hr Hlog IH]; intros Hb; simpl.
  - split; [by left|]. intros j d d' Hj. done.
  - split; [by right|]. intros [|j] d d' Hj Hj'; done.
  - destruct (nextBackoff backoff Hb) as [Hnext Hb']. rewrite Hnext in IH.
    destruct (IH Hb') as [Hhead Hstep].
    split; [by right|]. intros [|j] d d'; simpl.
    + intros [= <-] Hd'. destruct Hhead as [Hnil | Hhead].
      * by rewrite Hnil in Hd'.
      * destruct (sleepsOf log) as [|x xs]; [done|]. simpl in *. congruence.
    + apply Hstep.
Qed.

Lemma retryLog_retried more backoff log res i r :
  retryLog more backoff log res →
  log !! i = Some (Attempt r) → (S i < length log)%nat →
  (∃ err, r = inr err ∧ isRetryable err = true) ∧
  ∃ d x, log !! S i = Some (Sleep d x).
Proof.
  intros Hlog. revert i.
  induction Hlog as [more backoff r0 Hr | more backoff err err' Hr
                    | more backoff err log r0 Hr Hlog IH]; intros i Hi Hlt; simpl in *.
  - destruct i; [lia | done].
  - destruct i as [|[|i]]; [|done..].
    injection Hi as <-. split; by eauto.
  - destruct i as [|[|i]]; [|done|].
    + injection Hi as <-. split; by eauto.
    + apply IH; [done | lia].
Qed.

Lemma retryLog_result more backoff log res :
  retryLog more backoff log res →
  match last log with
  | Some (Attempt r) => res = r
  | Some (Sleep _ (Some err)) => res = inr err
  | _ => False
  end.
Proof.
  induction 1 as [more backoff r Hr | more backoff err err' Hr
                 | more backoff err log r Hr Hlog IH]; [done..|].
  rewrite !last_cons. destruct (last log) as [ev|]; [exact IH | done].
Qed.

End RetryFacts.

(** [query] on a client of [NewClient], when [Retries + 1] and twice
    the backoff do not wrap.  It makes one attempt at least and
    [Retries + 1] at most.  An attempt is followed by another event only
    when it failed with an error that [isRetryable] accepts, and that
    event is a sleep; the first sleep lasts [Backoff], each later one
    twice the one before, 2 s at most.  The result is that of the last
    attempt, or the error of the context when it cut the last sleep
    short. *)
Theorem query_retry_policy `{GoLib} {World : Type}
    (queryOnce : World → (string + WhoisRetry.error) * World)
    (timer : Z → World → option WhoisRetry.error * World)
    (o : Whois.Options) (w : World) :
  let c := Whois.NewClient o in
  let retries := Whois.Retries (Whois.opts c) in
  let backoff := Whois.Backoff (Whois.opts c) in
  (retries < Int64.MaxInt64)%Z → (backoff < 2 ^ 62)%Z →
  let run := WhoisRetry.query (WhoisRetry.recordAttempts queryOnce)
               (WhoisRetry.recordSleeps timer) c (w, []) in
  let res := run.1 in
  let log := run.2.2 in
  (1 ≤ Z.of_nat (length (WhoisRetry.attemptsOf log)) ≤ retries + 1)%Z ∧
  (∀ i r, log !! i = Some (WhoisRetry.Attempt r) → (S i < length log)%nat →
     (∃ err, r = inr err ∧ WhoisRetry.isRetryable err = true) ∧
     ∃ d x, log !! S i = Some (WhoisRetry.Sleep d x)) ∧
  (WhoisRetry.sleepsOf log = [] ∨ head (WhoisRetry.sleepsOf log) = Some backoff) ∧
  (∀ j d d', WhoisRetry.sleepsOf log !! j = Some d →
             WhoisRetry.sleepsOf log !! S j = Some d' →
             d' = Z.min (2 * d) (2 * Whois.Second)) ∧
  match last log with
  | Some (WhoisRetry.Attempt r) => res = r
  | Some (WhoisRetry.Sleep _ (Some err)) => res = inr err
  | _ => False
  end.
Proof.
  intros c retries backoff Hretries Hbackoff run res log.
  assert (0 ≤ retries ∧ 0 < backoff)%Z as [Hr0 Hb0].
  { subst retries backoff c. unfold Whois.NewClient, Whois.Millisecond. simpl.
    repeat case_decide; lia. }
  subst run res log. unfold WhoisRetry.query.
  fold c. fold retries. fold backoff.
  assert (Int64.wrap (retries + 1) = retries + 1)%Z as ->.
  { unfold Int64.wrap, Int64.MaxInt64 in *. rewrite Z.mod_small; lia. }
  rewrite decide_False by lia. rewrite decide_False by lia.
  replace (retries + 1 - 1)%Z with retries by lia.
  destruct (WhoisRetry.queryLoop _ _ _ _ _) as [res [w' log]] eqn:Hrun.
  apply queryLoop_log in Hrun as (evs & -> & Hshape); [|lia].
  simpl.
  pose proof (retryLog_attempts _ _ _ _ Hshape) as Hcount.
  destruct (retryLog_sleeps _ _ _ _ Hshape) as [Hhead Hdouble]; [lia|].
  split; [lia|]. split; [|split; [done|split; [done|]]].
  - intros i r. by apply (retryLog_retried _ _ _ _ _ _ Hshape).
  - by apply (retryLog_result _ _ _ _ Hshape).
Qed.

(** A server that resets the connection twice and then answers: three
    attempts, with sleeps of 250 ms and 500 ms between them. *)
Lemma query_retry_policy_witness :
  let reset := {| WhoisRetry.text := "read tcp: Connection reset by peer";
                  WhoisRetry.isCanceled := false;
                  WhoisRetry.isDeadlineExceeded := false;
                  WhoisRetry.asNetError := None |} in
  let queryOnce := λ script : list (string + WhoisRetry.error),
    match script with
    | [] => (inr reset, [])
    | r :: rest => (r, rest)
    end in
  let timer := λ (d : Z) (script : list (string + WhoisRetry.error)),
    (@None WhoisRetry.error, script) in
  let o := {| Whois.Timeout := 0; Whois.Verbose := false;
              Whois.MaxConcurrentPerServer := 0; Whois.MinDelayPerServer := 0;
              Whois.Retries := 0; Whois.Backoff := 0 |} in
  let run := WhoisRetry.query (H := StandIn.lib)
               (WhoisRetry.recordAttempts queryOnce)
               (WhoisRetry.recordSleeps timer) (Whois.NewClient o)
               ([inr reset; inr reset; inl "Domain Name: EXAMPLE.COM"], []) in
  run.1 = inl "Domain Name: EXAMPLE.COM" ∧
  WhoisRetry.sleepsOf run.2.2 = [250000000; 500000000]%Z ∧
  (1 ≤ Z.of_nat (length (WhoisRetry.attemptsOf run.2.2)) ≤ 2 + 1)%Z.
Proof.
  intros reset queryOnce timer o run.
  split; [reflexivity|]. split; [reflexivity|].
  destruct (query_retry_policy (H := StandIn.lib) queryOnce timer o
              [inr reset; inr reset; inl "Domain Name: EXAMPLE.COM"])
    as [Hcount _]; [by vm_compute | by vm_compute |].
  exact Hcount.
Defined.

(** ** WHOIS: servers and evidence *)
Section WhoisServerFacts.
Import Strings Whois.
Context `{GoLib}.

Lemma scanServer_Ret lines server :
  scanServer lines = Some (Ret server) → server ≠ EmptyString.
Proof.
  induction lines as [|text rest IH]; cbn [scanServer]; [done|].
  case_decide; [exact IH|].
  destruct (HasPrefix (ToLower (TrimSpace text)) "whois:"); [|exact IH].
  destruct (len (TrimSpace text) <? 6)%nat; [done|].
  destruct (Fields (TrimSpace (dropS 6 (TrimSpace text)))) as [|field fields];
    [done|].
  case_decide; [exact IH|]. by intros [= <-].
Qed.

Lemma serverForTLD_Ret query c tld server c' :
  serverForTLD query c tld = (Ret server, c') →
  server ≠ EmptyString ∧
  ToLower (TrimSpace tld) ≠ EmptyString ∧
  tldToServer c' !! ToLower (TrimSpace tld) = Some server ∧
  opts c' = opts c ∧ serverState c' = serverState c.
Proof.
  unfold serverForTLD. case_decide as Htld; [done|].
  destruct (tldToServer c !! ToLower (TrimSpace tld)) as [s|] eqn:Hs.
  - case_decide as Hempty.
    + destruct (query _ _) as [body|err]; [|done].
      destruct (Bufio.ScanLines body) as [lines scanErr].
      destruct (scanServer lines) as [[s'|err|msg]|] eqn:Hscan;
        [|done|done|by destruct scanErr].
      intros [= <- <-]. simpl. rewrite lookup_insert_eq.
      by apply scanServer_Ret in Hscan.
    + by intros [= <- <-].
  - destruct (query _ _) as [body|err]; [|done].
    destruct (Bufio.ScanLines body) as [lines scanErr].
    destruct (scanServer lines) as [[s'|err|msg]|] eqn:Hscan;
      [|done|done|by destruct scanErr].
    intros [= <- <-]. simpl. rewrite lookup_insert_eq.
    by apply scanServer_Ret in Hscan.
Qed.

End WhoisServerFacts.

(** A server that [serverForTLD] returns is not empty, and it is
    remembered: the next call for the same TLD on the client returns it
    again without any query, and leaves the client as it is. *)
Theorem serverForTLD_cache `{GoLib} (query : string → string → string + string)
    (c c' : Whois.Client) (tld server : string) :
  Whois.serverForTLD query c tld = (Ret server, c') →
  server ≠ EmptyString ∧
  ∀ query', Whois.serverForTLD query' c' tld = (Ret server, c').
Proof.
  intros (Hne & Htld & Hcache & _)%serverForTLD_Ret.
  split; [done|]. intros query'. unfold Whois.serverForTLD.
  rewrite decide_False by done. rewrite Hcache. by rewrite decide_False.
Qed.

Lemma serverForTLD_cache_witness :
  let nl := String "010" EmptyString in
  let iana := "domain:       COM" +:+ nl +:+ nl +:+
              "whois:        whois.verisign-grs.com" +:+ nl in
  let query := λ server q : string,
    if decide (server = "whois.iana.org") then @inl string string iana
    else inr "no route to host" in
  let down := λ server q : string, @inr string string "network is down" in
  let c0 := Whois.NewClient
              {| Whois.Timeout := 0; Whois.Verbose := false;
                 Whois.MaxConcurrentPerServer := 0; Whois.MinDelayPerServer := 0;
                 Whois.Retries := 0; Whois.Backoff := 0 |} in
  let c1 := (Whois.serverForTLD (H := StandIn.lib) query c0 " COM").2 in
  Whois.serverForTLD (H := StandIn.lib) down c0 " COM" = (Fail "network is down", c0) ∧
  Whois.serverForTLD (H := StandIn.lib) query c0 " COM"
    = (Ret "whois.verisign-grs.com", c1) ∧
  Whois.serverForTLD (H := StandIn.lib) down c1 " COM"
    = (Ret "whois.verisign-grs.com", c1).
Proof.
  intros nl iana query down c0 c1.
  assert (Whois.serverForTLD (H := StandIn.lib) query c0 " COM"
          = (Ret "whois.verisign-grs.com", c1)) as Hfirst by reflexivity.
  split; [reflexivity|]. split; [exact Hfirst|].
  by apply (serverForTLD_cache (H := StandIn.lib) query c0 c1 " COM").
Defined.

Section WhoisEvidenceFacts.
Import Strings Whois.
Context `{GoLib}.

Lemma firstNeedle_tag l pattern :
  firstNeedle l notFoundPatterns = Some pattern → pattern ≠ EmptyString.
Proof.
  unfold notFoundPatterns. simpl.
  repeat (destruct (Contains l _); [by intros [= <-]|]). done.
Qed.

Lemma firstMatch_source domain body re :
  firstMatch body (recordPatterns domain) = Some re → re ≠ EmptyString.
Proof.
  unfold recordPatterns. simpl.
  repeat (destruct (regexp_match _ body); [by intros [= <-]|]). done.
Qed.

Lemma classify_cases domain body :
  let '(status, pattern) := classify domain body in
  (status = "available" ∧ pattern ≠ EmptyString) ∨
  (status = "taken" ∧ pattern ≠ EmptyString) ∨
  (status = "unknown" ∧ pattern = EmptyString).
Proof.
  unfold classify.
  destruct (firstNeedle _ _) as [pattern|] eqn:En.
  { left. split; [done|]. by eapply firstNeedle_tag. }
  destruct (firstMatch _ _) as [re|] eqn:Em.
  { right. left. split; [done|]. by eapply firstMatch_source. }
  destruct (_ || _); [right; left | right; right]; done.
Qed.

End WhoisEvidenceFacts.

(** Every evidence that the WHOIS [LookupDomain] returns is available
    or taken, then with confidence medium, no error, the server asked and
    the pattern that matched, or it is unknown, with confidence low and
    no pattern. *)
Theorem whois_evidence_shape `{GoLib} (query : string → string → string + string)
    (c c' : Whois.Client) (domain : string) (ev : Whois.Evidence) :
  Whois.LookupDomain query c domain = (Ret ev, c') →
  ((Whois.Status ev = "available" ∧ Whois.Reason ev = "whois not-found pattern") ∨
   (Whois.Status ev = "taken" ∧ Whois.Reason ev = "whois record found")) ∧
  Whois.Confidence ev = "medium" ∧ Whois.Err ev = None ∧
  Whois.Server ev ≠ EmptyString ∧ Whois.Pattern ev ≠ EmptyString
  ∨
  Whois.Status ev = "unknown" ∧ Whois.Confidence ev = "low" ∧
  Whois.Pattern ev = EmptyString ∧
  (Whois.Err ev = None → Whois.Reason ev = "whois ambiguous").
Proof.
  unfold Whois.LookupDomain. case_decide; [intros [= <- <-]; by right|].
  destruct (Whois.serverForTLD _ _ _) as [[server|err|msg] c1] eqn:Hs;
    [|intros [= <- <-]; by right | done].
  apply serverForTLD_Ret in Hs as (Hserver & _).
  destruct (query server domain) as [body|err]; [|intros [= <- <-]; by right].
  pose proof (classify_cases domain body) as Hc.
  destruct (Whois.classify domain body) as [status pattern].
  destruct Hc as [[-> Hp] | [[-> Hp] | [-> ->]]].
  - rewrite decide_True by done. intros [= <- <-]. left. simpl. by auto.
  - rewrite decide_False by done. rewrite decide_True by done.
    intros [= <- <-]. left. simpl. by auto.
  - rewrite !decide_False by done. intros [= <- <-]. by right.
Qed.

Lemma whois_evidence_shape_witness :
  let nl := String "010" EmptyString in
  let query := λ server q : string,
    if decide (server = "whois.iana.org")
    then @inl string string ("whois: whois.nic.example" +:+ nl)
    else inl ("No match for " +:+ q +:+ nl) in
  let c0 := Whois.NewClient
              {| Whois.Timeout := 0; Whois.Verbose := false;
                 Whois.MaxConcurrentPerServer := 0; Whois.MinDelayPerServer := 0;
                 Whois.Retries := 0; Whois.Backoff := 0 |} in
  let run := Whois.LookupDomain (H := StandIn.lib) query c0 "free.example" in
  ∃ ev, run = (Ret ev, run.2) ∧
        Whois.Status ev = "available" ∧ Whois.Pattern ev = "no_match_for" ∧
        Whois.Server ev = "whois.nic.example" ∧ Whois.Confidence ev = "medium".
Proof.
  intros nl query c0 run.
  eexists. split; [reflexivity|].
  destruct (whois_evidence_shape (H := StandIn.lib) query c0 run.2 "free.example" _
              eq_refl) as [(_ & Hconf & _) | (Hu & _)]; [|discriminate Hu].
  split; [reflexivity|]. split; [reflexivity|]. split; [reflexivity|].
  exact Hconf.
Defined.

(** ** The label and the TLD of a name *)
Section SplitFacts.
Import Strings.

Lemma LastIndexByte_last s c i :
  LastIndexByte s c = Some i → hasByte c (dropS (S i) s) = false.
Proof.
  revert i. induction s as [|x s IH]; intros i; simpl; [done|].
  destruct (LastIndexByte s c) as [j|] eqn:E.
  - intros [= <-]. by apply IH.
  - case_decide; [|done]. intros [= <-]. simpl. by apply LastIndexByte_None.
Qed.

Lemma allBytes_dropS p n s : allBytes p s = true → allBytes p (dropS n s) = true.
Proof.
  intros Hs. rewrite <- (takeS_dropS n s), allBytes_append in Hs.
  by apply andb_true_iff in Hs as [_ ?].
Qed.

End SplitFacts.

Section NameSplit.
Import Strings.
Context `{GoLib}.

Lemma name_split n :
  Contains n "." = true → Domain.isValidDomainASCII n = true →
  let label := (Availability.splitDomain n).1 in
  let tld := (Availability.splitDomain n).2 in
  n = label +:+ "." +:+ tld ∧
  label ≠ EmptyString ∧ tld ≠ EmptyString ∧
  hasByte "." tld = false ∧
  allBytes Domain.isLDH tld = true ∧
  Whois.lastLabel n = tld ∧ Rdap.lastLabel n = tld.
Proof.
  intros Hdot Hvalid.
  destruct (isValidDomainASCII_inv n Hvalid) as (Hne & Hsuf & Hall).
  assert (HasPrefix n "." = false) as Hpre.
  { unfold Domain.isValidDomainASCII in Hvalid.
    destruct (_ || _) in Hvalid; [done|].
    destruct (HasPrefix n "." || HasSuffix n ".") eqn:E; [done|].
    by apply orb_false_iff in E as [? _]. }
  apply (Contains_hasByte n "." EmptyString) in Hdot.
  destruct (LastIndexByte n ".") as [i|] eqn:Hi; last first.
  { apply LastIndexByte_None in Hi. congruence. }
  pose proof (LastIndexByte_last _ _ _ Hi) as Hlast.
  destruct (LastIndexByte_Some _ _ _ Hi) as [Hlt Hsplit].
  assert (i ≠ (len n - 1)%nat) as Hend.
  { intros ->.
    assert (dropS (S (len n - 1)) n = EmptyString) as Hd.
    { pose proof (len_dropS (S (len n - 1)) n) as Hl.
      destruct (dropS _ n); [done | simpl in Hl; lia]. }
    rewrite Hd in Hsplit.
    assert (HasSuffix n "." = true); [|congruence].
    apply HasSuffix_append. by eexists. }
  assert (i ≠ 0%nat) as Hstart.
  { intros ->. destruct n as [|x n]; [done|]. simpl in Hsplit.
    change (EmptyString +:+ ?s) with s in Hsplit. injection Hsplit as ->.
    simpl in Hpre. by repeat case_decide. }
  unfold Availability.splitDomain, Whois.lastLabel, Rdap.lastLabel.
  rewrite Hi, !decide_False by done. simpl.
  replace (i + 1)%nat with (S i) by lia.
  split; [exact Hsplit|]. split; [|split; [|split; [done|split; [|done]]]].
  - destruct n; [done|]. by destruct i.
  - intros Hd. pose proof (len_dropS (S i) n) as Hl. rewrite Hd in Hl.
    simpl in Hl. lia.
  - apply (allBytes_dropS _ (S i)) in Hall.
    clear -Hall Hlast. induction (dropS (S i) n) as [|x s IH]; [done|].
    simpl in *. case_decide as Hx; [done|].
    apply andb_true_iff in Hall as [Hx' Hs]. rewrite IH by done.
    rewrite andb_true_r. unfold Domain.isNameByte in Hx'.
    apply orb_true_iff in Hx' as [?|Hx']; [done|].
    apply bool_decide_eq_true in Hx'. congruence.
Qed.

End NameSplit.

(** A name that [Normalize] returns is split at its last dot into a
    label and a TLD, both not empty, the TLD without dot and made of
    letters, digits and hyphens; [lastLabel] of the WHOIS and of the RDAP
    client give the same TLD. *)
Theorem normalized_name_splits `{GoLib} (d n : string) :
  Domain.Normalize d = inl n →
  let label := (Availability.splitDomain n).1 in
  let tld := (Availability.splitDomain n).2 in
  n = label +:+ "." +:+ tld ∧
  label ≠ EmptyString ∧ tld ≠ EmptyString ∧
  Strings.hasByte "." tld = false ∧
  Strings.allBytes Domain.isLDH tld = true ∧
  Whois.lastLabel n = tld ∧ Rdap.lastLabel n = tld.
Proof. intros [Hdot Hvalid]%Normalize_inv. by apply name_split. Qed.

Lemma normalized_name_splits_witness :
  Domain.Normalize (H := StandIn.lib) "https://www.Example.co.uk/x" = inl "www.example.co.uk" ∧
  Availability.splitDomain "www.example.co.uk" = ("www.example.co", "uk") ∧
  Whois.lastLabel "www.example.co.uk" = "uk" ∧
  Rdap.lastLabel "www.example.co.uk" = "uk".
Proof.
  destruct (normalized_name_splits (H := StandIn.lib)
              "https://www.Example.co.uk/x" "www.example.co.uk" eq_refl)
    as (_ & _ & _ & _ & _ & Hw & Hr).
  split; [reflexivity|]. split; [reflexivity|]. split; [exact Hw | exact Hr].
Defined.

(** ** RDAP: the bootstrap registry and the lookup URL *)
Section BootstrapFacts.
Import Strings RdapBootstrap.
Context `{GoLib}.

Lemma uniqURLs_urls seen urls :
  NoDup (uniqURLs seen urls) ∧
  Forall (λ u, (u ∉ seen) ∧ u ≠ EmptyString ∧ url_parse_host u ≠ None ∧
               ∃ raw, raw ∈ urls ∧ u = TrimSpace raw)
         (uniqURLs seen urls).
Proof.
  revert seen. induction urls as [|raw rest IH]; intros seen; simpl.
  - split; constructor.
  - assert (∀ seen',
              seen ⊆ seen' →
              NoDup (uniqURLs seen' rest) ∧
              Forall (λ u, (u ∉ seen) ∧ u ≠ EmptyString ∧ url_parse_host u ≠ None ∧
                           ∃ raw', raw' ∈ raw :: rest ∧ u = TrimSpace raw')
                     (uniqURLs seen' rest)) as Hrest.
    { intros seen' Hsub. destruct (IH seen') as [Hnd Hall]. split; [done|].
      eapply Forall_impl; [exact Hall|].
      intros u (Hu & Hne & Hp & raw' & Hin & ->).
      split; [by intros ?%Hsub|]. split; [done|]. split; [done|].
      exists raw'. split; [by right | done]. }
    case_decide as Hempty; [by apply Hrest|].
    case_decide as Hparse; [by apply Hrest|].
    case_decide as Hseen; [by apply Hrest|].
    destruct (IH ({[TrimSpace raw]} ∪ seen)) as [Hnd Hall].
    destruct (Hrest ({[TrimSpace raw]} ∪ seen)) as [_ Hall'];
      [by apply union_subseteq_r|].
    split.
    + constructor; [|done]. intros Hin. rewrite Forall_forall in Hall.
      destruct (Hall _ Hin) as [Hout _]. apply Hout.
      apply elem_of_union_l. by apply elem_of_singleton.
    + constructor; [|done]. split; [done|]. split; [done|]. split; [done|].
      exists raw. split; [by left | done].
Qed.

Lemma addTLDs_keys urls m tlds :
  (∀ tld, is_Some (m !! tld) → tld ≠ EmptyString) →
  ∀ tld, is_Some (addTLDs urls m tlds !! tld) → tld ≠ EmptyString.
Proof.
  unfold addTLDs. revert m. induction tlds as [|t tlds IH]; intros m Hm; simpl;
    [done|].
  apply IH. case_decide as Ht; [done|].
  intros tld [x Hx]. destruct (decide (ToLower (TrimSpace t) = tld)) as [<-|Hne].
  - done.
  - rewrite lookup_insert_ne in Hx by done. apply Hm. by eexists.
Qed.

Lemma addService_keys m svc :
  (∀ tld, is_Some (m !! tld) → tld ≠ EmptyString) →
  ∀ tld, is_Some (addService m svc !! tld) → tld ≠ EmptyString.
Proof.
  intros Hm. unfold addService.
  destruct svc as [|tlds [|urls [|x rest]]]; try done. by apply addTLDs_keys.
Qed.

Lemma services_keys services m :
  (∀ tld, is_Some (m !! tld) → tld ≠ EmptyString) →
  ∀ tld, is_Some (fold_left addService services m !! tld) → tld ≠ EmptyString.
Proof.
  revert m. induction services as [|svc services IH]; intros m Hm; simpl; [done|].
  apply IH. by apply addService_keys.
Qed.

(** A service with two members that comes last decides the URLs of its
    TLDs. *)
Lemma addTLDs_last urls m tlds t :
  t ∈ tlds → ToLower (TrimSpace t) ≠ EmptyString →
  addTLDs urls m tlds !! ToLower (TrimSpace t) = Some urls.
Proof.
  unfold addTLDs. revert m. induction tlds as [|t' tlds IH]; intros m Hin Hne;
    [by apply elem_of_nil in Hin|].
  simpl. destruct (decide (t ∈ tlds)) as [Hlater|Hnot]; [by apply IH|].
  apply elem_of_cons in Hin as [<-|Hin]; [|done].
  rewrite decide_False by done.
  clear IH. revert m. induction tlds as [|t'' tlds IH]; intros m; simpl.
  - apply lookup_insert_eq.
  - apply not_elem_of_cons in Hnot as [Hne' Hnot].
    case_decide as He; [by apply IH|].
    destruct (decide (ToLower (TrimSpace t'') = ToLower (TrimSpace t))) as [Heq|Hd].
    + rewrite Heq, insert_insert_eq. by apply IH.
    + rewrite insert_insert_ne by done. by apply IH.
Qed.

End BootstrapFacts.

(** In the registry that [parseBootstrap] returns no TLD is empty, and
    the URLs of a TLD are distinct, not empty and accepted by
    [url.Parse].  Of two services that name a TLD the later one counts:
    the URLs of a TLD of the last service are those of that service. *)
Theorem parseBootstrap_urls `{GoLib} (decoded : list (list (list string)) + string)
    (bs : Rdap.bootstrap) :
  RdapBootstrap.parseBootstrap decoded = inl bs →
  (∀ tld urls,
     Rdap.tldToURLs bs !! tld = Some urls →
     tld ≠ EmptyString ∧ NoDup urls ∧
     Forall (λ u, u ≠ EmptyString ∧ url_parse_host u ≠ None) urls) ∧
  (∀ services tlds urls t,
     decoded = inl (services ++ [[tlds; urls]]) →
     t ∈ tlds → Strings.ToLower (Strings.TrimSpace t) ≠ EmptyString →
     Rdap.tldToURLs bs !! Strings.ToLower (Strings.TrimSpace t)
     = Some (RdapBootstrap.uniqURLs ∅ urls)).
Proof.
  unfold RdapBootstrap.parseBootstrap. destruct decoded as [services|err]; [|done].
  intros [= <-]. simpl. split.
  - intros tld urls Hl. rewrite lookup_fmap in Hl.
    destruct (fold_left _ services ∅ !! tld) as [raw|] eqn:Hraw; [|done].
    injection Hl as <-.
    destruct (uniqURLs_urls ∅ raw) as [Hnd Hall].
    split; [|split; [done|]].
    + apply (services_keys services ∅); [|by eexists].
      intros t [x Hx]. by rewrite lookup_empty in Hx.
    + eapply Forall_impl; [exact Hall|]. by intros u (_ & ? & ? & _).
  - intros services' tlds urls t [= ->] Hin Hne.
    rewrite lookup_fmap, fold_left_app. simpl.
    by rewrite addTLDs_last.
Qed.

(** The registry of [rdap_test.go]. *)
Lemma parseBootstrap_urls_witness :
  let decoded := @inl _ string
    [ [["com"]; ["https://rdap.example/"]];
      [["de"; "io"]; ["https://rdap.one/"; "https://rdap.two/"]] ] in
  ∃ bs, RdapBootstrap.parseBootstrap (H := StandIn.lib) decoded = inl bs ∧
        Rdap.urlsForTLD (H := StandIn.lib) bs "com" = ["https://rdap.example/"] ∧
        Rdap.urlsForTLD (H := StandIn.lib) bs "DE"
        = ["https://rdap.one/"; "https://rdap.two/"] ∧
        Rdap.tldToURLs bs !! "io" = Some ["https://rdap.one/"; "https://rdap.two/"].
Proof.
  intros decoded. eexists. split; [reflexivity|].
  split; [by vm_compute|]. split; [by vm_compute|].
  destruct (parseBootstrap_urls (H := StandIn.lib) decoded _ eq_refl) as [_ Hlast].
  assert ("io" ∈ ["de"; "io"]) as Hin by (right; left).
  assert (Strings.ToLower (H := StandIn.lib) (Strings.TrimSpace "io") ≠ EmptyString)
    as Hne by done.
  exact (Hlast [[["com"]; ["https://rdap.example/"]]] ["de"; "io"]
           ["https://rdap.one/"; "https://rdap.two/"] "io" eq_refl Hin Hne).
Defined.

Section RequestURLFacts.
Import Strings Fmt.

Lemma hexDigit_safe c :
  shouldEscape (hexDigit (code c / 16)) = false ∧
  shouldEscape (hexDigit (code c mod 16)) = false.
Proof. destruct c as [[] [] [] [] [] [] [] []]; by vm_compute. Qed.

Lemma PathEscape_bytes s c :
  hasByte c (PathEscape s) = true → c = "%"%char ∨ shouldEscape c = false.
Proof.
  induction s as [|x s IH]; simpl; [done|].
  destruct (shouldEscape x) eqn:Ex; simpl.
  - destruct (hexDigit_safe x) as [Hhi Hlo].
    repeat case_decide; subst; auto.
  - case_decide; subst; auto.
Qed.

Lemma PathEscape_name s : allBytes Domain.isNameByte s = true → PathEscape s = s.
Proof.
  induction s as [|x s IH]; simpl; [done|].
  intros [Hx Hs]%andb_true_iff.
  assert (shouldEscape x = false) as ->.
  { revert Hx. clear. destruct x as [[] [] [] [] [] [] [] []]; by vm_compute. }
  by rewrite IH.
Qed.

Lemma TrimLeftByte_head s c : HasPrefix (TrimLeftByte s c) (String c EmptyString) = false.
Proof.
  induction s as [|x s IH]; simpl; [done|].
  case_decide as Hx; [done|]. simpl. by rewrite decide_False.
Qed.

End RequestURLFacts.

(** The URL that [lookupOne] requests is the base without its final
    slashes, [/domain/] and one path segment: the escaped domain holds
    no [/], [?] or [#], whatever the domain is, and for a name of
    letters, digits, hyphens and dots it is the name itself. *)
Theorem requestURL_segment (base domain : string) :
  Rdap.requestURL base domain
  = Strings.TrimRightByte base "/" +:+ "/domain/" +:+ Fmt.PathEscape domain ∧
  Strings.HasSuffix (Strings.TrimRightByte base "/") "/" = false ∧
  (∀ c, Strings.hasByte c "/?# " = true →
        Strings.hasByte c (Fmt.PathEscape domain) = false) ∧
  (Strings.allBytes Domain.isNameByte domain = true →
   Fmt.PathEscape domain = domain).
Proof.
  split; [done|]. split; [|split].
  - unfold Strings.HasSuffix, Strings.TrimRightByte. rewrite rev_involutive.
    apply TrimLeftByte_head.
  - intros c Hc. destruct (Strings.hasByte c (Fmt.PathEscape domain)) eqn:E; [|done].
    apply PathEscape_bytes in E as [-> | E]; [done|].
    simpl in Hc. repeat case_decide; subst; done.
  - apply PathEscape_name.
Qed.

Example requestURL_examples :
  Rdap.requestURL "https://rdap.example//" "example.com"
  = "https://rdap.example/domain/example.com" ∧
  Rdap.requestURL "https://rdap.example" "a/b?c#d e"
  = "https://rdap.example/domain/a%2Fb%3Fc%23d%20e".
Proof. by vm_compute. Qed.

(** ** The fields of a result *)

Section CheckOneBlocks.
Import Strings Availability.
Context `{GoLib}.

(** What the RDAP block does to a result: the fields of the name and
    of WHOIS are kept, the RDAP fields hold the evidence, and the block
    returns exactly when the evidence is [available] or [taken]. *)
Lemma rdapBlock_effect env ascii r :
  let er := rdapEvidence env ascii in
  let x := rdapBlock env ascii r in
  (Domain (outcomeOf x) = Domain r ∧ Label (outcomeOf x) = Label r ∧
   TLD (outcomeOf x) = TLD r) ∧
  (Method (outcomeOf x) = "rdap" ∧
   RDAPStatus (outcomeOf x) = Rdap.Status er ∧
   RDAPReason (outcomeOf x) = Rdap.Reason er ∧
   RDAPURL (outcomeOf x) = Rdap.URL er ∧
   RDAPCode (outcomeOf x) = Rdap.HTTPStatus er ∧
   RDAPError (outcomeOf x)
   = match Rdap.Err er with Some msg => msg | None => RDAPError r end) ∧
  (WHOISStatus (outcomeOf x) = WHOISStatus r ∧
   WHOISReason (outcomeOf x) = WHOISReason r ∧
   WHOISServer (outcomeOf x) = WHOISServer r ∧
   WHOISPattern (outcomeOf x) = WHOISPattern r ∧
   WHOISError (outcomeOf x) = WHOISError r) ∧
  match x with
  | inl r' =>
      (Rdap.Status er = "available" ∨ Rdap.Status er = "taken") ∧
      Status r' = Rdap.Status er ∧ Confidence r' = Rdap.Confidence er ∧
      Detail r' = Rdap.Reason er ∧ Error r' = EmptyString
  | inr r' =>
      (Rdap.Status er ≠ "available" ∧ Rdap.Status er ≠ "taken") ∧
      Status r' = Status r ∧ Confidence r' = Confidence r ∧
      Detail r' = (if decide (Detail r = EmptyString) then Rdap.Reason er
                   else Detail r) ∧
      Error r' = match Rdap.Err er with
                 | Some msg => if decide (Error r = EmptyString) then msg
                               else Error r
                 | None => Error r
                 end
  end.
Proof.
  intros er x. subst er x. unfold rdapBlock, stamp, conclude, outcomeOf.
  destruct (Rdap.Err (rdapEvidence env ascii)) as [msg|]; cbn -[String.append].
  all: repeat case_decide; cbn -[String.append] in *.
  all: repeat case_decide; split_and!; auto.
  all: try (intuition congruence).
  all: destruct (decide (Rdap.Reason (rdapEvidence env ascii) = EmptyString));
    intuition congruence.
Qed.

(** What the WHOIS block does to a result. *)
Lemma whoisBlock_effect env ascii r :
  let ew := whoisEvidence env ascii in
  let x := whoisBlock env ascii r in
  (Domain (outcomeOf x) = Domain r ∧ Label (outcomeOf x) = Label r ∧
   TLD (outcomeOf x) = TLD r) ∧
  (RDAPStatus (outcomeOf x) = RDAPStatus r ∧
   RDAPReason (outcomeOf x) = RDAPReason r ∧
   RDAPURL (outcomeOf x) = RDAPURL r ∧
   RDAPCode (outcomeOf x) = RDAPCode r ∧
   RDAPError (outcomeOf x) = RDAPError r) ∧
  (Method (outcomeOf x) = "whois" ∧
   WHOISStatus (outcomeOf x) = Whois.Status ew ∧
   WHOISReason (outcomeOf x) = Whois.Reason ew ∧
   WHOISServer (outcomeOf x) = Whois.Server ew ∧
   WHOISPattern (outcomeOf x) = Whois.Pattern ew ∧
   WHOISError (outcomeOf x)
   = match Whois.Err ew with Some msg => msg | None => WHOISError r end) ∧
  match x with
  | inl r' =>
      (Whois.Status ew = "available" ∨ Whois.Status ew = "taken") ∧
      Status r' = Whois.Status ew ∧ Confidence r' = Whois.Confidence ew ∧
      Detail r' = Whois.Reason ew ∧ Error r' = EmptyString
  | inr r' =>
      (Whois.Status ew ≠ "available" ∧ Whois.Status ew ≠ "taken") ∧
      Status r' = Status r ∧ Confidence r' = Confidence r ∧
      Detail r' = (if decide (Detail r = EmptyString) then Whois.Reason ew
                   else Detail r) ∧
      Error r' = match Whois.Err ew with
                 | Some msg => msg
                 | None => Error r
                 end
  end.
Proof.
  intros ew x. subst ew x. unfold whoisBlock, stamp, conclude, outcomeOf.
  destruct (Whois.Err (whoisEvidence env ascii)) as [msg|]; cbn -[String.append].
  all: repeat case_decide; cbn -[String.append] in *.
  all: repeat case_decide; split_and!; auto.
  all: try (intuition congruence).
  all: destruct (decide (Whois.Reason (whoisEvidence env ascii) = EmptyString));
    intuition congruence.
Qed.

(** The summary touches the detail only, and only an empty one. *)
Lemma summarize_effect r :
  let r' := summarize r in
  (Domain r' = Domain r ∧ Label r' = Label r ∧ TLD r' = TLD r) ∧
  (Method r' = Method r ∧ Status r' = Status r ∧ Confidence r' = Confidence r ∧
   Error r' = Error r) ∧
  (RDAPStatus r' = RDAPStatus r ∧ RDAPReason r' = RDAPReason r ∧
   RDAPURL r' = RDAPURL r ∧ RDAPCode r' = RDAPCode r ∧
   RDAPError r' = RDAPError r) ∧
  (WHOISStatus r' = WHOISStatus r ∧ WHOISReason r' = WHOISReason r ∧
   WHOISServer r' = WHOISServer r ∧ WHOISPattern r' = WHOISPattern r ∧
   WHOISError r' = WHOISError r) ∧
  (Detail r ≠ EmptyString → Detail r' = Detail r) ∧
  (Detail r = EmptyString → RDAPReason r = EmptyString →
   WHOISReason r = EmptyString → Detail r' = "lookup unavailable").
Proof.
  intros r'. subst r'. unfold summarize.
  destruct (decide (Detail r = EmptyString)) as [Hd|Hd]; [|by split_and!].
  split; [by repeat case_decide|]. split; [by repeat case_decide|].
  split; [by repeat case_decide|]. split; [by repeat case_decide|].
  split; [done|]. intros _ Hr Hw.
  rewrite decide_False by (intros [? _]; done).
  rewrite decide_False by (by intros ?).
  by rewrite decide_False by (by intros ?).
Qed.

End CheckOneBlocks.
Section CheckOnePaths.
Import Strings Availability.
Context `{GoLib}.

(** [checkOne] on an input that normalizes: the result that enters the
    blocks, and the way through them. *)
Lemma checkOne_normalized c env input ascii :
  Domain.Normalize input = inl ascii →
  ∃ r0,
    (Domain r0 = ascii ∧ Label r0 = (splitDomain ascii).1 ∧
     TLD r0 = (splitDomain ascii).2) ∧
    (Status r0 = "unknown" ∧ Method r0 = "none" ∧ Confidence r0 = "low" ∧
     Detail r0 = EmptyString ∧ Error r0 = EmptyString) ∧
    (RDAPStatus r0 = EmptyString ∧ RDAPReason r0 = EmptyString ∧
     RDAPURL r0 = EmptyString ∧ RDAPCode r0 = 0%Z ∧
     RDAPError r0 = EmptyString) ∧
    (WHOISStatus r0 = EmptyString ∧ WHOISReason r0 = EmptyString ∧
     WHOISServer r0 = EmptyString ∧ WHOISPattern r0 = EmptyString ∧
     WHOISError r0 = EmptyString) ∧
    checkOne c env input
    = match (if RDAP c then rdapBlock env ascii r0 else inr r0) with
      | inl r => r
      | inr r =>
          match (if negb (NoWHOIS c) && WHOIS c then whoisBlock env ascii r
                 else inr r) with
          | inl r => r
          | inr r => stamp env (summarize r)
          end
      end.
Proof.
  intros Hn. unfold checkOne. rewrite Hn.
  destruct (splitDomain ascii) as [label tld].
  set (r0 := if decide (_ = ascii) then _ else _).
  exists r0. split_and!; try reflexivity; subst r0; by case_decide.
Qed.

End CheckOnePaths.

(** The blocks on the way of a result, with what each does to it. *)
Ltac check_paths c :=
  destruct (Availability.RDAP c), (Availability.NoWHOIS c), (Availability.WHOIS c);
  cbn [negb andb];
  repeat match goal with
    | |- context [Availability.rdapBlock ?e ?a ?r] =>
        let E := fresh "Erdap" in
        pose proof (rdapBlock_effect e a r) as E; cbv zeta in E;
        destruct (Availability.rdapBlock e a r); cbn [Availability.outcomeOf] in E
    | |- context [Availability.whoisBlock ?e ?a ?r] =>
        let E := fresh "Ewhois" in
        pose proof (whoisBlock_effect e a r) as E; cbv zeta in E;
        destruct (Availability.whoisBlock e a r); cbn [Availability.outcomeOf] in E
    | |- context [Availability.summarize ?r] =>
        let E := fresh "Esum" in
        let r' := fresh "r" in
        pose proof (summarize_effect r) as E; cbv zeta in E;
        set (r' := Availability.summarize r) in *; clearbody r'
    end;
  unfold Availability.stamp; cbn -[String.append];
  destruct_and?.

(** For an input that normalizes, the result names the last source
    asked: [whois] when WHOIS was asked, else [rdap] when the checker has
    an RDAP client, else [none].  WHOIS is asked only when it is not
    switched off, the checker has a WHOIS client, and RDAP is absent or
    did not answer [available] or [taken].  The fields of a source hold
    what it answered, and are empty when it was not asked. *)
Theorem checkOne_sources `{GoLib} (c : Availability.Options) (env : Availability.Env)
    (input ascii : string) :
  Domain.Normalize input = inl ascii →
  let r := Availability.checkOne c env input in
  let er := Availability.rdapEvidence env ascii in
  let ew := Availability.whoisEvidence env ascii in
  let asked :=
    negb (Availability.NoWHOIS c) && Availability.WHOIS c
    && negb (Availability.RDAP c
             && (bool_decide (Rdap.Status er = "available")
                 || bool_decide (Rdap.Status er = "taken"))) in
  Availability.Method r
  = (if asked then "whois" else if Availability.RDAP c then "rdap" else "none") ∧
  (if Availability.RDAP c
   then Availability.RDAPStatus r = Rdap.Status er ∧
        Availability.RDAPReason r = Rdap.Reason er ∧
        Availability.RDAPURL r = Rdap.URL er ∧
        Availability.RDAPCode r = Rdap.HTTPStatus er ∧
        Availability.RDAPError r = default EmptyString (Rdap.Err er)
   else Availability.RDAPStatus r = EmptyString ∧
        Availability.RDAPReason r = EmptyString ∧
        Availability.RDAPURL r = EmptyString ∧
        Availability.RDAPCode r = 0%Z ∧
        Availability.RDAPError r = EmptyString) ∧
  (if asked
   then Availability.WHOISStatus r = Whois.Status ew ∧
        Availability.WHOISReason r = Whois.Reason ew ∧
        Availability.WHOISServer r = Whois.Server ew ∧
        Availability.WHOISPattern r = Whois.Pattern ew ∧
        Availability.WHOISError r = default EmptyString (Whois.Err ew)
   else Availability.WHOISStatus r = EmptyString ∧
        Availability.WHOISReason r = EmptyString ∧
        Availability.WHOISServer r = EmptyString ∧
        Availability.WHOISPattern r = EmptyString ∧
        Availability.WHOISError r = EmptyString).
Proof.
  intros Hn r er ew asked. subst r er ew asked.
  destruct (checkOne_normalized c env input ascii Hn)
    as (r0 & Hname & Hstate & Hrdap & Hwhois & ->).
  check_paths c.
  all: repeat match goal with
         | Hs : _ ∨ _ |- _ => destruct Hs
         end.
  all: repeat case_bool_decide; cbn [negb andb orb]; try congruence.
  all: destruct (Rdap.Err (Availability.rdapEvidence env ascii)),
                (Whois.Err (Availability.whoisEvidence env ascii));
       cbn [default from_option id] in *.
  all: split_and!; congruence.
Qed.
(** A result that is [available] or [taken] has no error and was
    settled by one source: by RDAP, and then the WHOIS fields are empty,
    or by WHOIS, which is then switched on and was not preceded by an
    RDAP answer [available] or [taken]; its status, confidence and detail
    are the status, confidence and reason of that source. *)
Theorem checkOne_conclusive `{GoLib} (c : Availability.Options) (env : Availability.Env)
    (input : string) :
  let r := Availability.checkOne c env input in
  Availability.Status r ≠ "unknown" →
  Availability.Error r = EmptyString ∧
  ∃ ascii, Domain.Normalize input = inl ascii ∧
    let er := Availability.rdapEvidence env ascii in
    let ew := Availability.whoisEvidence env ascii in
    (Availability.RDAP c = true ∧ Availability.Method r = "rdap" ∧
     Availability.Status r = Rdap.Status er ∧
     Availability.Confidence r = Rdap.Confidence er ∧
     Availability.Detail r = Rdap.Reason er ∧
     Availability.WHOISStatus r = EmptyString ∧
     Availability.WHOISServer r = EmptyString)
    ∨
    (Availability.NoWHOIS c = false ∧ Availability.WHOIS c = true ∧
     (Availability.RDAP c = true →
      Rdap.Status er ≠ "available" ∧ Rdap.Status er ≠ "taken") ∧
     Availability.Method r = "whois" ∧
     Availability.Status r = Whois.Status ew ∧
     Availability.Confidence r = Whois.Confidence ew ∧
     Availability.Detail r = Whois.Reason ew).
Proof.
  intros r. subst r.
  destruct (Domain.Normalize input) as [ascii|err] eqn:Hn.
  2: { unfold Availability.checkOne. rewrite Hn. done. }
  destruct (checkOne_normalized c env input ascii Hn)
    as (r0 & Hname & Hstate & Hrdap & Hwhois & ->).
  check_paths c.
  all: intros Hs; try (exfalso; apply Hs; congruence).
  all: split; [congruence|]; exists ascii; split; [reflexivity|]; cbv zeta.
  all: first [ left; split_and!; congruence
             | right; split_and!; first [congruence | by intros _ | by intros ?] ].
Qed.

(** The domain of a result.  For an input that normalizes it is the
    normalized name, which is the label, a dot and the TLD of the result,
    neither of them empty.  For any other input it is the trimmed input,
    with no label and no TLD; the result is then unknown, by no method,
    with the error of [Normalize] and the detail [invalid input]. *)
Theorem checkOne_domain_fields `{GoLib} (c : Availability.Options)
    (env : Availability.Env) (input : string) :
  let r := Availability.checkOne c env input in
  match Domain.Normalize input with
  | inl ascii =>
      Availability.Domain r = ascii ∧
      ascii = Availability.Label r +:+ "." +:+ Availability.TLD r ∧
      Availability.Label r ≠ EmptyString ∧ Availability.TLD r ≠ EmptyString ∧
      Strings.hasByte "." (Availability.TLD r) = false
  | inr err =>
      Availability.Domain r = Strings.TrimSpace input ∧
      Availability.Label r = EmptyString ∧ Availability.TLD r = EmptyString ∧
      Availability.Status r = "unknown" ∧ Availability.Method r = "none" ∧
      Availability.Confidence r = "low" ∧
      Availability.Error r = err ∧ Availability.Detail r = "invalid input"
  end.
Proof.
  intros r. subst r.
  destruct (Domain.Normalize input) as [ascii|err] eqn:Hn.
  2: { unfold Availability.checkOne. rewrite Hn. done. }
  destruct (Normalize_inv _ _ Hn) as [Hdot Hvalid].
  destruct (name_split ascii Hdot Hvalid) as (Hsplit & Hl & Ht & Hnodot & _).
  destruct (checkOne_normalized c env input ascii Hn)
    as (r0 & Hname & Hstate & Hrdap & Hwhois & ->).
  check_paths c.
  all: match goal with
       | |- Availability.Domain ?r = _ ∧ _ =>
           assert (Availability.Domain r = ascii ∧
                   Availability.Label r = (Availability.splitDomain ascii).1 ∧
                   Availability.TLD r = (Availability.splitDomain ascii).2)
             as (-> & -> & ->) by (split_and!; congruence)
       end.
  all: by split_and!.
Qed.

(** The result for an input that normalizes is [unknown] exactly when no
    source that was asked answered [available] or [taken].  Its detail is
    then the first reason that is not empty, the one of RDAP before the
    one of WHOIS, and [lookup unavailable] when there is none: the
    summaries [rdap: ...] and [whois: ...] are never written.  Its error
    is the error of WHOIS if it has one, else the error of RDAP. *)
Theorem checkOne_unknown_report `{GoLib} (c : Availability.Options)
    (env : Availability.Env) (input ascii : string) :
  Domain.Normalize input = inl ascii →
  let r := Availability.checkOne c env input in
  let er := Availability.rdapEvidence env ascii in
  let ew := Availability.whoisEvidence env ascii in
  let whois := negb (Availability.NoWHOIS c) && Availability.WHOIS c in
  let rdapReason := if Availability.RDAP c then Rdap.Reason er else EmptyString in
  let whoisReason := if whois then Whois.Reason ew else EmptyString in
  let rdapErr := if Availability.RDAP c then Rdap.Err er else None in
  let whoisErr := if whois then Whois.Err ew else None in
  (Availability.Status r = "unknown" ↔
   (Availability.RDAP c = true →
    Rdap.Status er ≠ "available" ∧ Rdap.Status er ≠ "taken") ∧
   (whois = true →
    Whois.Status ew ≠ "available" ∧ Whois.Status ew ≠ "taken")) ∧
  (Availability.Status r = "unknown" →
   Availability.Confidence r = "low" ∧
   Availability.Detail r
   = (if decide (rdapReason ≠ EmptyString) then rdapReason
      else if decide (whoisReason ≠ EmptyString) then whoisReason
      else "lookup unavailable") ∧
   Availability.Error r
   = match whoisErr with
     | Some msg => msg
     | None => default EmptyString rdapErr
     end).
Proof.
  intros Hn r er ew whois rdapReason whoisReason rdapErr whoisErr.
  subst r er ew whois rdapReason whoisReason rdapErr whoisErr.
  destruct (checkOne_normalized c env input ascii Hn)
    as (r0 & Hname & Hstate & Hrdap & Hwhois & ->).
  check_paths c.
  all: repeat match goal with
         | Hs : _ = _ ∨ _ = _ |- _ => destruct Hs
         end.
  all: split; [split; [intros Hs|intros [Hr Hw]]|intros Hs].
  all: try (exfalso; congruence).
  all: try (exfalso; destruct Hr; [reflexivity|]; congruence).
  all: try (exfalso; destruct Hw; [reflexivity|]; congruence).
  all: try (split; [by intros _ | by intros ?]).
  all: try (split; by intros ?).
  all: try congruence.
  all: split; [congruence|].
  all: split.
  all: try match goal with
       | |- Availability.Error _ = _ =>
           destruct (Rdap.Err (Availability.rdapEvidence env ascii)),
                    (Whois.Err (Availability.whoisEvidence env ascii));
           cbn [default from_option id] in *;
           rewrite ?decide_True in * by assumption; congruence
       end.
  all: rewrite ?decide_True in * by assumption.
  all: repeat case_decide; try congruence.
  all: repeat match goal with
         | Hk : ¬ (_ ≠ _) |- _ => apply dec_stable in Hk
         end.
  all: match goal with
       | Hk : Availability.Detail ?r ≠ EmptyString → Availability.Detail ?r' = _,
         Hl : Availability.Detail ?r = EmptyString → _ → _ → Availability.Detail ?r' = _
         |- Availability.Detail ?r' = _ =>
           first [ rewrite Hk by congruence; congruence | apply Hl; congruence ]
       end.
Qed.
(** A checker with both clients, an RDAP client that finds no service
    and a WHOIS client that finds a record. *)
Lemma checkOne_sources_witness :
  let c := {| Availability.RDAP := true; Availability.WHOIS := true;
              Availability.NoWHOIS := false; Availability.Timeout := 0;
              Availability.Concurrency := 2; Availability.Verbose := false;
              Availability.Quiet := false |} in
  let env := {| Availability.startTime := Availability.startTime StandIn.quietEnv;
                Availability.rdapEvidence := Availability.rdapEvidence StandIn.quietEnv;
                Availability.whoisEvidence := λ _,
                  {| Whois.Status := "taken"; Whois.Confidence := "medium";
                     Whois.Reason := "whois record found";
                     Whois.Server := "whois.nic.example";
                     Whois.Pattern := "heuristic_record_fields";
                     Whois.Err := None |};
                Availability.endTime := Availability.endTime StandIn.quietEnv;
                Availability.endMono := Availability.endMono StandIn.quietEnv |} in
  let r := Availability.checkOne (H := StandIn.lib) c env " Example.COM " in
  Domain.Normalize (H := StandIn.lib) " Example.COM " = inl "example.com" ∧
  Availability.Method r = "whois" ∧
  Availability.RDAPReason r = "no rdap service for tld" ∧
  Availability.WHOISServer r = "whois.nic.example".
Proof.
  intros c env r.
  destruct (checkOne_sources (H := StandIn.lib) c env " Example.COM " "example.com"
              eq_refl) as (Hm & Hr & Hw).
  split; [reflexivity|].
  split; [exact Hm|]. split; [apply Hr | apply Hw].
Defined.

Lemma checkOne_conclusive_witness :
  let c := {| Availability.RDAP := true; Availability.WHOIS := true;
              Availability.NoWHOIS := false; Availability.Timeout := 0;
              Availability.Concurrency := 2; Availability.Verbose := false;
              Availability.Quiet := false |} in
  let env := {| Availability.startTime := Availability.startTime StandIn.quietEnv;
                Availability.rdapEvidence := λ _,
                  {| Rdap.Status := "available"; Rdap.Confidence := "high";
                     Rdap.Reason := "rdap 404";
                     Rdap.URL := "https://rdap.example/domain/example.com";
                     Rdap.HTTPStatus := 404; Rdap.Err := None |};
                Availability.whoisEvidence := Availability.whoisEvidence StandIn.quietEnv;
                Availability.endTime := Availability.endTime StandIn.quietEnv;
                Availability.endMono := Availability.endMono StandIn.quietEnv |} in
  let r := Availability.checkOne (H := StandIn.lib) c env "example.com" in
  Availability.Status r = "available" ∧ Availability.Method r = "rdap" ∧
  Availability.Detail r = "rdap 404" ∧ Availability.Error r = EmptyString.
Proof.
  intros c env r.
  destruct (checkOne_conclusive (H := StandIn.lib) c env "example.com")
    as [Herr _]; [by vm_compute|].
  split; [reflexivity|]. split; [reflexivity|]. split; [reflexivity | exact Herr].
Defined.

(** Both clients, neither of which settles: RDAP has no service for the
    TLD, the WHOIS query fails. *)
Lemma checkOne_unknown_report_witness :
  let c := {| Availability.RDAP := true; Availability.WHOIS := true;
              Availability.NoWHOIS := false; Availability.Timeout := 0;
              Availability.Concurrency := 2; Availability.Verbose := false;
              Availability.Quiet := false |} in
  let env := {| Availability.startTime := Availability.startTime StandIn.quietEnv;
                Availability.rdapEvidence := Availability.rdapEvidence StandIn.quietEnv;
                Availability.whoisEvidence := λ _,
                  {| Whois.Status := "unknown"; Whois.Confidence := "low";
                     Whois.Reason := "whois request failed";
                     Whois.Server := "whois.nic.example";
                     Whois.Pattern := EmptyString;
                     Whois.Err := Some "dial tcp: i/o timeout" |};
                Availability.endTime := Availability.endTime StandIn.quietEnv;
                Availability.endMono := Availability.endMono StandIn.quietEnv |} in
  let r := Availability.checkOne (H := StandIn.lib) c env "example.com" in
  Availability.Status r = "unknown" ∧
  Availability.Detail r = "no rdap service for tld" ∧
  Availability.Error r = "dial tcp: i/o timeout".
Proof.
  intros c env r.
  destruct (checkOne_unknown_report (H := StandIn.lib) c env "example.com"
              "example.com" eq_refl) as [Hiff Hrep].
  assert (Availability.Status r = "unknown") as Hs.
  { apply Hiff. split; intros _; split; discriminate. }
  destruct (Hrep Hs) as (_ & Hd & He).
  split; [exact Hs|]. split; [exact Hd | exact He].
Defined.

Example checkOne_domain_fields_run :
  let check := Availability.checkOne (H := StandIn.lib) StandIn.noClients
                 StandIn.quietEnv in
  (Availability.Domain (check "https://www.Example.co.uk/x") = "www.example.co.uk" ∧
   Availability.Label (check "https://www.Example.co.uk/x") = "www.example.co" ∧
   Availability.TLD (check "https://www.Example.co.uk/x") = "uk") ∧
  (Availability.Domain (check " local host ") = "local host" ∧
   Availability.Detail (check " local host ") = "invalid input").
Proof. by vm_compute. Qed.

(** ** Lists of TLDs *)
Section SplitCommaFacts.
Import Strings Cmd.
Context `{GoLib}.

Lemma addPart_parts parts out seen :
  NoDup out → (∀ p, p ∈ seen ↔ p ∈ out) →
  let r := fold_left addPart parts (out, seen) in
  NoDup r.1 ∧ (∀ p, p ∈ r.2 ↔ p ∈ r.1) ∧ out `prefix_of` r.1 ∧
  (∀ p, p ∈ r.1 ↔
        p ∈ out ∨ (p ≠ EmptyString ∧
                   ∃ part, part ∈ parts ∧ p = ToLower (TrimSpace part))).
Proof.
  revert out seen. induction parts as [|part parts IH]; intros out seen Hnd Hseen; simpl.
  { split; [done|]. split; [done|]. split; [done|].
    intros p. split; [by left|]. intros [?|(_ & ? & []%elem_of_nil & _)]. done. }
  assert (∀ p, (p ≠ EmptyString ∧
                ∃ x, x ∈ part :: parts ∧ p = ToLower (TrimSpace x)) ↔
               (p ≠ EmptyString ∧ p = ToLower (TrimSpace part)) ∨
               (p ≠ EmptyString ∧ ∃ x, x ∈ parts ∧ p = ToLower (TrimSpace x)))
    as Hcons.
  { intros p. split.
    - intros (Hne & x & [->|Hx]%elem_of_cons & ->); [by left|].
      right. split; [done|]. by exists x.
    - intros [[Hne ->] | (Hne & x & Hx & ->)].
      + split; [done|]. exists part. split; [by left | done].
      + split; [done|]. exists x. split; [by right | done]. }
  cbv zeta.
  assert (addPart (out, seen) part
          = if decide (ToLower (TrimSpace part) = EmptyString) then (out, seen)
            else if decide (ToLower (TrimSpace part) ∈ seen) then (out, seen)
            else (out ++ [ToLower (TrimSpace part)],
                  {[ToLower (TrimSpace part)]} ∪ seen)) as -> by done.
  destruct (decide (ToLower (TrimSpace part) = EmptyString)) as [He|He].
  { destruct (IH out seen Hnd Hseen) as (H1 & H2 & H3 & H4).
    split; [done|]. split; [done|]. split; [done|].
    intros p. rewrite H4, Hcons. split; [tauto|].
    intros [?|[[Hne ->]|?]]; [tauto | done | tauto]. }
  destruct (decide (ToLower (TrimSpace part) ∈ seen)) as [Hin|Hin].
  { destruct (IH out seen Hnd Hseen) as (H1 & H2 & H3 & H4).
    split; [done|]. split; [done|]. split; [done|].
    intros p. rewrite H4, Hcons. split; [tauto|].
    intros [?|[[Hne ->]|?]]; [tauto | | tauto]. left. by apply Hseen. }
  destruct (IH (out ++ [ToLower (TrimSpace part)])
              ({[ToLower (TrimSpace part)]} ∪ seen)) as (H1 & H2 & H3 & H4).
  { apply NoDup_app. split; [done|]. split; [|apply NoDup_singleton].
    intros x Hx ->%list_elem_of_singleton. apply Hin. by apply Hseen. }
  { intros p. rewrite elem_of_union, elem_of_singleton, elem_of_app,
      list_elem_of_singleton, Hseen. tauto. }
  split; [done|]. split; [done|].
  split; [etrans; [|exact H3]; by apply prefix_app_r|].
  intros p. rewrite H4, Hcons, elem_of_app, list_elem_of_singleton.
  split; [|tauto]. intros [[?|Hp]|?]; [tauto| |tauto].
  right. left. by rewrite Hp.
Qed.

End SplitCommaFacts.

(** The list that [splitCommaList] returns holds each part of [s]
    between commas, trimmed and in lower case, that is not empty, and
    nothing else; no entry comes twice.  The entries keep the order of
    their first occurrence: a longer list only adds entries at the end. *)
Theorem splitCommaList_entries `{GoLib} (s : string) :
  NoDup (Cmd.splitCommaList s) ∧
  (∀ p, p ∈ Cmd.splitCommaList s ↔
        p ≠ EmptyString ∧
        ∃ part, part ∈ Strings.SplitByte s "," ∧
                p = Strings.ToLower (Strings.TrimSpace part)) ∧
  (∀ s', Cmd.splitCommaList s `prefix_of` Cmd.splitCommaList (s +:+ "," +:+ s')).
Proof.
  unfold Cmd.splitCommaList.
  destruct (addPart_parts (Strings.SplitByte s ",") [] ∅) as (H1 & H2 & _ & H4);
    [constructor | set_solver |].
  split; [exact H1|]. split.
  - intros p. rewrite H4. split; [|tauto]. intros [[]%elem_of_nil|?]. done.
  - intros s'. change ("," +:+ s') with (String "," s').
    rewrite SplitByte_append, fold_left_app.
    destruct (fold_left Cmd.addPart (Strings.SplitByte s ",") ([], ∅))
      as [out seen] eqn:E. simpl in *.
    by destruct (addPart_parts (Strings.SplitByte s' ",") out seen H1 H2)
      as (_ & _ & H3 & _).
Qed.

Example splitCommaList_run :
  Cmd.splitCommaList (H := StandIn.lib) " com, IO ,,io,Dev,COM " = ["com"; "io"; "dev"].
Proof. by vm_compute. Qed.

(** ** The domains of a search *)
Section SearchDomainsFacts.
Import Strings Cmd.
Context `{GoLib}.
Local Open Scope Z_scope.

Variable maxDomains : Z.

Lemma full_false st :
  full maxDomains st = false ↔
  maxDomains ≤ 0 ∨ Z.of_nat (length (domains st)) < maxDomains.
Proof.
  unfold full. rewrite bool_decide_eq_false. split; [|lia].
  intros Hf. destruct (decide (maxDomains ≤ 0)); [by left|]. right. lia.
Qed.

Lemma agree_add st ascii score :
  agree st → ascii ∉ seen st →
  agree {| domains := domains st ++ [ascii]; seen := {[ascii]} ∪ seen st;
           meta := <[ascii := score]> (meta st) |}.
Proof.
  intros (Hnd & Hseen & Hmeta) Hnew. split; [|split]; simpl.
  - apply NoDup_app. split; [done|]. split; [|apply NoDup_singleton].
    intros x Hx ->%list_elem_of_singleton. apply Hnew. by apply Hseen.
  - intros d. rewrite elem_of_union, elem_of_singleton, elem_of_app,
      list_elem_of_singleton, Hseen. tauto.
  - intros d. rewrite elem_of_app, list_elem_of_singleton, <- Hmeta.
    destruct (decide (d = ascii)) as [->|Hne].
    + rewrite lookup_insert_eq. split; [by right | by eexists].
    + rewrite lookup_insert_ne by done. tauto.
Qed.

Lemma tryTLDs_domains cand tlds st :
  agree st → full maxDomains st = false →
  let st' := tryTLDs maxDomains cand tlds st in
  agree st' ∧ domains st `prefix_of` domains st' ∧
  (∀ d, d ∈ domains st → meta st' !! d = meta st !! d) ∧
  (∀ d, d ∈ domains st' → d ∉ domains st →
        meta st' !! d = Some (Generate.Score cand) ∧
        ∃ tld, tld ∈ tlds ∧
               Domain.Normalize (Generate.Label cand +:+ "." +:+ ToLower tld) = inl d) ∧
  (0 < maxDomains → Z.of_nat (length (domains st')) ≤ maxDomains) ∧
  (full maxDomains st' = false →
   ∀ tld d, tld ∈ tlds →
            Domain.Normalize (Generate.Label cand +:+ "." +:+ ToLower tld) = inl d →
            d ∈ domains st').
Proof.
  revert st. induction tlds as [|tld tlds IH]; intros st Hag Hfull;
    cbn [tryTLDs]; cbv zeta.
  { split; [done|]. split; [done|]. split; [done|]. split; [done|].
    split; [apply full_false in Hfull; lia|].
    intros _ tld d []%elem_of_nil. }
  destruct (Domain.Normalize (Generate.Label cand +:+ "." +:+ ToLower tld))
    as [ascii|err] eqn:Hn.
  2: { destruct (IH st Hag Hfull) as (H1 & H2 & H3 & H4 & H5 & H6).
       split; [done|]. split; [done|]. split; [done|]. split; [|split; [done|]].
       - intros d Hd Hnew. destruct (H4 d Hd Hnew) as (Hm & t & Ht & Hnt).
         split; [done|]. exists t. split; [by right | done].
       - intros Hf t d [->|Ht]%elem_of_cons Hnt; [congruence|]. by eapply H6. }
  destruct (decide (ascii ∈ seen st)) as [Hin|Hin].
  { destruct (IH st Hag Hfull) as (H1 & H2 & H3 & H4 & H5 & H6).
    split; [done|]. split; [done|]. split; [done|]. split; [|split; [done|]].
    - intros d Hd Hnew. destruct (H4 d Hd Hnew) as (Hm & t & Ht & Hnt).
      split; [done|]. exists t. split; [by right | done].
    - intros Hf t d [->|Ht]%elem_of_cons Hnt; [|by eapply H6].
      rewrite Hn in Hnt. injection Hnt as <-.
      destruct H2 as [more ->]. apply elem_of_app. left.
      by apply (proj1 (proj1 (proj2 Hag) ascii)). }
  set (st1 := {| domains := domains st ++ [ascii]; seen := {[ascii]} ∪ seen st;
                 meta := <[ascii := Generate.Score cand]> (meta st) |}).
  pose proof (agree_add st ascii (Generate.Score cand) Hag Hin) as Hag1.
  fold st1 in Hag1.
  assert (ascii ∉ domains st) as Hnotin.
  { intros Hd. apply Hin. by apply Hag. }
  assert (∀ d, d ∈ domains st → meta st1 !! d = meta st !! d) as Hkeep1.
  { intros d Hd. subst st1. simpl. rewrite lookup_insert_ne; [done|].
    intros ->. done. }
  assert (meta st1 !! ascii = Some (Generate.Score cand)) as Hnew1.
  { subst st1. simpl. by rewrite lookup_insert_eq. }
  destruct (full maxDomains st1) eqn:Hf1.
  { split; [done|]. split; [by apply prefix_app_r|]. split; [done|].
    split; [|split; [|congruence]].
    - intros d [Hd| ->%list_elem_of_singleton]%elem_of_app Hnew; [done|].
      split; [done|]. exists tld. split; [by left | done].
    - intros Hpos. apply full_false in Hfull. subst st1. simpl.
      rewrite length_app. simpl. lia. }
  destruct (IH st1 Hag1 Hf1) as (H1 & H2 & H3 & H4 & H5 & H6).
  split; [done|]. split; [etrans; [|exact H2]; by apply prefix_app_r|].
  split; [|split; [|split; [done|]]].
  - intros d Hd. rewrite H3; [by apply Hkeep1|]. apply elem_of_app. by left.
  - intros d Hd Hnew. destruct (decide (d = ascii)) as [->|Hne].
    + split.
      * rewrite H3; [done|]. apply elem_of_app. right. by apply list_elem_of_singleton.
      * exists tld. split; [by left | done].
    + destruct (H4 d Hd) as (Hm & t & Ht & Hnt).
      { intros [?|?%list_elem_of_singleton]%elem_of_app; done. }
      split; [done|]. exists t. split; [by right | done].
  - intros Hf t d [->|Ht]%elem_of_cons Hnt; [|by eapply H6].
    rewrite Hn in Hnt. injection Hnt as <-.
    destruct H2 as [more ->]. apply elem_of_app. left.
    apply elem_of_app. right. by apply list_elem_of_singleton.
Qed.

Lemma collectDomains_domains labels tlds st :
  agree st → full maxDomains st = false →
  let st' := collectDomains maxDomains labels tlds st in
  agree st' ∧ domains st `prefix_of` domains st' ∧
  (∀ d, d ∈ domains st → meta st' !! d = meta st !! d) ∧
  (∀ d, d ∈ domains st' → d ∉ domains st →
        ∃ before cand after,
          labels = before ++ cand :: after ∧
          meta st' !! d = Some (Generate.Score cand) ∧
          (∃ tld, tld ∈ tlds ∧
                  Domain.Normalize (Generate.Label cand +:+ "." +:+ ToLower tld)
                  = inl d) ∧
          ∀ c tld, c ∈ before → tld ∈ tlds →
                   Domain.Normalize (Generate.Label c +:+ "." +:+ ToLower tld)
                   ≠ inl d) ∧
  (0 < maxDomains → Z.of_nat (length (domains st')) ≤ maxDomains) ∧
  (full maxDomains st' = false →
   ∀ cand tld d, cand ∈ labels → tld ∈ tlds →
                 Domain.Normalize (Generate.Label cand +:+ "." +:+ ToLower tld) = inl d →
                 d ∈ domains st').
Proof.
  revert st. induction labels as [|cand labels IH]; intros st Hag Hfull;
    cbn [collectDomains]; cbv zeta.
  { split; [done|]. split; [done|]. split; [done|]. split; [done|].
    split; [apply full_false in Hfull; lia|].
    intros _ c tld d []%elem_of_nil. }
  destruct (tryTLDs_domains cand tlds st Hag Hfull) as (T1 & T2 & T3 & T4 & T5 & T6).
  set (st1 := tryTLDs maxDomains cand tlds st) in *.
  destruct (full maxDomains st1) eqn:Hf1.
  { split; [done|]. split; [done|]. split; [done|]. split; [|split; [done|congruence]].
    intros d Hd Hnew. destruct (T4 d Hd Hnew) as [Hm Ht].
    exists [], cand, labels. split; [done|]. split; [done|]. split; [done|].
    intros c tld []%elem_of_nil. }
  destruct (IH st1 T1 Hf1) as (H1 & H2 & H3 & H4 & H5 & H6).
  split; [done|]. split; [by etrans|].
  split; [|split; [|split; [done|]]].
  - intros d Hd. rewrite H3; [by apply T3|].
    destruct T2 as [more ->]. apply elem_of_app. by left.
  - intros d Hd Hnew. destruct (decide (d ∈ domains st1)) as [Hd1|Hd1].
    + destruct (T4 d Hd1 Hnew) as [Hm Ht].
      exists [], cand, labels. split; [done|]. split; [by rewrite H3|].
      split; [done|]. intros c tld []%elem_of_nil.
    + destruct (H4 d Hd Hd1) as (before & c & after & -> & Hm & Ht & Hfirst).
      exists (cand :: before), c, after. split; [done|]. split; [done|].
      split; [done|]. intros c' tld [->|Hc]%elem_of_cons Htld Hnt.
      * apply Hd1. by eapply T6.
      * by eapply Hfirst.
  - intros Hf c tld d [->|Hc]%elem_of_cons Htld Hnt.
    + destruct H2 as [more ->]. apply elem_of_app. left. by eapply T6.
    + by eapply H6.
Qed.

End SearchDomainsFacts.

(** The domains that the [search] command goes on to check.  No domain
    comes twice, and [seen] holds exactly the domains.  Each domain is
    what [Normalize] makes of the label of a candidate, a dot and a TLD in
    lower case; its score in [meta] is that of the first candidate that
    gives it with some TLD, and [meta] holds nothing else.  With a
    positive [maxDomains] there are no more domains than that; when the
    list stays below the maximum, or there is none, every candidate and
    TLD that normalize have their domain in it. *)
Theorem searchDomains_list `{GoLib} (maxDomains : Z)
    (labels : list Generate.Candidate) (tlds : list string) :
  let st := Cmd.searchDomains maxDomains labels tlds in
  let name := λ (c : Generate.Candidate) (tld : string),
    Domain.Normalize (Generate.Label c +:+ "." +:+ Strings.ToLower tld) in
  NoDup (Cmd.domains st) ∧
  (∀ d, d ∈ Cmd.seen st ↔ d ∈ Cmd.domains st) ∧
  (∀ d, d ∈ Cmd.domains st →
        ∃ before cand after,
          labels = before ++ cand :: after ∧
          Cmd.meta st !! d = Some (Generate.Score cand) ∧
          (∃ tld, tld ∈ tlds ∧ name cand tld = inl d) ∧
          ∀ c tld, c ∈ before → tld ∈ tlds → name c tld ≠ inl d) ∧
  (∀ d, d ∉ Cmd.domains st → Cmd.meta st !! d = None) ∧
  (0 < maxDomains → Z.of_nat (length (Cmd.domains st)) ≤ maxDomains)%Z ∧
  ((maxDomains ≤ 0 ∨ Z.of_nat (length (Cmd.domains st)) < maxDomains)%Z →
   ∀ cand tld d, cand ∈ labels → tld ∈ tlds → name cand tld = inl d →
                 d ∈ Cmd.domains st).
Proof.
  intros st name. subst st name. unfold Cmd.searchDomains.
  set (st0 := {| Cmd.domains := []; Cmd.seen := ∅; Cmd.meta := ∅ |}).
  assert (Cmd.agree st0) as Hag0.
  { split; [constructor|]. split; intros d; subst st0; simpl.
    - set_solver.
    - rewrite lookup_empty. split; [by intros [? ?] | by intros ?%elem_of_nil]. }
  assert (Cmd.full maxDomains st0 = false) as Hf0.
  { apply full_false. subst st0. simpl. lia. }
  destruct (collectDomains_domains maxDomains labels tlds st0 Hag0 Hf0)
    as ((Hnd & Hseen & Hmeta) & _ & _ & Hnew & Hmax & Hall).
  split; [done|]. split; [done|]. split; [|split; [|split; [done|]]].
  - intros d Hd. apply Hnew; [done|]. subst st0. simpl. by intros ?%elem_of_nil.
  - intros d Hd. apply eq_None_not_Some. by rewrite Hmeta.
  - intros Hlt. apply Hall. by apply full_false.
Qed.

Example searchDomains_run :
  let labels := [ {| Generate.Label := "agentic-eng"; Generate.Score := 90 |};
                  {| Generate.Label := "agentic"; Generate.Score := 70 |} ] in
  let st := Cmd.searchDomains (H := StandIn.lib) 3 labels ["com"; "IO"; "com"] in
  Cmd.domains st = ["agentic-eng.com"; "agentic-eng.io"; "agentic.com"] ∧
  Cmd.meta st !! "agentic.com" = Some 70%Z.
Proof. by vm_compute. Qed.

(** ** The pacing of the Porkbun client *)
Section PorkbunFacts.
Import Strings Porkbun.
Local Open Scope Z_scope.

Lemma NewClient_fresh o c :
  NewClient o = inl c →
  0 < MinDelay (opts c) ∧ dynamicMinDelay c = 0 ∧ nextRequestAt c = Whois.zeroTime ∧
  APIKey (opts c) ≠ EmptyString ∧ SecretAPIKey (opts c) ≠ EmptyString.
Proof.
  unfold NewClient. case_decide as Hk; [done|]. intros [= <-]. simpl.
  unfold Millisecond. repeat case_decide; split_and!; try lia; try done; tauto.
Qed.

Lemma updateDynamicDelay_effect c l :
  0 ≤ dynamicMinDelay c ≤ 5 * Second →
  let c' := updateDynamicDelay c l in
  opts c' = opts c ∧ nextRequestAt c' = nextRequestAt c ∧
  dynamicMinDelay c ≤ dynamicMinDelay c' ≤ 5 * Second ∧
  (Registrar.TTLSeconds l ≤ 0 ∨ Registrar.Limit l ≤ 0 →
   dynamicMinDelay c' = dynamicMinDelay c) ∧
  (0 < Registrar.TTLSeconds l → 0 < Registrar.Limit l →
   Registrar.TTLSeconds l * Second ≤ Int64.MaxInt64 →
   dynamicMinDelay c'
   = Z.max (dynamicMinDelay c)
           (Z.min (Registrar.TTLSeconds l * Second / Registrar.Limit l) (5 * Second))).
Proof.
  intros Hd. unfold updateDynamicDelay.
  destruct (decide (Registrar.TTLSeconds l <= 0 ∨ Registrar.Limit l <= 0)) as [Hz|Hz].
  { cbv zeta. split_and!; try done; lia. }
  cbv zeta. set (per := Int64.wrap _ ÷ _).
  assert (0 < Registrar.TTLSeconds l → 0 < Registrar.Limit l →
          Registrar.TTLSeconds l * Second ≤ Int64.MaxInt64 →
          per = Registrar.TTLSeconds l * Second / Registrar.Limit l ∧ 0 ≤ per)
    as Hper.
  { intros Ht Hl Hmax. subst per.
    assert (Int64.wrap (Registrar.TTLSeconds l * Second)
            = Registrar.TTLSeconds l * Second) as ->.
    { unfold Int64.wrap, Int64.MaxInt64, Second in *. rewrite Z.mod_small; lia. }
    rewrite Z.quot_div_nonneg by (unfold Second; lia).
    split; [done|]. apply Z.div_pos; unfold Second; lia. }
  clearbody per.
  repeat case_decide; simpl; split_and!; try done; try lia.
  all: intros Ht Hl Hmax; destruct (Hper Ht Hl Hmax) as [<- Hpos]; lia.
Qed.

Lemma throttle_effect c e :
  let '(err, scheduled, c') := throttle c e in
  opts c' = opts c ∧ dynamicMinDelay c' = dynamicMinDelay c ∧
  scheduled = Z.max (now e) (nextRequestAt c) ∧
  nextRequestAt c'
  = scheduled + Z.max (MinDelay (opts c)) (dynamicMinDelay c) ∧
  err = (if decide (scheduled ≤ later e) then None else ctxDone e).
Proof.
  unfold throttle. cbv zeta.
  repeat case_decide; simpl; split_and!; try done; try lia.
  all: try (rewrite decide_True by lia; done).
  all: try (rewrite decide_False by lia; done).
Qed.

Lemma step_effect c ev :
  0 < MinDelay (opts c) → 0 ≤ dynamicMinDelay c ≤ 5 * Second →
  let '(slot, c') := step c ev in
  opts c' = opts c ∧
  dynamicMinDelay c ≤ dynamicMinDelay c' ≤ 5 * Second ∧
  nextRequestAt c ≤ nextRequestAt c' ∧
  (∀ s, slot = Some s →
        nextRequestAt c ≤ s ∧ s + MinDelay (opts c) ≤ nextRequestAt c').
Proof.
  intros Hpos Hd. destruct ev as [e|l]; simpl.
  - pose proof (throttle_effect c e) as He.
    destruct (throttle c e) as [[err s] c'].
    destruct He as (Ho & Hdyn & Hs & Hn & _).
    split; [done|]. split; [lia|]. split; [lia|]. intros ? [= <-]. lia.
  - destruct (updateDynamicDelay_effect c l Hd) as (Ho & Hn & Hdyn & _).
    split; [done|]. split; [done|]. split; [lia|]. done.
Qed.

Lemma run_app c evs1 evs2 :
  run c (evs1 ++ evs2)
  = ((run c evs1).1 ++ (run (run c evs1).2 evs2).1, (run (run c evs1).2 evs2).2).
Proof.
  revert c. induction evs1 as [|ev evs1 IH]; intros c; simpl.
  { by destruct (run c evs2). }
  destruct (step c ev) as [slot c1]. rewrite IH.
  destruct (run c1 evs1) as [slots1 c2]. simpl.
  by destruct (run c2 evs2).
Qed.

Lemma run_paced c evs :
  0 < MinDelay (opts c) → 0 ≤ dynamicMinDelay c ≤ 5 * Second →
  opts (run c evs).2 = opts c ∧
  dynamicMinDelay c ≤ dynamicMinDelay (run c evs).2 ≤ 5 * Second ∧
  nextRequestAt c ≤ nextRequestAt (run c evs).2 ∧
  Forall (λ s, nextRequestAt c ≤ s) (scheduledAt (run c evs).1).
Proof.
  revert c. induction evs as [|ev evs IH]; intros c Hpos Hd; simpl.
  { split; [done|]. split; [lia|]. split; [lia|]. constructor. }
  pose proof (step_effect c ev Hpos Hd) as Hs.
  destruct (step c ev) as [slot c1]. destruct Hs as (Ho & Hdyn & Hn & Hslot).
  destruct (IH c1) as (Ho' & Hdyn' & Hn' & Hall); [by rewrite Ho | lia |].
  destruct (run c1 evs) as [slots c2]. simpl in *.
  split; [congruence|]. split; [lia|]. split; [lia|].
  unfold scheduledAt in *. simpl.
  assert (Forall (λ s, nextRequestAt c ≤ s) (omap id slots)) as Hall'.
  { eapply Forall_impl; [exact Hall|]. simpl. intros s ?. lia. }
  destruct slot as [s|]; simpl; [|done].
  constructor; [|done]. by apply Hslot.
Qed.

Lemma run_gaps c evs :
  0 < MinDelay (opts c) → 0 ≤ dynamicMinDelay c ≤ 5 * Second →
  ∀ i s1 s2,
    scheduledAt (run c evs).1 !! i = Some s1 →
    scheduledAt (run c evs).1 !! S i = Some s2 →
    s1 + MinDelay (opts c) ≤ s2.
Proof.
  revert c. induction evs as [|ev evs IH]; intros c Hpos Hd i s1 s2; simpl.
  { done. }
  pose proof (step_effect c ev Hpos Hd) as Hs.
  destruct (step c ev) as [slot c1]. destruct Hs as (Ho & Hdyn & Hn & Hslot).
  assert (0 < MinDelay (opts c1)) as Hpos1 by (by rewrite Ho).
  assert (0 ≤ dynamicMinDelay c1 ≤ 5 * Second) as Hd1 by lia.
  pose proof (run_paced c1 evs Hpos1 Hd1) as (_ & _ & _ & Hall).
  specialize (IH c1 Hpos1 Hd1). rewrite Ho in IH.
  destruct (run c1 evs) as [slots c2]. simpl in *.
  unfold scheduledAt in *. simpl.
  destruct slot as [s|]; simpl; [|apply IH].
  destruct i as [|i]; simpl; [|apply IH].
  intros [= ->] H2. rewrite Forall_lookup in Hall.
  specialize (Hall 0%nat s2 H2). simpl in Hall.
  destruct (Hslot s1 eq_refl). lia.
Qed.

Lemma run_scheduled_count c evs :
  length (scheduledAt (run c evs).1)
  = length (omap (λ ev, match ev with Throttle e => Some e | Update _ => None end) evs).
Proof.
  revert c. induction evs as [|ev evs IH]; intros c; simpl; [done|].
  destruct (step c ev) as [slot c1] eqn:Hs. specialize (IH c1).
  destruct (run c1 evs) as [slots c2]. simpl in *. unfold scheduledAt in *. simpl.
  destruct ev as [e|l]; simpl in Hs.
  - destruct (throttle c e) as [[err s] c']. injection Hs as <- <-. simpl.
    by rewrite IH.
  - injection Hs as <- <-. simpl. exact IH.
Qed.

End PorkbunFacts.

(** A client of [NewClient] has a positive [MinDelay].  Through any run
    of calls of [throttle] and [updateDynamicDelay] the options stay, the
    dynamic delay never falls and never leaves the range from 0 to 5 s,
    also when the product of the limits wraps.  [throttle] schedules the
    later of the clock and [nextRequestAt], and moves [nextRequestAt] to
    the scheduled instant plus the larger of [MinDelay] and the dynamic
    delay; it fails only when it has to wait and the context ends.
    [updateDynamicDelay] leaves limits that are not positive aside, and
    else, when the product does not wrap, raises the dynamic delay to the
    time per request, 5 s at most.  Every call of [throttle] schedules an
    instant, and two instants scheduled one after the other lie
    [MinDelay] apart or more. *)
Theorem porkbun_pacing (o : Porkbun.Options) (c0 : Porkbun.Client)
    (evs : list Porkbun.event) :
  Porkbun.NewClient o = inl c0 →
  let minDelay := Porkbun.MinDelay (Porkbun.opts c0) in
  let slots := Porkbun.scheduledAt (Porkbun.run c0 evs).1 in
  (0 < minDelay)%Z ∧
  (∀ before ev after, evs = before ++ ev :: after →
     let c1 := (Porkbun.run c0 before).2 in
     let c2 := (Porkbun.step c1 ev).2 in
     Porkbun.opts c2 = Porkbun.opts c0 ∧
     (0 ≤ Porkbun.dynamicMinDelay c1 ≤ Porkbun.dynamicMinDelay c2)%Z ∧
     (Porkbun.dynamicMinDelay c2 ≤ 5 * Porkbun.Second)%Z ∧
     match ev with
     | Porkbun.Throttle e =>
         let scheduled := Z.max (Porkbun.now e) (Porkbun.nextRequestAt c1) in
         Porkbun.throttle c1 e
         = (if decide (scheduled ≤ Porkbun.later e)%Z then None else Porkbun.ctxDone e,
            scheduled, c2) ∧
         (Porkbun.step c1 ev).1 = Some scheduled ∧
         Porkbun.nextRequestAt c2
         = (scheduled + Z.max minDelay (Porkbun.dynamicMinDelay c1))%Z ∧
         Porkbun.dynamicMinDelay c2 = Porkbun.dynamicMinDelay c1
     | Porkbun.Update l =>
         c2 = Porkbun.updateDynamicDelay c1 l ∧
         (Porkbun.step c1 ev).1 = None ∧
         Porkbun.nextRequestAt c2 = Porkbun.nextRequestAt c1 ∧
         ((Registrar.TTLSeconds l ≤ 0 ∨ Registrar.Limit l ≤ 0)%Z →
          Porkbun.dynamicMinDelay c2 = Porkbun.dynamicMinDelay c1) ∧
         ((0 < Registrar.TTLSeconds l)%Z → (0 < Registrar.Limit l)%Z →
          (Registrar.TTLSeconds l * Porkbun.Second ≤ Int64.MaxInt64)%Z →
          Porkbun.dynamicMinDelay c2
          = Z.max (Porkbun.dynamicMinDelay c1)
                  (Z.min (Registrar.TTLSeconds l * Porkbun.Second / Registrar.Limit l)
                         (5 * Porkbun.Second)))
     end) ∧
  length slots
  = length (omap (λ ev, match ev with
                        | Porkbun.Throttle e => Some e
                        | Porkbun.Update _ => None
                        end) evs) ∧
  (∀ i s1 s2, slots !! i = Some s1 → slots !! S i = Some s2 →
              (s1 + minDelay ≤ s2)%Z).
Proof.
  intros (Hpos & Hdyn0 & _)%NewClient_fresh minDelay slots. subst minDelay slots.
  assert (0 ≤ Porkbun.dynamicMinDelay c0 ≤ 5 * Porkbun.Second)%Z as Hd0.
  { rewrite Hdyn0. unfold Porkbun.Second. lia. }
  split; [done|]. split; [|split].
  - intros before ev after ->.
    destruct (run_paced c0 before Hpos Hd0) as (Ho1 & Hd1 & _).
    set (c1 := (Porkbun.run c0 before).2) in *. cbv zeta.
    assert (0 < Porkbun.MinDelay (Porkbun.opts c1))%Z as Hpos1 by (by rewrite Ho1).
    assert (0 ≤ Porkbun.dynamicMinDelay c1 ≤ 5 * Porkbun.Second)%Z as Hr1 by lia.
    destruct ev as [e|l]; simpl.
    + pose proof (throttle_effect c1 e) as He.
      destruct (Porkbun.throttle c1 e) as [[err s] c2]. simpl.
      destruct He as (Ho & Hdyn & -> & Hn & ->).
      split; [congruence|]. split; [lia|]. split; [lia|].
      split; [done|]. split; [done|]. split; [|done]. by rewrite Hn, Ho1.
    + destruct (updateDynamicDelay_effect c1 l Hr1) as (Ho & Hn & Hdyn & Hz & Hper).
      split; [congruence|]. split; [lia|]. split; [lia|]. done.
  - apply run_scheduled_count.
  - by apply run_gaps.
Qed.

(** Requests at the same instant, with limits of 10 requests in 60 s
    read after the second: the delay of 5 s separates the requests that
    are scheduled after the next one. *)
Lemma porkbun_pacing_witness :
  let o := {| Porkbun.APIKey := " pk1_key "; Porkbun.SecretAPIKey := "sk1_key";
              Porkbun.BaseURL := EmptyString; Porkbun.Timeout := 0;
              Porkbun.MinDelay := 0; Porkbun.MaxConcurrent := 0;
              Porkbun.UserAgent := EmptyString |} in
  let at1 := {| Porkbun.now := 1000; Porkbun.later := 1001;
                Porkbun.ctxDone := None |} in
  let limits := {| Registrar.TTLSeconds := 60; Registrar.Limit := 10;
                   Registrar.Used := 1; Registrar.NaturalLanguage := EmptyString |} in
  let evs := [Porkbun.Throttle at1; Porkbun.Throttle at1; Porkbun.Update limits;
              Porkbun.Throttle at1; Porkbun.Throttle at1] in
  ∃ c0, Porkbun.NewClient o = inl c0 ∧
        Porkbun.scheduledAt (Porkbun.run c0 evs).1
        = [1000; 200001000; 400001000; 5400001000]%Z ∧
        (1000 + Porkbun.MinDelay (Porkbun.opts c0) ≤ 200001000)%Z.
Proof.
  intros o at1 limits evs.
  destruct (Porkbun.NewClient o) as [c0|err] eqn:Hc.
  2: { vm_compute in Hc. discriminate Hc. }
  exists c0. split; [reflexivity|].
  destruct (porkbun_pacing o c0 evs Hc) as (_ & _ & _ & Hgap).
  assert (Porkbun.scheduledAt (Porkbun.run c0 evs).1
          = [1000; 200001000; 400001000; 5400001000]%Z) as Hslots.
  { vm_compute in Hc. injection Hc as <-. by vm_compute. }
  split; [exact Hslots|].
  apply (Hgap 0%nat); by rewrite Hslots.
Defined.
